(** * FinBoard: adapters, field mapper, structure detector, connection manager

    A shallow embedding of the core of the FinBoard data layer:
    - [JS]            the JSON-like values and string primitives the code uses;
    - [FieldMapper]   [CustomApiAdapter.extractValue] / [validateResponse];
    - [Detector]      [ApiStructureDetector] (field-name and value heuristics);
    - [Adapters]      the three built-in adapters' [getQuote] and the interval
                      guard of [getHistoricalData];
    - [Registry]      [ApiAdapterRegistry] and [ApiAdapterFactory];
    - [WS]            [WebSocketManager] as an event-driven state machine. *)

From Stdlib Require Import String Ascii List Bool Arith ZArith QArith Qabs Lia.
From Stdlib Require Import DecimalString DecimalNat DecimalFacts.
From stdpp Require Import gmap strings list fin_maps.

Import ListNotations.
Local Open Scope string_scope.
Local Open Scope list_scope.
Local Set Warnings "-register-all".

(* ===================================================================== *)
(** * JavaScript values and string primitives *)
(* ===================================================================== *)

Module JS.

(** The built-in prototype chain of a value, by the kind of the value. *)
Inductive Kind : Type := KObject | KArray | KString | KNumber | KBoolean.

(** A value of the platform that is not data.  [Inherited holder name] is the
    member [name] that the values of kind [holder] inherit from their
    prototype chain: a built-in function, or the prototype object itself for
    [__proto__].  [MemberOf n key] is what reading [key] on the platform value
    [n] yields; which value that is (it may be [undefined]) is up to the
    platform and is not determined here. *)
Inductive Native : Type :=
| Inherited (holder : Kind) (name : string)
| MemberOf (n : Native) (key : string).

(** Runtime values: JSON data and the platform values reached from it.
    Numbers are exact rationals (IEEE rounding is not modelled); an object is
    the list of its own properties in enumeration order.  The outcome of
    [JSON.parse] and of [response.json()] is data: no [JNative] occurs in
    it. *)
Inductive jsval : Type :=
| JUndefined
| JNull
| JBool (b : bool)
| JNum (q : Q)
| JStr (s : string)
| JArr (items : list jsval)
| JObj (props : list (string * jsval))
| JNative (n : Native).

Definition chars (s : string) : list ascii := list_ascii_of_string s.
Definition unchars (l : list ascii) : string := string_of_list_ascii l.

Definition is_digit (c : ascii) : bool :=
  let n := nat_of_ascii c in (48 <=? n)%nat && (n <=? 57)%nat.
Definition is_upper (c : ascii) : bool :=
  let n := nat_of_ascii c in (65 <=? n)%nat && (n <=? 90)%nat.
Definition is_lower (c : ascii) : bool :=
  let n := nat_of_ascii c in (97 <=? n)%nat && (n <=? 122)%nat.

Definition upper_char (c : ascii) : ascii :=
  if is_lower c then ascii_of_nat (nat_of_ascii c - 32) else c.
Definition lower_char (c : ascii) : ascii :=
  if is_upper c then ascii_of_nat (nat_of_ascii c + 32) else c.

(** [String.prototype.toUpperCase] / [toLowerCase] on ASCII text. *)
Definition toUpperCase (s : string) : string := unchars (List.map upper_char (chars s)).
Definition toLowerCase (s : string) : string := unchars (List.map lower_char (chars s)).

Fixpoint starts_with (pre l : list ascii) : bool :=
  match pre, l with
  | [], _ => true
  | p :: pre', c :: l' => Ascii.eqb p c && starts_with pre' l'
  | _ :: _, [] => false
  end.

Fixpoint includes_chars (pat l : list ascii) : bool :=
  starts_with pat l ||
  match l with
  | [] => false
  | _ :: l' => includes_chars pat l'
  end.

(** [s.includes(pat)], [s.startsWith(pre)], [s.endsWith(suf)]. *)
Definition includes (s pat : string) : bool := includes_chars (chars pat) (chars s).
Definition startsWith (s pre : string) : bool := starts_with (chars pre) (chars s).
Definition endsWith (s suf : string) : bool :=
  starts_with (rev (chars suf)) (rev (chars s)).

(** [s.split(sep)] for a one-character separator: never empty. *)
Fixpoint split_chars (sep : ascii) (cur : list ascii) (l : list ascii) : list string :=
  match l with
  | [] => [unchars (rev cur)]
  | c :: l' =>
      if Ascii.eqb c sep then unchars (rev cur) :: split_chars sep [] l'
      else split_chars sep (c :: cur) l'
  end.
Definition split (sep : ascii) (s : string) : list string := split_chars sep [] (chars s).

Definition is_space (c : ascii) : bool :=
  let n := nat_of_ascii c in
  (n =? 32)%nat || ((9 <=? n)%nat && (n <=? 13)%nat).

Fixpoint drop_spaces (l : list ascii) : list ascii :=
  match l with
  | c :: l' => if is_space c then drop_spaces l' else l
  | [] => []
  end.

(** [s.trim()] *)
Definition trim (s : string) : string :=
  unchars (rev (drop_spaces (rev (drop_spaces (chars s))))).

(** Decimal rendering of an index ([String(n)]) and [parseInt] of a digit run. *)
Definition string_of_nat (n : nat) : string := NilZero.string_of_uint (Nat.to_uint n).
Definition parseIntDigits (ds : list ascii) : nat :=
  match NilEmpty.uint_of_string (unchars ds) with
  | Some u => Nat.of_uint u
  | None => 0%nat
  end.

(** A property key that is a canonical array index ("0", "17", not "007"). *)
Definition array_index_of_key (key : string) : option nat :=
  match NilZero.uint_of_string key with
  | Some u =>
      let n := Nat.of_uint u in
      if String.eqb (string_of_nat n) key then Some n else None
  | None => None
  end.

Fixpoint lookup_prop (key : string) (props : list (string * jsval)) : option jsval :=
  match props with
  | [] => None
  | (k, v) :: rest => if String.eqb k key then Some v else lookup_prop key rest
  end.

Definition of_option (o : option jsval) : jsval :=
  match o with Some v => v | None => JUndefined end.

Definition char_at (s : string) (n : nat) : jsval :=
  match nth_error (chars s) n with
  | Some c => JStr (String c EmptyString)
  | None => JUndefined
  end.

Definition num_of_nat (n : nat) : jsval := JNum (inject_Z (Z.of_nat n)).

(** The string-named members of the built-in prototypes (ECMAScript 2024 with
    its Annex B; engines of other editions differ by a few names on arrays
    and strings). *)
Definition objectPrototypeNames : list string :=
  ["constructor"; "__defineGetter__"; "__defineSetter__"; "hasOwnProperty";
   "__lookupGetter__"; "__lookupSetter__"; "isPrototypeOf"; "propertyIsEnumerable";
   "toString"; "valueOf"; "__proto__"; "toLocaleString"].

Definition arrayPrototypeNames : list string :=
  ["at"; "concat"; "copyWithin"; "entries"; "every"; "fill"; "filter"; "find";
   "findIndex"; "findLast"; "findLastIndex"; "flat"; "flatMap"; "forEach";
   "includes"; "indexOf"; "join"; "keys"; "lastIndexOf"; "map"; "pop"; "push";
   "reduce"; "reduceRight"; "reverse"; "shift"; "slice"; "some"; "sort"; "splice";
   "toReversed"; "toSorted"; "toSpliced"; "unshift"; "values"; "with"].

Definition stringPrototypeNames : list string :=
  ["anchor"; "at"; "big"; "blink"; "bold"; "charAt"; "charCodeAt"; "codePointAt";
   "concat"; "endsWith"; "fixed"; "fontcolor"; "fontsize"; "includes"; "indexOf";
   "isWellFormed"; "italics"; "lastIndexOf"; "link"; "localeCompare"; "match";
   "matchAll"; "normalize"; "padEnd"; "padStart"; "repeat"; "replace"; "replaceAll";
   "search"; "slice"; "small"; "split"; "startsWith"; "strike"; "sub"; "substr";
   "substring"; "sup"; "toLocaleLowerCase"; "toLocaleUpperCase"; "toLowerCase";
   "toUpperCase"; "toWellFormed"; "trim"; "trimEnd"; "trimLeft"; "trimRight";
   "trimStart"].

Definition numberPrototypeNames : list string :=
  ["toExponential"; "toFixed"; "toPrecision"].

(** The names found on the prototype chain of a value of kind [k]; every
    chain ends in [Object.prototype]. *)
Definition inheritedNames (k : Kind) : list string :=
  match k with
  | KObject => objectPrototypeNames
  | KArray => arrayPrototypeNames ++ objectPrototypeNames
  | KString => stringPrototypeNames ++ objectPrototypeNames
  | KNumber => numberPrototypeNames ++ objectPrototypeNames
  | KBoolean => objectPrototypeNames
  end.

Definition isInherited (k : Kind) (key : string) : bool :=
  existsb (String.eqb key) (inheritedNames k).

(** The lookup of a key that is not an own property: the inherited member, or
    [undefined]. *)
Definition inherited (k : Kind) (key : string) : jsval :=
  if isInherited k key then JNative (Inherited k key) else JUndefined.

(** [v[key]] for a string key: an own property first, then the prototype
    chain; [None] is the TypeError raised on [null] and [undefined]. *)
Definition member (v : jsval) (key : string) : option jsval :=
  match v with
  | JUndefined | JNull => None
  | JObj props =>
      Some (match lookup_prop key props with
            | Some own => own
            | None => inherited KObject key
            end)
  | JArr items =>
      if String.eqb key "length" then Some (num_of_nat (List.length items))
      else match array_index_of_key key with
           | Some n => Some (of_option (nth_error items n))
           | None => Some (inherited KArray key)
           end
  | JStr s =>
      if String.eqb key "length" then Some (num_of_nat (String.length s))
      else match array_index_of_key key with
           | Some n => Some (char_at s n)
           | None => Some (inherited KString key)
           end
  | JNum _ => Some (inherited KNumber key)
  | JBool _ => Some (inherited KBoolean key)
  | JNative n => Some (JNative (MemberOf n key))
  end.

(** [v?.[key]]: optional chaining turns the TypeError into [undefined]. *)
Definition opt_member (v : jsval) (key : string) : jsval := of_option (member v key).

(** [v?.[n]] for a numeric index [n]. *)
Definition opt_index (v : jsval) (n : nat) : jsval := opt_member v (string_of_nat n).

(** The values whose nature the model determines: data and the members
    inherited by data.  The tests below answer for a value that is not
    determined as they do for an object. *)
Definition determined (v : jsval) : bool :=
  match v with JNative (MemberOf _ _) => false | _ => true end.

(** [v === undefined || v === null].  An inherited member is a function or an
    object. *)
Definition is_nullish (v : jsval) : bool :=
  match v with JUndefined | JNull => true | _ => false end.

Definition Qzero (q : Q) : bool := Z.eqb (Qnum q) 0.

(** Truthiness ([if (v)], [!v], [a || b]). *)
Definition truthy (v : jsval) : bool :=
  match v with
  | JUndefined | JNull => false
  | JBool b => b
  | JNum q => negb (Qzero q)
  | JStr s => negb (String.eqb s "")
  | JArr _ | JObj _ | JNative _ => true
  end.

(** The conversions of a value to a text or a number ([String(v)],
    [parseFloat(v)], [new Date(v)]) call the [toString] and [valueOf] methods
    of an object and raise a TypeError when neither gives a primitive.  A
    property of data is never a function and the inherited [valueOf] returns
    the object itself, so on data the conversion raises exactly for an object
    with an own property [toString], and for an array with such an element
    at any depth ([Array.prototype.toString] joins the converted elements,
    taking [null] and [undefined] as empty). *)
Fixpoint raisesToPrimitive (v : jsval) : bool :=
  match v with
  | JObj props => existsb (fun e => String.eqb (fst e) "toString") props
  | JArr items => existsb raisesToPrimitive items
  | _ => false
  end.

(** [a || b] on values. *)
Definition js_or (a b : jsval) : jsval := if truthy a then a else b.

End JS.

(* ===================================================================== *)
(** * Field mapper of the custom adapter *)
(* ===================================================================== *)

Module FieldMapper.
Import JS.

Definition is_line_terminator (c : ascii) : bool :=
  let n := nat_of_ascii c in (n =? 10)%nat || (n =? 13)%nat.

Fixpoint span_digits (l : list ascii) : list ascii * list ascii :=
  match l with
  | c :: l' =>
      if is_digit c then let '(ds, rest) := span_digits l' in (c :: ds, rest)
      else ([], l)
  | [] => ([], [])
  end.

(** [key.match(/^(.+)\[(\d+)\]$/)]: the key must end in "[digits]" and have a
    non-empty head free of line terminators.  The digits exclude "[" so the
    decomposition is unique; the scan runs from the end of the key. *)
Definition arrayMatch (key : string) : option (string * nat) :=
  match rev (chars key) with
  | c :: rest =>
      if Ascii.eqb c "]" then
        let '(ds_rev, rest') := span_digits rest in
        match ds_rev, rest' with
        | _ :: _, b :: head_rev =>
            if Ascii.eqb b "[" then
              match head_rev with
              | [] => None
              | _ :: _ =>
                  if forallb (fun x => negb (is_line_terminator x)) head_rev
                  then Some (unchars (rev head_rev), parseIntDigits (rev ds_rev))
                  else None
              end
            else None
        | _, _ => None
        end
      else None
  | [] => None
  end.

(** The reducer of [extractValue]; [None] is a raised TypeError. *)
Definition step (current : jsval) (key : string) : option jsval :=
  match arrayMatch key with
  | Some (arrayKey, index) =>
      match member current arrayKey with
      | Some arr => Some (opt_index arr index)
      | None => None
      end
  | None => Some (opt_member current key)
  end.

Fixpoint reduce (keys : list string) (current : jsval) : option jsval :=
  match keys with
  | [] => Some current
  | key :: rest =>
      match step current key with
      | Some next => reduce rest next
      | None => None
      end
  end.

(** [extractValue(obj, path)]: the [try]/[catch] turns a raised error into
    [undefined]. *)
Definition extractValue (obj : jsval) (path : string) : jsval :=
  match reduce (split "." path) obj with
  | Some v => v
  | None => JUndefined
  end.

Inductive Transform : Type :=
| TNone | TUppercase | TLowercase | TParseFloat | TParseDate | TMultiply100 | TDivide100.

Inductive DataType : Type := DString | DNumber | DDate | DBoolean | DArray | DObject.

Record ApiFieldMapping : Type := {
  sourceField : string;
  targetField : string;
  dataType : DataType;
  transform : Transform;
  defaultValue : option jsval;
  required : bool
}.

Record ValidationError : Type := {
  field : string;
  message : string;
  severity : string;
  code : string
}.

Definition missingRequiredField (src : string) : ValidationError :=
  {| field := src;
     message := "Required field '" ++ src ++ "' is missing";
     severity := "error";
     code := "MISSING_REQUIRED_FIELD" |}.

(** One iteration of the loop of [validateResponse].  [extractValue] never
    raises, so the [catch] arm of the loop body is not reachable. *)
Definition validateOne (response : jsval) (errors : list ValidationError)
    (mapping : ApiFieldMapping) : list ValidationError :=
  let value := extractValue response (sourceField mapping) in
  if is_nullish value then errors ++ [missingRequiredField (sourceField mapping)]
  else errors.

Definition validateResponse (response : jsval) (mappings : list ApiFieldMapping)
    : list ValidationError :=
  fold_left (validateOne response) (List.filter (fun m => required m) mappings) [].

End FieldMapper.

(* ===================================================================== *)
(** * Structure detector *)
(* ===================================================================== *)

Module Detector.
Import JS FieldMapper.

Local Open Scope Q_scope.

Definition Qltb (a b : Q) : bool := negb (Qle_bool b a).

(** [Number.isInteger(value)]. *)
Definition isInteger (q : Q) : bool := Z.eqb (Z.rem (Qnum q) (Zpos (Qden q))) 0.

(** [value.toString().includes('.')]: the decimal rendering of a number has a
    point exactly when the number is not an integer (exponent notation, used
    below 1e-6 and from 1e21 on, is outside the model). *)
Definition toStringHasPoint (q : Q) : bool := negb (isInteger q).

(** [FIELD_PATTERNS], in property order. *)
Definition FIELD_PATTERNS : list (string * list string) :=
  [ ("symbol", ["symbol"; "ticker"; "code"; "stock_code"; "instrument"]);
    ("price", ["price"; "last"; "last_price"; "current_price"; "close"; "ltp"; "lastPrice"]);
    ("change", ["change"; "net_change"; "price_change"; "daily_change"]);
    ("changePercent", ["change_percent"; "percent_change"; "pct_change"; "change_pct"; "percentage"]);
    ("volume", ["volume"; "vol"; "total_volume"; "traded_volume"]);
    ("high", ["high"; "day_high"; "daily_high"; "h"]);
    ("low", ["low"; "day_low"; "daily_low"; "l"]);
    ("open", ["open"; "open_price"; "opening_price"; "o"]);
    ("previousClose", ["prev_close"; "previous_close"; "yesterday_close"; "pc"]);
    ("name", ["name"; "company_name"; "full_name"; "companyName"]);
    ("description", ["description"; "about"; "business_description"; "summary"]);
    ("sector", ["sector"; "industry_sector"; "gics_sector"]);
    ("industry", ["industry"; "sub_industry"; "gics_industry"]);
    ("marketCap", ["market_cap"; "market_capitalization"; "mcap"; "marketCapitalization"]);
    ("employees", ["employees"; "employee_count"; "total_employees"; "workforce"]);
    ("website", ["website"; "web_url"; "homepage"; "url"]);
    ("title", ["title"; "headline"; "subject"; "header"]);
    ("summary", ["summary"; "description"; "excerpt"; "snippet"]);
    ("publishedAt", ["published_at"; "date"; "timestamp"; "created_at"; "pub_date"]);
    ("source", ["source"; "publisher"; "author"; "provider"]);
    ("url", ["url"; "link"; "href"; "article_url"]);
    ("timestamp", ["timestamp"; "date"; "time"; "datetime"; "t"]);
    ("close", ["close"; "closing_price"; "c"]) ].

Definition patterns_of (target : string) : list string :=
  match List.find (fun e => String.eqb (fst e) target) FIELD_PATTERNS with
  | Some e => snd e
  | None => []
  end.

(** [VALUE_PATTERNS.symbol]: /^[A-Z]{1,8}$/ *)
Definition symbolPattern (s : string) : bool :=
  let cs := chars s in
  forallb is_upper cs && (1 <=? List.length cs)%nat && (List.length cs <=? 8)%nat.

(** [VALUE_PATTERNS.url]: /^https?:\/\// *)
Definition urlPattern (s : string) : bool :=
  startsWith s "http://" || startsWith s "https://".

(** [n] digits, then the rest of the text. *)
Fixpoint take_digits (n : nat) (l : list ascii) : option (list ascii) :=
  match n with
  | O => Some l
  | S n' => match l with
            | c :: l' => if is_digit c then take_digits n' l' else None
            | [] => None
            end
  end.

(** A date prefix dddd<sep>dd<sep>dd. *)
Definition ymd_prefix (sep : ascii) (l : list ascii) : bool :=
  match take_digits 4 l with
  | Some (c1 :: l1) =>
      Ascii.eqb c1 sep &&
      match take_digits 2 l1 with
      | Some (c2 :: l2) =>
          Ascii.eqb c2 sep &&
          match take_digits 2 l2 with Some _ => true | None => false end
      | _ => false
      end
  | _ => false
  end.

(** [VALUE_PATTERNS.date]:
    /^\d{4}-\d{2}-\d{2}|^\d{10,13}$|^\d{4}\/\d{2}\/\d{2}/ *)
Definition datePattern (s : string) : bool :=
  let cs := chars s in
  ymd_prefix "-" cs
  || (forallb is_digit cs && (10 <=? List.length cs)%nat && (List.length cs <=? 13)%nat)
  || ymd_prefix "/" cs.

(** [!isNaN(parseFloat(s))]: after leading blanks and an optional sign the
    text starts a decimal literal or reads Infinity. *)
Definition parseFloatIsNumber (s : string) : bool :=
  let l := drop_spaces (chars s) in
  let body := match l with
              | c :: l' => if Ascii.eqb c "+" || Ascii.eqb c "-" then l' else l
              | [] => []
              end in
  match body with
  | c :: rest =>
      is_digit c
      || (Ascii.eqb c "." && match rest with d :: _ => is_digit d | [] => false end)
      || starts_with (chars "Infinity") body
  | [] => false
  end.

Inductive Reason : Type :=
| NameMatches (fieldName pattern : string)
| ValueIsSymbol (value : string)
| ValueIsUrl (value : string)
| NumberCouldBePrice (value : Q)
| IntegerCouldBeVolume (value : Q).

Record Candidate : Type := {
  c_targetField : string;
  confidence : Q;
  reason : Reason
}.

Record DetectedField : Type := {
  path : string;
  value : jsval;
  type : DataType;
  possibleMappings : list Candidate
}.

Inductive ExpectedType : Type := Quote | Historical | Profile | News | Search.
Inductive Confidence : Type := High | Medium | Low.

Record DetectedApiStructure : Type := {
  endpoint : string;
  sampleResponse : jsval;
  detectedFields : list DetectedField;
  suggestedMappings : list ApiFieldMapping;
  overall : Confidence
}.

(** [arr.sort((a, b) => b.confidence - a.confidence)]: a stable sort, highest
    confidence first. *)
Section Sort.
Context {A : Type} (conf : A -> Q).

Fixpoint insert_desc (x : A) (l : list A) : list A :=
  match l with
  | [] => [x]
  | y :: l' => if Qltb (conf x) (conf y) then y :: insert_desc x l' else x :: l
  end.

Definition sort_desc (l : list A) : list A := fold_right insert_desc [] l.
End Sort.

(** The candidates found from the field name, in [FIELD_PATTERNS] order. *)
Definition nameCandidates (fieldName : string) : list Candidate :=
  let lowerFieldName := toLowerCase fieldName in
  flat_map (fun entry =>
    let '(targetField, patterns) := entry in
    flat_map (fun pattern =>
      if includes lowerFieldName (toLowerCase pattern) then
        [ {| c_targetField := targetField;
             confidence := if String.eqb lowerFieldName (toLowerCase pattern)
                           then 9 # 10 else 7 # 10;
             reason := NameMatches fieldName pattern |} ]
      else []) patterns) FIELD_PATTERNS.

(** The candidates found from the shape of the value. *)
Definition valueCandidates (v : jsval) : list Candidate :=
  match v with
  | JStr s =>
      (if symbolPattern s
       then [ {| c_targetField := "symbol"; confidence := 8 # 10; reason := ValueIsSymbol s |} ]
       else [])
      ++ (if urlPattern s
          then [ {| c_targetField := "url"; confidence := 9 # 10; reason := ValueIsUrl s |} ]
          else [])
  | JNum q =>
      (if Qltb 0 q && Qltb q 10000 && toStringHasPoint q
       then [ {| c_targetField := "price"; confidence := 6 # 10; reason := NumberCouldBePrice q |} ]
       else [])
      ++ (if Qltb 1000 q && isInteger q
          then [ {| c_targetField := "volume"; confidence := 5 # 10; reason := IntegerCouldBeVolume q |} ]
          else [])
  | _ => []
  end.

Definition findPossibleMappings (fieldName : string) (v : jsval) : list Candidate :=
  firstn 3 (sort_desc confidence (nameCandidates fieldName ++ valueCandidates v)).

Section WithDateParse.

(** [dateParse s] holds when [Date.parse(s)] is a number; outside the ISO
    format the accepted texts depend on the JavaScript engine. *)
Variable dateParse : string -> bool.

Definition getValueType (v : jsval) : DataType :=
  match v with
  | JArr _ => DArray
  | JNull => DObject
  | JBool _ => DBoolean
  | JNum _ => DNumber
  | JStr s => if datePattern s || dateParse s then DDate else DString
  | JObj _ => DObject
  | JUndefined | JNative _ => DString   (* the last line; a sample is data *)
  end.

(** [typeof v === 'object'] *)
Definition typeof_object (v : jsval) : bool :=
  match v with JNull | JArr _ | JObj _ => true | _ => false end.

Definition mkField (p key : string) (v : jsval) : DetectedField :=
  {| path := p; value := v; type := getValueType v;
     possibleMappings := findPossibleMappings key v |}.

(** The inner [traverse] of [extractFields]: objects are walked entry by
    entry, arrays through their first three elements. *)
Fixpoint traverse (current : jsval) (currentPath : string) : list DetectedField :=
  match current with
  | JArr items =>
      (fix elems (l : list jsval) (index budget : nat) : list DetectedField :=
         match budget, l with
         | S budget', item :: rest =>
             let p := (currentPath ++ "[" ++ string_of_nat index ++ "]")%string in
             (match item with
              | JNull => []
              | JArr _ | JObj _ => traverse item p
              | _ => [mkField p currentPath item]
              end) ++ elems rest (S index) budget'
         | _, _ => []
         end) items 0%nat 3%nat
  | JObj props =>
      (fix entries (l : list (string * jsval)) : list DetectedField :=
         match l with
         | (key, v) :: rest =>
             let newPath := if String.eqb currentPath "" then key
                            else (currentPath ++ "." ++ key)%string in
             (match v with
              | JArr _ | JObj _ => traverse v newPath
              | _ => [mkField newPath key v]
              end) ++ entries rest
         | [] => []
         end) props
  | _ => []
  end.

Definition extractFields (obj : jsval) : list DetectedField := traverse obj "".

End WithDateParse.

Definition getRequiredFields (t : ExpectedType) : list string :=
  match t with
  | Quote => ["symbol"; "price"; "timestamp"]
  | Historical => ["timestamp"; "open"; "high"; "low"; "close"; "volume"]
  | Profile => ["symbol"; "name"]
  | News => ["title"; "publishedAt"; "source"]
  | Search => ["symbol"]
  end.

Definition mem_string (x : string) (l : list string) : bool :=
  existsb (String.eqb x) l.

Definition isFieldRequired (f : string) (t : ExpectedType) : bool :=
  mem_string f (getRequiredFields t).

Definition Qabs_lt_1 (q : Q) : bool := Qltb (Qabs q) 1.

Definition suggestTransform (v : jsval) (ty : DataType) : Transform :=
  match ty, v with
  | DString, JStr s =>
      if String.eqb s (toLowerCase s) &&
         existsb (fun pattern => includes (toLowerCase pattern) (toLowerCase s))
                 (patterns_of "symbol")
      then TUppercase else TNone
  | DNumber, JStr s => if parseFloatIsNumber s then TParseFloat else TNone
  | DDate, JStr _ => TParseDate
  | _, JNum q => if Qabs_lt_1 q && negb (Qzero q) then TMultiply100 else TNone
  | _, _ => TNone
  end.

(** A candidate together with the field it was found on. *)
Record Match : Type := { m_candidate : Candidate; m_field : DetectedField }.

(** The [bestMatch] expression of [generateMappings]. *)
Definition bestMatch (fields : list DetectedField) (usedFields : list string)
    (targetField : string) : option Match :=
  hd_error
    (sort_desc (fun m => confidence (m_candidate m))
       (flat_map (fun f =>
          List.map (fun c => {| m_candidate := c; m_field := f |})
            (List.filter (fun c => String.eqb (c_targetField c) targetField)
                         (possibleMappings f)))
          (List.filter (fun f => negb (mem_string (path f) usedFields)) fields))).

Definition mappingOf (t : ExpectedType) (targetField : string) (m : Match) : ApiFieldMapping :=
  let f := m_field m in
  {| sourceField := path f;
     FieldMapper.targetField := targetField;
     dataType := match type f with DObject => DString | ty => ty end;
     transform := suggestTransform (value f) (type f);
     defaultValue := None;
     required := isFieldRequired targetField t |}.

(** One round of the [requiredFields.forEach] loop; the state is the list of
    mappings produced so far and the set of used paths. *)
Definition generateStep (fields : list DetectedField) (t : ExpectedType)
    (st : list ApiFieldMapping * list string) (targetField : string)
    : list ApiFieldMapping * list string :=
  let '(mappings, usedFields) := st in
  match bestMatch fields usedFields targetField with
  | Some m =>
      if Qltb (5 # 10) (confidence (m_candidate m))
      then (mappings ++ [mappingOf t targetField m],
            if mem_string (path (m_field m)) usedFields then usedFields
            else usedFields ++ [path (m_field m)])
      else st
  | None => st
  end.

Definition generateMappings (fields : list DetectedField) (t : ExpectedType)
    : list ApiFieldMapping :=
  fst (fold_left (generateStep fields t) (getRequiredFields t) ([], [])).

Definition weight (m : ApiFieldMapping) : Q := if required m then 1 else 5 # 10.

Definition calculateConfidence (mappings : list ApiFieldMapping) : Confidence :=
  match mappings with
  | [] => Low
  | _ =>
      let averageConfidence :=
        fold_left (fun sum m => sum + weight m) mappings 0
        / inject_Z (Z.of_nat (List.length mappings)) in
      if Qltb (8 # 10) averageConfidence then High
      else if Qltb (5 # 10) averageConfidence then Medium
      else Low
  end.

Definition detectStructure (dateParse : string -> bool) (endpoint : string)
    (sampleResponse : jsval) (expectedType : ExpectedType) : DetectedApiStructure :=
  let detectedFields := extractFields dateParse sampleResponse in
  let suggestedMappings := generateMappings detectedFields expectedType in
  {| endpoint := endpoint;
     sampleResponse := sampleResponse;
     detectedFields := detectedFields;
     suggestedMappings := suggestedMappings;
     overall := calculateConfidence suggestedMappings |}.

End Detector.

(* ===================================================================== *)
(** * Built-in adapters *)
(* ===================================================================== *)

Module Adapters.
Import JS.

(** ** Results and errors *)

(** The text of an error: a text chosen by the adapter, or the message of an
    error raised by the runtime (network failure, body that is not JSON,
    TypeError), whose wording depends on the engine. *)
Inductive ErrorText : Type :=
| Text (s : string)
| RuntimeMessage.

(** [ApiResponse<T>] (the optional rate-limit block is left out). *)
Record ApiResponse (T : Type) : Type := {
  success : bool;
  data : option T;
  error : option ErrorText
}.
Arguments success {T}.
Arguments data {T}.
Arguments error {T}.

Definition ok_response {T : Type} (d : T) : ApiResponse T :=
  {| success := true; data := Some d; error := None |}.
Definition failed {T : Type} (e : ErrorText) : ApiResponse T :=
  {| success := false; data := None; error := Some e |}.

Record ApiError : Type := {
  err_message : jsval;
  err_code : string;
  err_statusCode : option nat
}.

(** What an adapter operation does in the end: resolve with a response or
    reject with a typed [ApiError]. *)
Inductive Outcome (T : Type) : Type :=
| Resolved (r : ApiResponse T)
| Rejected (e : ApiError).
Arguments Resolved {T}.
Arguments Rejected {T}.

(** What happens inside a [try] block: a value, a thrown [ApiError], or any
    other raised error. *)
Inductive Try (T : Type) : Type :=
| Value (v : T)
| ThrowApi (e : ApiError)
| ThrowOther.
Arguments Value {T}.
Arguments ThrowApi {T}.
Arguments ThrowOther {T}.

Definition bindTry {A B : Type} (t : Try A) (k : A -> Try B) : Try B :=
  match t with
  | Value v => k v
  | ThrowApi e => ThrowApi e
  | ThrowOther => ThrowOther
  end.

#[global] Instance Try_bind : MBind Try := fun A B k t => bindTry t k.

(** [catch (error) { if (error instanceof ApiError) throw error;
                     return { success: false, error: ... } }] *)
Definition catchAll {T : Type} (t : Try T) : Outcome T :=
  match t with
  | Value v => Resolved (ok_response v)
  | ThrowApi e => Rejected e
  | ThrowOther => Resolved (failed RuntimeMessage)
  end.

(** [obj[key]] inside a [try]: raises on [null] and [undefined]. *)
Definition get (obj : jsval) (key : string) : Try jsval :=
  match member obj key with
  | Some v => Value v
  | None => ThrowOther
  end.

Definition throwIf {T : Type} (cond : bool) (e : ApiError) (k : Try T) : Try T :=
  if cond then ThrowApi e else k.

Definition apiError (msg : jsval) (code : string) : ApiError :=
  {| err_message := msg; err_code := code; err_statusCode := None |}.
Definition httpError (status : nat) : ApiError :=
  {| err_message := JStr ("HTTP " ++ string_of_nat status);
     err_code := "HTTP_ERROR"; err_statusCode := Some status |}.

(** ** The network *)

Inductive QueryValue : Type :=
| QStr (s : string)
| QNum (z : Z)
| QDay (instant : Z)    (* [formatDate]: the calendar day of an instant *)
| QText (v : jsval).    (* [String(v)] for a value that is not a string *)

(** [String(value)] in [buildUrl]: a string is its own text; the text of
    another value (for a built-in function its source, worded by the engine)
    is not evaluated. *)
Definition queryOf (v : jsval) : QueryValue :=
  match v with JStr s => QStr s | _ => QText v end.

(** [v === s] for a string literal [s]. *)
Definition is_text (v : jsval) (s : string) : bool :=
  match v with JStr x => String.eqb x s | _ => false end.

(** The outcome of [buildUrl]: the endpoint and the query parameters set. *)
Record Url : Type := { endpoint : string; query : list (string * QueryValue) }.

Record Response : Type := {
  status : nat;
  json : option jsval      (* [None]: the body is not JSON *)
}.

(** [response.ok] *)
Definition ok (r : Response) : bool := (200 <=? status r)%nat && (status r <? 300)%nat.

Inductive FetchResult : Type :=
| NetworkFailure
| Responded (r : Response).

(** An operation that may issue network calls before it finishes. *)
Inductive Eff (T : Type) : Type :=
| Ret (v : T)
| Fetch (url : Url) (headers : list (string * string)) (k : FetchResult -> Eff T).
Arguments Ret {T}.
Arguments Fetch {T}.

(** Run an operation against a network; the calls issued are logged in order. *)
Fixpoint run {T : Type} (network : Url -> FetchResult) (p : Eff T) : T * list Url :=
  match p with
  | Ret v => (v, [])
  | Fetch url _ k =>
      let '(v, calls) := run network (k (network url)) in (v, url :: calls)
  end.

(** [await fetch(..)] followed by [await response.json()] inside a [try]. *)
Definition bodyOf (r : FetchResult) : Try (Response * jsval) :=
  match r with
  | NetworkFailure => ThrowOther
  | Responded resp =>
      match json resp with
      | Some d => Value (resp, d)
      | None => ThrowOther
      end
  end.

Definition responseOf (r : FetchResult) : Try Response :=
  match r with
  | NetworkFailure => ThrowOther
  | Responded resp => Value resp
  end.

Definition jsonOf (resp : Response) : Try jsval :=
  match json resp with
  | Some d => Value d
  | None => ThrowOther
  end.

(** ** Canonical entities and requests *)

(** The canonical quote, restricted to its textual fields; the numeric fields
    and the timestamp (floating point, clock readings) are not modelled.
    [symbol] is the runtime value stored in the field. *)
Record StockQuote : Type := {
  symbol : jsval;
  currency : string;
  exchange : option string
}.

Record ApiCredentials : Type := { apiKey : string }.

Record QuoteRequest : Type := { q_symbol : string }.

Record HistoricalDataRequest : Type := {
  h_symbol : string;
  interval : string;
  from : option Z;
  to : option Z;
  limit : option Z
}.

(** [BaseApiAdapter.validateSymbol] *)
Definition validateSymbol (s : string) : string := trim (toUpperCase s).

Definition is_string (v : jsval) : bool :=
  match v with JStr _ => true | _ => false end.

(** [v === 0] *)
Definition is_zero (v : jsval) : bool :=
  match v with JNum q => Qzero q | _ => false end.

(** ** Alpha Vantage *)

Module AlphaVantage.

Definition baseUrl : string := "https://www.alphavantage.co".

Definition getAuthHeaders (_ : ApiCredentials) : list (string * string) := [].

(** The body of the [try] block of [getQuote], after the response arrived. *)
Definition quoteOf (r : FetchResult) : Try StockQuote :=
  '(_, d) ← bodyOf r;
  errorMessage ← get d "Error Message";
  throwIf (truthy errorMessage) (apiError errorMessage "INVALID_SYMBOL") (
  note ← get d "Note";
  throwIf (truthy note)
    (apiError (JStr "API call frequency limit reached") "RATE_LIMIT_EXCEEDED") (
  quote ← get d "Global Quote";
  throwIf (negb (truthy quote))
    (apiError (JStr "No data available for symbol") "NO_DATA") (
  sym ← get quote "01. symbol";
  changePercent ← get quote "10. change percent";
  (* [.replace('%', '')] exists on strings only *)
  if is_string changePercent
  then Value {| symbol := sym; currency := "USD"; exchange := None |}
  else ThrowOther))).

Definition getQuote (request : QuoteRequest) (credentials : ApiCredentials)
    : Eff (Outcome StockQuote) :=
  let url := {| endpoint := baseUrl ++ "/query";
                query := [("function", QStr "GLOBAL_QUOTE");
                          ("symbol", QStr (validateSymbol (q_symbol request)));
                          ("apikey", QStr (apiKey credentials))] |} in
  Fetch url [] (fun r => Ret (catchAll (quoteOf r))).

(** The interval table of [getHistoricalData]: an object literal, read with
    [functionMap[request.interval]]. *)
Definition functionMap : jsval :=
  JObj [("1min", JStr "TIME_SERIES_INTRADAY"); ("5min", JStr "TIME_SERIES_INTRADAY");
        ("15min", JStr "TIME_SERIES_INTRADAY"); ("30min", JStr "TIME_SERIES_INTRADAY");
        ("1hour", JStr "TIME_SERIES_INTRADAY"); ("1day", JStr "TIME_SERIES_DAILY");
        ("1week", JStr "TIME_SERIES_WEEKLY"); ("1month", JStr "TIME_SERIES_MONTHLY")].

Section Historical.
(** The points of a series, and the decoding of the provider's answer
    (parsing, sorting, filtering by from/to/limit), which runs after the
    network call. *)
Context {Points : Type}.
Variable decode : HistoricalDataRequest -> FetchResult -> Outcome Points.

Definition getHistoricalData (request : HistoricalDataRequest)
    (credentials : ApiCredentials) : Eff (Outcome Points) :=
  let func := opt_member functionMap (interval request) in
  if negb (truthy func) then
    Ret (Resolved (failed (Text ("Unsupported interval: " ++ interval request))))
  else
    let params :=
      [("function", queryOf func);
       ("symbol", QStr (validateSymbol (h_symbol request)));
       ("apikey", QStr (apiKey credentials))]
      ++ (if is_text func "TIME_SERIES_INTRADAY"
          then [("interval", QStr (interval request))] else []) in
    Fetch {| endpoint := baseUrl ++ "/query"; query := params |} []
          (fun r => Ret (decode request r)).
End Historical.

End AlphaVantage.

(** ** Finnhub *)

Module Finnhub.

Definition baseUrl : string := "https://finnhub.io/api/v1".

Definition getAuthHeaders (credentials : ApiCredentials) : list (string * string) :=
  [("X-Finnhub-Token", apiKey credentials)].

Definition quoteOf (request : QuoteRequest) (r : FetchResult) : Try StockQuote :=
  resp ← responseOf r;
  throwIf (negb (ok resp)) (httpError (status resp)) (
  d ← jsonOf resp;
  err ← get d "error";
  throwIf (truthy err) (apiError err "API_ERROR") (
  c ← get d "c";
  h ← get d "h";
  l ← get d "l";
  throwIf (is_zero c && is_zero h && is_zero l)
    (apiError (JStr "No data available for symbol") "NO_DATA") (
  Value {| symbol := JStr (toUpperCase (q_symbol request));
           currency := "USD"; exchange := None |}))).

Definition getQuote (request : QuoteRequest) (credentials : ApiCredentials)
    : Eff (Outcome StockQuote) :=
  let url := {| endpoint := baseUrl ++ "/quote";
                query := [("symbol", QStr (validateSymbol (q_symbol request)))] |} in
  Fetch url (getAuthHeaders credentials) (fun r => Ret (catchAll (quoteOf request r))).

(** The resolution table of [getHistoricalData]: an object literal, read
    with [resolutionMap[request.interval]]. *)
Definition resolutionMap : jsval :=
  JObj [("1min", JStr "1"); ("5min", JStr "5"); ("15min", JStr "15");
        ("30min", JStr "30"); ("1hour", JStr "60"); ("1day", JStr "D");
        ("1week", JStr "W"); ("1month", JStr "M")].

Section Historical.
Context {Points : Type}.
Variable decode : HistoricalDataRequest -> FetchResult -> Outcome Points.
(** The clock reading of [new Date()], in milliseconds. *)
Variable now : Z.

Definition getHistoricalData (request : HistoricalDataRequest)
    (credentials : ApiCredentials) : Eff (Outcome Points) :=
  let resolution := opt_member resolutionMap (interval request) in
  if negb (truthy resolution) then
    Ret (Resolved (failed (Text ("Unsupported interval: " ++ interval request))))
  else
    let to_ := match to request with Some t => t | None => now end in
    let from_ := match from request with
                 | Some f => f
                 | None => (to_ - 30 * 24 * 60 * 60 * 1000)%Z
                 end in
    Fetch {| endpoint := baseUrl ++ "/stock/candle";
             query := [("symbol", QStr (validateSymbol (h_symbol request)));
                       ("resolution", queryOf resolution);
                       ("from", QNum (from_ / 1000)%Z);
                       ("to", QNum (to_ / 1000)%Z)] |}
          (getAuthHeaders credentials)
          (fun r => Ret (decode request r)).
End Historical.

End Finnhub.

(** ** Indian API *)

Module IndianApi.

Definition baseUrl : string := "https://indianapi.in".

Definition getAuthHeaders (credentials : ApiCredentials) : list (string * string) :=
  [("Authorization", ("Bearer " ++ apiKey credentials)%string);
   ("Content-Type", "application/json")].

(** [data.currentPrice?.NSE] and [data.currentPrice?.BSE] *)
Definition priceOn (currentPrice : jsval) (exch : string) : jsval :=
  opt_member currentPrice exch.

Definition quoteOf (request : QuoteRequest) (r : FetchResult) : Try StockQuote :=
  resp ← responseOf r;
  throwIf (negb (ok resp))
    (if (status resp =? 404)%nat then apiError (JStr "Stock not found") "INVALID_SYMBOL"
     else httpError (status resp)) (
  d ← jsonOf resp;
  tickerId ← get d "tickerId";
  throwIf (negb (truthy tickerId))
    (apiError (JStr "No data available for symbol") "NO_DATA") (
  cp ← get d "currentPrice";
  let currentPrice := js_or (priceOn cp "NSE") (priceOn cp "BSE") in
  throwIf (negb (truthy currentPrice))
    (apiError (JStr "No price data available") "NO_DATA") (
  Value {| symbol := js_or tickerId (JStr (toUpperCase (q_symbol request)));
           currency := "INR";
           exchange := Some (if truthy (priceOn cp "NSE") then "NSE" else "BSE") |}))).

Definition getQuote (request : QuoteRequest) (credentials : ApiCredentials)
    : Eff (Outcome StockQuote) :=
  let url := {| endpoint := baseUrl ++ "/stock";
                query := [("name", QStr (validateSymbol (q_symbol request)))] |} in
  Fetch url (getAuthHeaders credentials) (fun r => Ret (catchAll (quoteOf request r))).

(** The interval table of [getHistoricalData]: an object literal, read with
    [intervalMap[request.interval]]. *)
Definition intervalMap : jsval :=
  JObj [("1min", JStr "1m"); ("5min", JStr "5m"); ("15min", JStr "15m");
        ("30min", JStr "30m"); ("1hour", JStr "1h"); ("1day", JStr "1d");
        ("1week", JStr "1w"); ("1month", JStr "1M")].

Definition nonzero (o : option Z) : option Z :=
  match o with Some z => if Z.eqb z 0 then None else Some z | None => None end.

Section Historical.
Context {Points : Type}.
Variable decode : HistoricalDataRequest -> FetchResult -> Outcome Points.

Definition getHistoricalData (request : HistoricalDataRequest)
    (credentials : ApiCredentials) : Eff (Outcome Points) :=
  let interval_ := opt_member intervalMap (interval request) in
  if negb (truthy interval_) then
    Ret (Resolved (failed (Text ("Unsupported interval: " ++ interval request))))
  else
    let params :=
      [("symbol", QStr (validateSymbol (h_symbol request)));
       ("interval", queryOf interval_)]
      ++ match from request with Some f => [("from", QDay f)] | None => [] end
      ++ match to request with Some t => [("to", QDay t)] | None => [] end
      ++ match nonzero (limit request) with Some n => [("limit", QNum n)] | None => [] end in
    Fetch {| endpoint := baseUrl ++ "/historical"; query := params |}
          (getAuthHeaders credentials)
          (fun r => Ret (decode request r)).
End Historical.

End IndianApi.

End Adapters.

(* ===================================================================== *)
(** * Provider catalog and adapter factory *)
(* ===================================================================== *)

Module Registry.
Import JS.

(** A constructor registered in the catalog. *)
Inductive Factory : Type :=
| NewAlphaVantageAdapter
| NewFinnhubAdapter
| NewIndianApiAdapter
| NewOther (name : string).

(** An adapter instance is an object with an identity: its address in
    [heap], which records the constructor that built it. *)
Definition Instance : Type := nat.

(** A JavaScript [Map] with string keys, in insertion order. *)
Section OrderedMap.
Context {V : Type}.

Fixpoint map_get (key : string) (m : list (string * V)) : option V :=
  match m with
  | [] => None
  | (k, v) :: rest => if String.eqb k key then Some v else map_get key rest
  end.

Definition map_has (key : string) (m : list (string * V)) : bool :=
  match map_get key m with Some _ => true | None => false end.

Fixpoint map_set (key : string) (v : V) (m : list (string * V)) : list (string * V) :=
  match m with
  | [] => [(key, v)]
  | (k, v') :: rest =>
      if String.eqb k key then (k, v) :: rest else (k, v') :: map_set key v rest
  end.

(** [for (const [key] of m) { if (p(key)) { m.delete(key); break; } }] *)
Fixpoint delete_first (p : string -> bool) (m : list (string * V)) : list (string * V) :=
  match m with
  | [] => []
  | (k, v) :: rest => if p k then rest else (k, v) :: delete_first p rest
  end.
End OrderedMap.

Record World : Type := {
  adapters : gmap string Factory;      (* ApiAdapterRegistry.adapters *)
  providers : gmap string Instance;    (* the instance whose descriptor is kept *)
  instances : list (string * Instance); (* ApiAdapterFactory.instances *)
  heap : list Factory                  (* every adapter object built so far *)
}.

(** [factory()] *)
Definition construct (f : Factory) (w : World) : Instance * World :=
  (List.length (heap w),
   {| adapters := adapters w; providers := providers w;
      instances := instances w; heap := heap w ++ [f] |}).

(** [ApiAdapterRegistry.register] *)
Definition register (id : string) (f : Factory) (w : World) : World :=
  let w1 := {| adapters := <[id := f]> (adapters w); providers := providers w;
               instances := instances w; heap := heap w |} in
  let '(adapter, w2) := construct f w1 in
  {| adapters := adapters w2; providers := <[id := adapter]> (providers w2);
     instances := instances w2; heap := heap w2 |}.

(** The state after the static initialisation block. *)
Definition initial : World :=
  register "indian-api" NewIndianApiAdapter
    (register "finnhub" NewFinnhubAdapter
       (register "alpha-vantage" NewAlphaVantageAdapter
          {| adapters := ∅; providers := ∅; instances := []; heap := [] |})).

(** [ApiAdapterRegistry.createAdapter] *)
Definition createAdapter (providerId : string) (w : World) : option Instance * World :=
  match adapters w !! providerId with
  | Some f => let '(a, w') := construct f w in (Some a, w')
  | None => (None, w)
  end.

Record UserApiConfig : Type := { id : string; providerId : string }.

Definition cacheKey (config : UserApiConfig) : string :=
  (providerId config ++ "-" ++ id config)%string.

(** [ApiAdapterFactory.getAdapter] *)
Definition getAdapter (config : UserApiConfig) (w : World) : option Instance * World :=
  if map_has (cacheKey config) (instances w)
  then (map_get (cacheKey config) (instances w), w)
  else
    match createAdapter (providerId config) w with
    | (Some adapter, w') =>
        (Some adapter,
         {| adapters := adapters w'; providers := providers w';
            instances := map_set (cacheKey config) adapter (instances w');
            heap := heap w' |})
    | (None, w') => (None, w')
    end.

(** [ApiAdapterFactory.clearCache]; [None] is a call without argument. *)
Definition clearCache (configId : option string) (w : World) : World :=
  let cleared (m : list (string * Instance)) :=
    {| adapters := adapters w; providers := providers w; instances := m; heap := heap w |} in
  match configId with
  | Some cid =>
      if negb (String.eqb cid "")
      then cleared (delete_first (fun key => endsWith key ("-" ++ cid)) (instances w))
      else cleared []
  | None => cleared []
  end.

End Registry.

(* ===================================================================== *)
(** * Realtime connection manager *)
(* ===================================================================== *)

Module WS.
Import JS.

Record WebSocketConfig : Type := {
  url : string;
  reconnectInterval : option Z;
  maxReconnectAttempts : option Z
}.

Inductive ReadyState : Type := CONNECTING | OPEN | CLOSING | CLOSED.

(** A transport created by [new WebSocket(..)]: an object with an identity
    (its position in [sockets]).  The provider, configuration and API key are
    the variables its event handlers close over. *)
Record Socket : Type := {
  s_provider : string;
  s_config : WebSocketConfig;
  s_apiKey : string;
  readyState : ReadyState;
  sent : list jsval
}.

(** A timer armed by [setTimeout]; the callback closes over the provider, the
    configuration, the API key and the attempt count read when it was armed. *)
Record Timer : Type := {
  t_id : nat;
  t_provider : string;
  t_config : WebSocketConfig;
  t_apiKey : string;
  t_attempts : Z;
  t_delay : Z
}.

(** The [data] of a canonical message: a value, or the object built by
    [parseAlphaVantageMessage], whose [timestamp] is [new Date(..)] of a value
    of the frame (the date is not evaluated). *)
Inductive MessageData : Type :=
| Data (v : jsval)
| DatedQuote (symbol price change changePercent timestampOf : jsval).

(** The canonical message (its clock timestamp is left out). *)
Record WebSocketMessage : Type := {
  m_type : jsval;
  m_symbol : jsval;
  m_data : MessageData
}.

(** What the manager does to the outside, in order. *)
Inductive Effect : Type :=
| NewSocket (providerId : string) (ws : nat)
| Scheduled (providerId : string) (delay : Z) (timer : nat)
| Reconnecting (providerId : string) (timer : nat)
| Invoked (handler : nat) (message : WebSocketMessage).

Record Manager : Type := {
  connections : gmap string nat;
  subscriptions : gmap string (list string);
  handlers : gmap string (list nat);
  reconnectAttempts : gmap string Z;
  reconnectTimers : gmap string nat;
  sockets : list Socket;      (* every transport created so far *)
  pending : list Timer;       (* timers armed and neither fired nor cleared *)
  nextTimer : nat;
  log : list Effect
}.

Definition initial : Manager :=
  {| connections := ∅; subscriptions := ∅; handlers := ∅;
     reconnectAttempts := ∅; reconnectTimers := ∅;
     sockets := []; pending := []; nextTimer := 1; log := [] |}.

Definition set_connections (f : gmap string nat -> gmap string nat) (st : Manager) :=
  {| connections := f (connections st); subscriptions := subscriptions st;
     handlers := handlers st; reconnectAttempts := reconnectAttempts st;
     reconnectTimers := reconnectTimers st; sockets := sockets st;
     pending := pending st; nextTimer := nextTimer st; log := log st |}.
Definition set_subscriptions (f : gmap string (list string) -> gmap string (list string))
    (st : Manager) :=
  {| connections := connections st; subscriptions := f (subscriptions st);
     handlers := handlers st; reconnectAttempts := reconnectAttempts st;
     reconnectTimers := reconnectTimers st; sockets := sockets st;
     pending := pending st; nextTimer := nextTimer st; log := log st |}.
Definition set_handlers (f : gmap string (list nat) -> gmap string (list nat)) (st : Manager) :=
  {| connections := connections st; subscriptions := subscriptions st;
     handlers := f (handlers st); reconnectAttempts := reconnectAttempts st;
     reconnectTimers := reconnectTimers st; sockets := sockets st;
     pending := pending st; nextTimer := nextTimer st; log := log st |}.
Definition set_reconnectAttempts (f : gmap string Z -> gmap string Z) (st : Manager) :=
  {| connections := connections st; subscriptions := subscriptions st;
     handlers := handlers st; reconnectAttempts := f (reconnectAttempts st);
     reconnectTimers := reconnectTimers st; sockets := sockets st;
     pending := pending st; nextTimer := nextTimer st; log := log st |}.
Definition set_reconnectTimers (f : gmap string nat -> gmap string nat) (st : Manager) :=
  {| connections := connections st; subscriptions := subscriptions st;
     handlers := handlers st; reconnectAttempts := reconnectAttempts st;
     reconnectTimers := f (reconnectTimers st); sockets := sockets st;
     pending := pending st; nextTimer := nextTimer st; log := log st |}.
Definition set_sockets (f : list Socket -> list Socket) (st : Manager) :=
  {| connections := connections st; subscriptions := subscriptions st;
     handlers := handlers st; reconnectAttempts := reconnectAttempts st;
     reconnectTimers := reconnectTimers st; sockets := f (sockets st);
     pending := pending st; nextTimer := nextTimer st; log := log st |}.
Definition set_pending (f : list Timer -> list Timer) (st : Manager) :=
  {| connections := connections st; subscriptions := subscriptions st;
     handlers := handlers st; reconnectAttempts := reconnectAttempts st;
     reconnectTimers := reconnectTimers st; sockets := sockets st;
     pending := f (pending st); nextTimer := nextTimer st; log := log st |}.
Definition set_nextTimer (n : nat) (st : Manager) :=
  {| connections := connections st; subscriptions := subscriptions st;
     handlers := handlers st; reconnectAttempts := reconnectAttempts st;
     reconnectTimers := reconnectTimers st; sockets := sockets st;
     pending := pending st; nextTimer := n; log := log st |}.
Definition emit (e : Effect) (st : Manager) :=
  {| connections := connections st; subscriptions := subscriptions st;
     handlers := handlers st; reconnectAttempts := reconnectAttempts st;
     reconnectTimers := reconnectTimers st; sockets := sockets st;
     pending := pending st; nextTimer := nextTimer st; log := log st ++ [e] |}.

(** A JavaScript [Set], in insertion order. *)
Section JsSet.
Context {A : Type} (eqb : A -> A -> bool).
Definition set_has (x : A) (l : list A) : bool := existsb (eqb x) l.
Definition set_add (x : A) (l : list A) : list A := if set_has x l then l else l ++ [x].
Definition set_delete (x : A) (l : list A) : list A := List.filter (fun y => negb (eqb x y)) l.
End JsSet.

(** ** Frames *)

Inductive Action : Type := Subscribe | Unsubscribe.
Definition action_name (a : Action) : string :=
  match a with Subscribe => "subscribe" | Unsubscribe => "unsubscribe" end.

Definition join_comma (l : list string) : string := String.concat "," l.

(** [ws.send(JSON.stringify(frame))]; the frame is kept as a value. *)
Definition send (ws : nat) (frame : jsval) (st : Manager) : Manager :=
  set_sockets (alter (fun s => {| s_provider := s_provider s; s_config := s_config s;
                                  s_apiKey := s_apiKey s; readyState := readyState s;
                                  sent := sent s ++ [frame] |}) ws) st.

Definition authenticateConnection (ws : nat) (providerId apiKey : string) (st : Manager)
    : Manager :=
  if String.eqb providerId "finnhub" then
    send ws (JObj [("type", JStr "auth"); ("token", JStr apiKey)]) st
  else if String.eqb providerId "alpha-vantage" then
    send ws (JObj [("type", JStr "authenticate"); ("apikey", JStr apiKey)]) st
  else
    send ws (JObj [("type", JStr "auth"); ("apiKey", JStr apiKey)]) st.

Definition sendSubscriptionMessage (ws : nat) (providerId : string) (action : Action)
    (symbols : list string) (st : Manager) : Manager :=
  if String.eqb providerId "finnhub" then
    fold_left (fun st' symbol =>
                 send ws (JObj [("type", JStr (action_name action));
                                ("symbol", JStr symbol)]) st') symbols st
  else if String.eqb providerId "alpha-vantage" then
    send ws (JObj [("function", JStr (match action with
                                      | Subscribe => "SUBSCRIBE"
                                      | Unsubscribe => "UNSUBSCRIBE" end));
                   ("symbols", JStr (join_comma symbols))]) st
  else
    send ws (JObj [("action", JStr (action_name action));
                   ("symbols", JArr (List.map JStr symbols));
                   ("channel", JStr "quotes")]) st.

(** ** Inbound frames *)

(** [message.data?.[0]?.f] *)
Definition firstTrade (data : jsval) (f : string) : jsval :=
  opt_member (opt_index data 0) f.

(** The three parsers; [None] is a raised error (the frame is then dropped). *)
Definition parseFinnhubMessage (message : jsval) : option WebSocketMessage :=
  match member message "type", member message "data" with
  | Some ty, Some data =>
      match ty with
      | JStr "trade" =>
          Some {| m_type := JStr "quote";
                  m_symbol := firstTrade data "s";
                  m_data := Data (JObj [("symbol", firstTrade data "s");
                                        ("price", firstTrade data "p");
                                        ("timestamp", firstTrade data "t");
                                        ("volume", firstTrade data "v")]) |}
      | _ => Some {| m_type := JStr "error"; m_symbol := JUndefined;
                     m_data := Data message |}
      end
  | _, _ => None
  end.

(** [new Date(message.timestamp)] converts an object to a primitive and
    raises when that fails. *)
Definition parseAlphaVantageMessage (message : jsval) : option WebSocketMessage :=
  match member message "symbol" with
  | Some sym =>
      let timestamp := opt_member message "timestamp" in
      if raisesToPrimitive timestamp then None
      else
        Some {| m_type := JStr "quote";
                m_symbol := sym;
                m_data := DatedQuote sym
                            (opt_member message "price")
                            (opt_member message "change")
                            (opt_member message "changePercent")
                            timestamp |}
  | None => None
  end.

Definition parseGenericMessage (message : jsval) : option WebSocketMessage :=
  match member message "type" with
  | Some ty =>
      Some {| m_type := js_or ty (JStr "quote");
              m_symbol := opt_member message "symbol";
              m_data := Data (js_or (opt_member message "data") message) |}
  | None => None
  end.

(** [parseMessage]; [raw] is the outcome of [JSON.parse], [None] when the
    text is not JSON. *)
Definition parseMessage (raw : option jsval) (providerId : string)
    : option WebSocketMessage :=
  match raw with
  | None => None
  | Some rawMessage =>
      if String.eqb providerId "finnhub" then parseFinnhubMessage rawMessage
      else if String.eqb providerId "alpha-vantage" then parseAlphaVantageMessage rawMessage
      else parseGenericMessage rawMessage
  end.

(** ** Handlers *)

(** Handlers are functions compared by identity; calling one is recorded in
    the log, and an error it raises is caught. *)
Definition addHandler (providerId : string) (handler : nat) (st : Manager) : Manager :=
  let hs := default [] (handlers st !! providerId) in
  set_handlers (insert providerId (set_add Nat.eqb handler hs)) st.

Definition removeHandler (providerId : string) (handler : nat) (st : Manager) : Manager :=
  match handlers st !! providerId with
  | Some hs => set_handlers (insert providerId (set_delete Nat.eqb handler hs)) st
  | None => st
  end.

Definition handleMessage (providerId : string) (message : WebSocketMessage) (st : Manager)
    : Manager :=
  match handlers st !! providerId with
  | Some hs => fold_left (fun st' handler => emit (Invoked handler message) st') hs st
  | None => st
  end.

(** ** Connections *)

(** [ws.close(1000, ..)]: a transport still connecting or open starts
    closing; its close event comes later. *)
Definition close_socket (ws : nat) (st : Manager) : Manager :=
  set_sockets (alter (fun s => {| s_provider := s_provider s; s_config := s_config s;
                                  s_apiKey := s_apiKey s;
                                  readyState := match readyState s with
                                                | CONNECTING | OPEN => CLOSING
                                                | r => r
                                                end;
                                  sent := sent s |}) ws) st.

(** [clearTimeout(timer)] *)
Definition clearTimeout (timer : nat) (st : Manager) : Manager :=
  set_pending (List.filter (fun t => negb (t_id t =? timer)%nat)) st.

Definition disconnect (providerId : string) (st : Manager) : Manager :=
  let st1 := match connections st !! providerId with
             | Some ws => set_connections (delete providerId) (close_socket ws st)
             | None => st
             end in
  let st2 := match reconnectTimers st1 !! providerId with
             | Some timer => set_reconnectTimers (delete providerId) (clearTimeout timer st1)
             | None => st1
             end in
  set_reconnectAttempts (delete providerId) st2.

Section WithBrowser.

(** [validUrl u] holds when [new WebSocket(u)] accepts the address; it raises
    otherwise. *)
Variable validUrl : string -> bool.

Definition connect (providerId : string) (config : WebSocketConfig) (apiKey : string)
    (st : Manager) : bool * Manager :=
  let st1 := match connections st !! providerId with
             | Some _ => disconnect providerId st
             | None => st
             end in
  if validUrl (url config) then
    let ws := List.length (sockets st1) in
    let s := {| s_provider := providerId; s_config := config; s_apiKey := apiKey;
                readyState := CONNECTING; sent := [] |} in
    (true, emit (NewSocket providerId ws)
             (set_connections (insert providerId ws)
                (set_sockets (fun l => l ++ [s]) st1)))
  else (false, st1).

(** [a || b] on numbers. *)
Definition or_default (o : option Z) (d : Z) : Z :=
  match o with
  | Some z => if Z.eqb z 0 then d else z
  | None => d
  end.

Definition maxAttemptsOf (config : WebSocketConfig) : Z :=
  or_default (maxReconnectAttempts config) 5.
Definition intervalOf (config : WebSocketConfig) : Z :=
  or_default (reconnectInterval config) 5000.
Definition attemptsOf (providerId : string) (st : Manager) : Z :=
  or_default (reconnectAttempts st !! providerId) 0.

Definition attemptReconnect (providerId : string) (config : WebSocketConfig)
    (apiKey : string) (st : Manager) : Manager :=
  let attempts := attemptsOf providerId st in
  let maxAttempts := maxAttemptsOf config in
  if (maxAttempts <=? attempts)%Z then st
  else
    let backoffInterval := (intervalOf config * 2 ^ attempts)%Z in
    let timer := nextTimer st in
    let t := {| t_id := timer; t_provider := providerId; t_config := config;
                t_apiKey := apiKey; t_attempts := attempts; t_delay := backoffInterval |} in
    set_reconnectTimers (insert providerId timer)
      (emit (Scheduled providerId backoffInterval timer)
         (set_nextTimer (S timer) (set_pending (fun l => l ++ [t]) st))).

(** The callback armed by [attemptReconnect]. *)
Definition reconnectCallback (t : Timer) (st : Manager) : Manager :=
  let st1 := set_reconnectAttempts (insert (t_provider t) (t_attempts t + 1)%Z)
               (emit (Reconnecting (t_provider t) (t_id t)) st) in
  snd (connect (t_provider t) (t_config t) (t_apiKey t) st1).

Definition set_readyState (ws : nat) (r : ReadyState) (st : Manager) : Manager :=
  set_sockets (alter (fun s => {| s_provider := s_provider s; s_config := s_config s;
                                  s_apiKey := s_apiKey s; readyState := r;
                                  sent := sent s |}) ws) st.

(** [ws.onopen] *)
Definition onopen (ws : nat) (s : Socket) (st : Manager) : Manager :=
  let p := s_provider s in
  let st1 := set_reconnectAttempts (insert p 0%Z) st in
  let st2 := authenticateConnection ws p (s_apiKey s) st1 in
  match subscriptions st2 !! p with
  | Some ((_ :: _) as symbols) => sendSubscriptionMessage ws p Subscribe symbols st2
  | _ => st2
  end.

(** [ws.onmessage] *)
Definition onmessage (s : Socket) (raw : option jsval) (st : Manager) : Manager :=
  match parseMessage raw (s_provider s) with
  | Some message => handleMessage (s_provider s) message st
  | None => st
  end.

(** [ws.onclose] *)
Definition onclose (s : Socket) (code : nat) (st : Manager) : Manager :=
  let st1 := set_connections (delete (s_provider s)) st in
  if (code =? 1000)%nat then st1
  else attemptReconnect (s_provider s) (s_config s) (s_apiKey s) st1.

(** [ws.onerror] *)
Definition onerror (s : Socket) (st : Manager) : Manager :=
  handleMessage (s_provider s)
    {| m_type := JStr "error";
       m_symbol := JUndefined;
       m_data := Data (JObj [("error", JStr "WebSocket connection error")]) |} st.

Definition subscribe (providerId : string) (symbols : list string) (st : Manager)
    : Manager :=
  let existingSymbols := default [] (subscriptions st !! providerId) in
  let updated := fold_left (fun set symbol => set_add String.eqb (toUpperCase symbol) set)
                           symbols existingSymbols in
  let st1 := set_subscriptions (insert providerId updated) st in
  match connections st1 !! providerId with
  | Some ws =>
      match sockets st1 !! ws with
      | Some s =>
          match readyState s with
          | OPEN => sendSubscriptionMessage ws providerId Subscribe
                      (List.map toUpperCase symbols) st1
          | _ => st1
          end
      | None => st1
      end
  | None => st1
  end.

Definition unsubscribe (providerId : string) (symbols : list string) (st : Manager)
    : Manager :=
  match subscriptions st !! providerId with
  | Some existingSymbols =>
      let updated := fold_left (fun set symbol => set_delete String.eqb (toUpperCase symbol) set)
                               symbols existingSymbols in
      let st1 := set_subscriptions (insert providerId updated) st in
      match connections st1 !! providerId with
      | Some ws =>
          match sockets st1 !! ws with
          | Some s =>
              match readyState s with
              | OPEN => sendSubscriptionMessage ws providerId Unsubscribe
                          (List.map toUpperCase symbols) st1
              | _ => st1
              end
          | None => st1
          end
      | None => st1
      end
  | None => st
  end.

Definition cleanup (st : Manager) : Manager :=
  let st1 := fold_right (fun entry st' => disconnect (fst entry) st') st
                        (map_to_list (connections st)) in
  set_subscriptions (fun _ => ∅) (set_handlers (fun _ => ∅) st1).

(** ** Events *)

(** Calls of the public interface and events delivered by the browser. *)
Inductive Event : Type :=
| Connect (providerId : string) (config : WebSocketConfig) (apiKey : string)
| Disconnect (providerId : string)
| SubscribeTo (providerId : string) (symbols : list string)
| UnsubscribeFrom (providerId : string) (symbols : list string)
| AddHandler (providerId : string) (handler : nat)
| RemoveHandler (providerId : string) (handler : nat)
| Cleanup
| SocketOpen (ws : nat)
| SocketMessage (ws : nat) (raw : option jsval)
| SocketError (ws : nat)
| SocketClosing (ws : nat)
| SocketClose (ws : nat) (code : nat)
| TimerFires (timer : nat).

Definition find_timer (timer : nat) (st : Manager) : option Timer :=
  List.find (fun t => (t_id t =? timer)%nat) (pending st).

(** One event.  The browser opens only a transport that is connecting,
    delivers frames and errors only to one that is not closed, closes a
    transport once, and fires only a timer that is still pending; any other
    event is ignored.  [SocketClosing] is the closing handshake started by
    the server on an open transport: the browser sets [readyState] to CLOSING
    in a task of its own, and the close event follows later. *)
Definition step (st : Manager) (e : Event) : Manager :=
  match e with
  | Connect p config apiKey => snd (connect p config apiKey st)
  | Disconnect p => disconnect p st
  | SubscribeTo p symbols => subscribe p symbols st
  | UnsubscribeFrom p symbols => unsubscribe p symbols st
  | AddHandler p h => addHandler p h st
  | RemoveHandler p h => removeHandler p h st
  | Cleanup => cleanup st
  | SocketOpen ws =>
      match sockets st !! ws with
      | Some s =>
          match readyState s with
          | CONNECTING => onopen ws s (set_readyState ws OPEN st)
          | _ => st
          end
      | None => st
      end
  | SocketMessage ws raw =>
      match sockets st !! ws with
      | Some s =>
          match readyState s with
          | OPEN | CLOSING => onmessage s raw st
          | _ => st
          end
      | None => st
      end
  | SocketError ws =>
      match sockets st !! ws with
      | Some s =>
          match readyState s with
          | CLOSED => st
          | _ => onerror s st
          end
      | None => st
      end
  | SocketClosing ws =>
      match sockets st !! ws with
      | Some s =>
          match readyState s with
          | OPEN => set_readyState ws CLOSING st
          | _ => st
          end
      | None => st
      end
  | SocketClose ws code =>
      match sockets st !! ws with
      | Some s =>
          match readyState s with
          | CLOSED => st
          | _ => onclose s code (set_readyState ws CLOSED st)
          end
      | None => st
      end
  | TimerFires timer =>
      (* a timer that fired is no longer pending *)
      match find_timer timer st with
      | Some t => reconnectCallback t (clearTimeout timer st)
      | None => st
      end
  end.

Definition run (events : list Event) (st : Manager) : Manager :=
  fold_left step events st.

End WithBrowser.

(** The delays of the reconnects scheduled for a provider, in order. *)
Definition scheduledDelays (providerId : string) (st : Manager) : list Z :=
  flat_map (fun e => match e with
                     | Scheduled p delay _ => if String.eqb p providerId then [delay] else []
                     | _ => []
                     end) (log st).

(** The automatic reconnects that fired for a provider. *)
Definition reconnects (providerId : string) (st : Manager) : list nat :=
  flat_map (fun e => match e with
                     | Reconnecting p timer => if String.eqb p providerId then [timer] else []
                     | _ => []
                     end) (log st).

(** The handlers invoked, in order. *)
Definition invoked (l : list Effect) : list nat :=
  flat_map (fun e => match e with Invoked h _ => [h] | _ => [] end) l.

End WS.

(* ===================================================================== *)
(** * Samples, scenarios and predicates used in the statements *)
(* ===================================================================== *)

(** ** Samples and predicates for the field mapper *)

Module FieldMapperSpec.
Import JS FieldMapper.

Definition sample : jsval :=
  JObj [("a", JObj [("b", JArr [JObj [("c", JNum 5)]])])].

(** The segment [key] is a plain key that the object with own properties
    [props] neither has nor inherits. *)
Definition missingKey (props : list (string * jsval)) (key : string) : Prop :=
  arrayMatch key = None /\ lookup_prop key props = None /\
  isInherited KObject key = false.

(** The segment [key] reads, in the array that the object holds under the
    head of the segment, an index beyond the last element. *)
Definition indexOutOfRange (props : list (string * jsval)) (key : string) : Prop :=
  exists (arrayKey : string) (index : nat) (items : list jsval),
    arrayMatch key = Some (arrayKey, index) /\
    lookup_prop arrayKey props = Some (JArr items) /\
    (List.length items <= index)%nat.

(** A required mapping whose extracted value is null or undefined. *)
Definition is_missing (response : jsval) (m : ApiFieldMapping) : bool :=
  required m && is_nullish (extractValue response (sourceField m)).

End FieldMapperSpec.

(** ** The sample of the structure detector *)

Module DetectorSpec.
Import JS FieldMapper Detector.

(** [{symbol:"AAPL", price:187.32, timestamp:"2024-01-05T00:00:00Z"}] *)
Definition quoteSample : jsval :=
  JObj [("symbol", JStr "AAPL");
        ("price", JNum (18732 # 100));
        ("timestamp", JStr "2024-01-05T00:00:00Z")].

Definition targets (cs : list Candidate) : list (string * Q) :=
  List.map (fun c => (c_targetField c, confidence c)) cs.

(** The mapping for [target] was produced by [generateMappings] from the best
    unused candidate, whose confidence is [c]. *)
Definition selected_with (d : DetectedApiStructure) (used : list string)
    (target : string) (c : Q) : Prop :=
  exists m : Match,
    bestMatch (detectedFields d) used target = Some m /\
    c_targetField (m_candidate m) = target /\
    confidence (m_candidate m) = c /\
    In (m_candidate m) (possibleMappings (m_field m)) /\
    In (m_field m) (detectedFields d) /\
    In (mappingOf Quote target m) (suggestedMappings d).

End DetectorSpec.

(** ** Provider answers and predicates on quotes *)

Module AdapterSpec.
Import JS Adapters.

Definition upperCased (v : jsval) : Prop :=
  exists s : string, v = JStr s /\ toUpperCase s = s.

(** The quote carried by a successful outcome. *)
Definition quote_of (o : Outcome StockQuote * list Url) : option StockQuote :=
  match fst o with
  | Resolved r => if success r then data r else None
  | Rejected _ => None
  end.

(** The intervals that are keys of the three interval tables. *)
Definition supportedIntervals : list string :=
  ["1min"; "5min"; "15min"; "30min"; "1hour"; "1day"; "1week"; "1month"].

(** A request for historical data. *)
Definition historical (sym i : string) (f t l : option Z) : HistoricalDataRequest :=
  {| h_symbol := sym; interval := i; from := f; to := t; limit := l |}.

(** The local rejection of a request, with no network call. *)
Definition rejectedLocally {Points : Type} (request : HistoricalDataRequest)
    : Outcome Points * list Url :=
  (Resolved (failed (Text ("Unsupported interval: " ++ interval request)%string)), []).

(** The member [constructor] that every object literal inherits. *)
Definition objectConstructor : jsval := JNative (Inherited KObject "constructor").

(** A provider answering with a lower-case symbol. *)
Definition alphaVantageAnswer : FetchResult :=
  Responded {| status := 200;
               json := Some (JObj [("Global Quote",
                        JObj [("01. symbol", JStr "aapl");
                              ("05. price", JStr "187.32");
                              ("10. change percent", JStr "1.25%")])]) |}.

Definition indianApiAnswer : FetchResult :=
  Responded {| status := 200;
               json := Some (JObj [("tickerId", JStr "reliance");
                                   ("currentPrice", JObj [("NSE", JNum 2500)])]) |}.

End AdapterSpec.

(** ** Configurations used with the factory *)

Module RegistrySpec.
Import JS Registry.

(** The two configurations of the key collision. *)
Definition configA : UserApiConfig := {| id := "x"; providerId := "alpha-vantage" |}.
Definition configB : UserApiConfig := {| id := "vantage-x"; providerId := "alpha" |}.

(** Two configurations of one provider whose ids share a suffix. *)
Definition configLong : UserApiConfig := {| id := "x-1"; providerId := "finnhub" |}.
Definition configShort : UserApiConfig := {| id := "1"; providerId := "finnhub" |}.

Definition cached (config : UserApiConfig) (w : World) : option Instance :=
  map_get (cacheKey config) (instances w).

(** Every cached instance is on the heap, and no instance is cached under
    two keys. *)
Definition cacheSound (w : World) : Prop :=
  (forall k i, map_get k (instances w) = Some i -> (i < List.length (heap w))%nat) /\
  (forall k1 k2 i, map_get k1 (instances w) = Some i ->
                   map_get k2 (instances w) = Some i -> k1 = k2).

End RegistrySpec.

(** ** Event traces and observations of the connection manager *)

Module WSSpec.
Import JS WS.

Definition finnhubConfig (interval : option Z) : WebSocketConfig :=
  {| url := "wss://ws.finnhub.io"; reconnectInterval := interval;
     maxReconnectAttempts := None |}.

Definition anyUrl : string -> bool := fun _ => true.

(** Connect, open, abnormal close, the reconnect fires, and its transport
    closes abnormally without having opened. *)
Definition traceFailedReconnect (interval : option Z) : list Event :=
  [Connect "finnhub" (finnhubConfig interval) "key";
   SocketOpen 0; SubscribeTo "finnhub" ["aapl"];
   SocketClose 0 1006;
   TimerFires 1;
   SocketClose 1 1006].

(** The same, but the reconnected transport opens before it closes. *)
Definition traceReopened (interval : option Z) : list Event :=
  [Connect "finnhub" (finnhubConfig interval) "key";
   SocketOpen 0; SubscribeTo "finnhub" ["aapl"];
   SocketClose 0 1006;
   TimerFires 1;
   SocketOpen 1;
   SocketClose 1 1006].

(** Reconnects that keep failing, with a cap of two attempts. *)
Definition cappedConfig : WebSocketConfig :=
  {| url := "wss://ws.finnhub.io"; reconnectInterval := Some 1000%Z;
     maxReconnectAttempts := Some 2%Z |}.

Definition traceToCap : list Event :=
  [Connect "finnhub" cappedConfig "key"; SocketOpen 0;
   SocketClose 0 1006; TimerFires 1;
   SocketClose 1 1006; TimerFires 2].

Definition traceCapped : list Event := traceToCap ++ [SocketClose 2 1006].

(** A second explicit connect while a reconnect is pending, a second abnormal
    close, then disconnect. *)
Definition traceTwoTimers : list Event :=
  [Connect "finnhub" (finnhubConfig None) "key"; SocketOpen 0;
   SocketClose 0 1006;
   Connect "finnhub" (finnhubConfig None) "key";
   SocketClose 1 1006;
   Disconnect "finnhub"].

Definition pendingFor (providerId : string) (st : Manager) : list nat :=
  List.map t_id (List.filter (fun t => String.eqb (t_provider t) providerId) (pending st)).

(** Every handler set holds each function once. *)
Definition handlersDistinct (st : Manager) : Prop :=
  forall (p : string) (hs : list nat), handlers st !! p = Some hs -> List.NoDup hs.

(** Every transport of provider [p] has a cap of at most [a] attempts. *)
Definition capped (p : string) (a : Z) (l : list Socket) : Prop :=
  forall (ws : nat) (s : Socket),
    l !! ws = Some s -> s_provider s = p -> (maxAttemptsOf (s_config s) <= a)%Z.

(** An event that is not an explicit [connect], [disconnect] or [cleanup]
    for provider [p], nor the opening of one of its transports, nor the firing
    of one of its timers. *)
Definition quiet (p : string) (st : Manager) (e : Event) : Prop :=
  match e with
  | Connect q _ _ | Disconnect q => q <> p
  | Cleanup => False
  | SocketOpen ws => forall s, sockets st !! ws = Some s -> s_provider s <> p
  | TimerFires timer => forall t, find_timer timer st = Some t -> t_provider t <> p
  | _ => True
  end.

Fixpoint quietRun (validUrl : string -> bool) (p : string) (events : list Event)
    (st : Manager) : Prop :=
  match events with
  | [] => True
  | e :: rest => quiet p st e /\ quietRun validUrl p rest (step validUrl st e)
  end.

(** Nothing that matters to the reconnects of provider [p] differs between
    [st] and [st']: its attempt counter, the reconnects scheduled for it, and
    the caps of its transports. *)
Definition unchangedFor (p : string) (st st' : Manager) : Prop :=
  reconnectAttempts st' !! p = reconnectAttempts st !! p /\
  scheduledDelays p st' = scheduledDelays p st /\
  (forall a, capped p a (sockets st) -> capped p a (sockets st')).

(** The handlers called when [message] is fanned out for the provider. *)
Definition fanOut (p : string) (message : WebSocketMessage) (st : Manager) : list nat :=
  invoked (skipn (List.length (log st)) (log (handleMessage p message st))).

End WSSpec.

(* ===================================================================== *)
(** * Further operations of the modelled classes *)
(* ===================================================================== *)

(** The modules below extend the embedding:
    - [Order]         the ordering predicate of the sorted lists;
    - [WSExt]         status, subscriptions and frames of [WebSocketManager];
    - [RegistryExt]   [AdapterUtils], [testConnection] and calls on the factory;
    - [DetectorExt]   the loop of [generateMappings]; responses whose detected
                      paths can be followed by [extractValue];
    - [Custom]        [CustomApiAdapter.transform], [applyTransform],
                      [buildCustomUrl] and [getQuote];
    - [AdaptersExt]   [validateCredentials] and [getSupportedSymbols] of the
                      built-in adapters;
    - [Client]        [FinancialApiClient];
    - [Middleware]    the store middleware that drives the connection manager. *)

(** ** Orderings *)

Module Order.
Import Detector.

Local Open Scope Q_scope.

(** Every element is followed only by elements of lower or equal score. *)
Fixpoint descending {A : Type} (conf : A -> Q) (l : list A) : Prop :=
  match l with
  | [] => True
  | x :: l' => List.Forall (fun y => conf y <= conf x) l' /\ descending conf l'
  end.

End Order.

(** ** Connection manager: status, subscriptions, frames *)

Module WSExt.
Import JS WS.

Inductive Status : Type := StatusConnecting | StatusOpen | StatusClosed | StatusError.

(** [getConnectionStatus].  The map of the source holds the transport object
    itself; a recorded transport missing from [sockets] has no counterpart
    there, and the model answers as the [default] branch of the source. *)
Definition getConnectionStatus (providerId : string) (st : Manager) : Status :=
  match connections st !! providerId with
  | None => StatusClosed
  | Some ws =>
      match sockets st !! ws with
      | Some s =>
          match readyState s with
          | CONNECTING => StatusConnecting
          | OPEN => StatusOpen
          | CLOSING | CLOSED => StatusClosed
          end
      | None => StatusError
      end
  end.

(** [getSubscriptions] *)
Definition getSubscriptions (providerId : string) (st : Manager) : list string :=
  default [] (subscriptions st !! providerId).

(** The frame written by [authenticateConnection]. *)
Definition authFrame (providerId apiKey : string) : jsval :=
  if String.eqb providerId "finnhub" then
    JObj [("type", JStr "auth"); ("token", JStr apiKey)]
  else if String.eqb providerId "alpha-vantage" then
    JObj [("type", JStr "authenticate"); ("apikey", JStr apiKey)]
  else
    JObj [("type", JStr "auth"); ("apiKey", JStr apiKey)].

(** The frames written by [sendSubscriptionMessage]. *)
Definition subscriptionFrames (providerId : string) (action : Action)
    (symbols : list string) : list jsval :=
  if String.eqb providerId "finnhub" then
    List.map (fun symbol => JObj [("type", JStr (action_name action));
                                  ("symbol", JStr symbol)]) symbols
  else if String.eqb providerId "alpha-vantage" then
    [JObj [("function", JStr (match action with
                              | Subscribe => "SUBSCRIBE"
                              | Unsubscribe => "UNSUBSCRIBE" end));
           ("symbols", JStr (join_comma symbols))]]
  else
    [JObj [("action", JStr (action_name action));
           ("symbols", JArr (List.map JStr symbols));
           ("channel", JStr "quotes")]].

(** The frames written when a transport opens: authentication, then the
    subscriptions on record, if any. *)
Definition openingFrames (providerId apiKey : string) (symbols : list string) : list jsval :=
  authFrame providerId apiKey ::
  match symbols with
  | [] => []
  | _ :: _ => subscriptionFrames providerId Subscribe symbols
  end.

(** What a transport is, apart from the frames written to it. *)
Definition core (s : Socket) : string * WebSocketConfig * string * ReadyState :=
  (s_provider s, s_config s, s_apiKey s, readyState s).

(** [st'] differs from [st] at most in the frames written to transports. *)
Definition framesOnly (st st' : Manager) : Prop :=
  connections st' = connections st /\ subscriptions st' = subscriptions st /\
  handlers st' = handlers st /\ reconnectAttempts st' = reconnectAttempts st /\
  reconnectTimers st' = reconnectTimers st /\ pending st' = pending st /\
  nextTimer st' = nextTimer st /\ log st' = log st /\
  List.map core (sockets st') = List.map core (sockets st).

(** [st'] differs from [st] at most in the log. *)
Definition logOnly (st st' : Manager) : Prop :=
  connections st' = connections st /\ subscriptions st' = subscriptions st /\
  handlers st' = handlers st /\ reconnectAttempts st' = reconnectAttempts st /\
  reconnectTimers st' = reconnectTimers st /\ pending st' = pending st /\
  nextTimer st' = nextTimer st /\ sockets st' = sockets st.

(** The frames written to transport [ws] so far. *)
Definition sentOn (ws : nat) (st : Manager) : list jsval :=
  match sockets st !! ws with
  | Some s => sent s
  | None => []
  end.

(** Upper-cased symbols, each once. *)
Definition canonical (l : list string) : Prop :=
  List.NoDup l /\ List.Forall (fun s => toUpperCase s = s) l.

(** Every subscription set holds upper-cased symbols, each once. *)
Definition subscriptionsCanonical (st : Manager) : Prop :=
  forall (p : string) (symbols : list string),
    subscriptions st !! p = Some symbols -> canonical symbols.

(** Every recorded transport exists, belongs to the provider it is recorded
    for, and is not closed: it is connecting, open or closing. *)
Definition connectionsLive (st : Manager) : Prop :=
  forall (p : string) (ws : nat),
    connections st !! p = Some ws ->
    exists s, sockets st !! ws = Some s /\ s_provider s = p /\
              readyState s <> CLOSED.

(** The message that [ws.onerror] hands to the handlers. *)
Definition connectionError : WebSocketMessage :=
  {| m_type := JStr "error";
     m_symbol := JUndefined;
     m_data := Data (JObj [("error", JStr "WebSocket connection error")]) |}.


End WSExt.

(** ** Provider catalog: descriptors, selection helpers, connection test *)

Module RegistryExt.
Import JS Adapters Registry.

Local Open Scope Q_scope.

(** [ApiProvider], restricted to the members the catalog helpers read. *)
Record ApiProvider : Type := {
  p_id : string;
  rateLimitPerMinute : Q;
  supportedFeatures : list string
}.

Definition alphaVantageProvider : ApiProvider :=
  {| p_id := "alpha-vantage"; rateLimitPerMinute := 5;
     supportedFeatures := ["real-time-quotes"; "historical-data"; "company-profile";
                           "market-news"; "crypto-data"; "forex-data"; "us-stocks";
                           "global-stocks"] |}.
Definition finnhubProvider : ApiProvider :=
  {| p_id := "finnhub"; rateLimitPerMinute := 60;
     supportedFeatures := ["real-time-quotes"; "historical-data"; "company-profile";
                           "market-news"; "crypto-data"; "forex-data"; "us-stocks";
                           "global-stocks"] |}.
Definition indianApiProvider : ApiProvider :=
  {| p_id := "indian-api"; rateLimitPerMinute := 100;
     supportedFeatures := ["real-time-quotes"; "historical-data"; "company-profile";
                           "indian-stocks"] |}.

(** [ApiAdapterRegistry.getAllProviders()] after the static initialisation
    block: the descriptors in registration order. *)
Definition builtinProviders : list ApiProvider :=
  [alphaVantageProvider; finnhubProvider; indianApiProvider].

(** [provider.supportedFeatures.includes(feature)] *)
Definition supports (provider : ApiProvider) (feature : string) : bool :=
  existsb (String.eqb feature) (supportedFeatures provider).

Inductive Region : Type := US | India | Global.

Definition regionFeature (r : Region) : string :=
  match r with
  | US => "us-stocks"
  | India => "indian-stocks"
  | Global => "global-stocks"
  end.

Record Preferences : Type := {
  pref_region : option Region;
  pref_features : option (list string)
}.

Record Requirements : Type := {
  req_features : list string;
  req_minRateLimit : option Q;
  req_region : option Region
}.

Section Catalog.
(** The array returned by [ApiAdapterRegistry.getAllProviders()]. *)
Variable all : list ApiProvider.

(** [AdapterUtils.getRecommendedProviders]; the [budget] preference is never
    read by the source. *)
Definition getRecommendedProviders (preferences : option Preferences) : list ApiProvider :=
  let providers := all in
  let providers :=
    match preferences with
    | Some {| pref_region := Some r |} =>
        List.filter (fun provider => supports provider (regionFeature r)) providers
    | _ => providers
    end in
  let providers :=
    match preferences with
    | Some {| pref_features := Some features |} =>
        List.filter (fun provider => existsb (supports provider) features) providers
    | _ => providers
    end in
  Detector.sort_desc rateLimitPerMinute providers.

(** [!requirements.minRateLimit || rate >= requirements.minRateLimit] *)
Definition meetsRateLimit (requirements : Requirements) (provider : ApiProvider) : bool :=
  match req_minRateLimit requirements with
  | None => true
  | Some m => Qzero m || Qle_bool m (rateLimitPerMinute provider)
  end.

Definition supportsFeatures (requirements : Requirements) (provider : ApiProvider) : bool :=
  forallb (supports provider) (req_features requirements).

(** [AdapterUtils.getBestProvider] *)
Definition getBestProvider (requirements : Requirements) : option ApiProvider :=
  let providers :=
    getRecommendedProviders
      (Some {| pref_region := req_region requirements;
               pref_features := Some (req_features requirements) |}) in
  hd_error
    (List.filter (fun provider =>
       supportsFeatures requirements provider && meetsRateLimit requirements provider)
       providers).
End Catalog.

(** The region filter of [getRecommendedProviders], as a test on one
    provider. *)
Definition inRegion (requirements : Requirements) (provider : ApiProvider) : bool :=
  match req_region requirements with
  | Some r => supports provider (regionFeature r)
  | None => true
  end.

(** ** The connection test *)

(** What [testConnection] resolves with; the message of a caught [ApiError]
    is kept with the error. *)
Inductive TestError : Type :=
| NoAdapter                       (* 'Adapter not found' *)
| FromResult (e : ErrorText)      (* result.error *)
| FromApiError (e : ApiError).    (* error.message of a rejection *)

Record TestResult : Type := {
  t_success : bool;
  t_error : option TestError
}.

Section TestConnection.
(** [getQuote] of an adapter class registered by the application. *)
Variable otherQuote : string -> QuoteRequest -> ApiCredentials -> Eff (Outcome StockQuote).

(** [adapter.getQuote], dispatched on the class of the instance. *)
Definition getQuoteOf (f : Factory) : QuoteRequest -> ApiCredentials -> Eff (Outcome StockQuote) :=
  match f with
  | NewAlphaVantageAdapter => AlphaVantage.getQuote
  | NewFinnhubAdapter => Finnhub.getQuote
  | NewIndianApiAdapter => IndianApi.getQuote
  | NewOther name => otherQuote name
  end.

Fixpoint mapEff {A B : Type} (g : A -> B) (p : Eff A) : Eff B :=
  match p with
  | Ret v => Ret (g v)
  | Fetch url headers k => Fetch url headers (fun r => mapEff g (k r))
  end.

Definition testSymbol (config : UserApiConfig) : string :=
  if String.eqb (providerId config) "indian-api" then "RELIANCE" else "AAPL".

(** The tail of [testConnection]: the awaited result, or the [catch] arm. *)
Definition testOutcome (o : Outcome StockQuote) : TestResult :=
  match o with
  | Resolved r => {| t_success := success r; t_error := option_map FromResult (error r) |}
  | Rejected e => {| t_success := false; t_error := Some (FromApiError e) |}
  end.

(** [ApiAdapterFactory.testConnection]; [credentials] is
    [config.credentials].  The adapter is resolved before the first await.
    An instance that is not on the heap has no counterpart in the source
    (the cache holds the objects themselves); the model answers as if no
    adapter had been found. *)
Definition testConnection (config : UserApiConfig) (credentials : ApiCredentials)
    (w : World) : Eff TestResult * World :=
  match getAdapter config w with
  | (None, w') => (Ret {| t_success := false; t_error := Some NoAdapter |}, w')
  | (Some adapter, w') =>
      match heap w' !! adapter with
      | Some f =>
          (mapEff testOutcome
             (getQuoteOf f {| q_symbol := testSymbol config |} credentials), w')
      | None => (Ret {| t_success := false; t_error := Some NoAdapter |}, w')
      end
  end.
End TestConnection.

(** Calls on the factory, and the worlds they lead to. *)
Inductive Call : Type :=
| CallGetAdapter (config : UserApiConfig)
| CallCreateAdapter (providerId : string)
| CallClearCache (configId : option string).

Definition call (w : World) (c : Call) : World :=
  match c with
  | CallGetAdapter config => snd (getAdapter config w)
  | CallCreateAdapter providerId => snd (createAdapter providerId w)
  | CallClearCache configId => clearCache configId w
  end.

Definition calls (cs : list Call) (w : World) : World := fold_left call cs w.

(** Every cached instance was built by the constructor registered for a
    provider whose id, followed by a dash, starts its cache key. *)
Definition cacheTyped (w : World) : Prop :=
  forall k i, In (k, i) (instances w) ->
    exists p f, adapters w !! p = Some f /\ heap w !! i = Some f /\
                startsWith k (p ++ "-") = true.

End RegistryExt.

(** ** Structure detector: the loop of [generateMappings] *)

Module DetectorExt.
Import JS FieldMapper Detector.

Local Open Scope Q_scope.

(** What holds of the mappings produced so far and of the set of used
    paths, once the targets [done] have been processed. *)
Definition generated (fields : list DetectedField) (t : ExpectedType) (done : list string)
    (st : list ApiFieldMapping * list string) : Prop :=
  List.Forall (fun m =>
     In (targetField m) done /\
     required m = isFieldRequired (targetField m) t /\
     In (sourceField m) (snd st) /\
     exists f c, In f fields /\ path f = sourceField m /\
                 In c (possibleMappings f) /\ c_targetField c = targetField m /\
                 5 # 10 < confidence c) (fst st) /\
  List.NoDup (List.map targetField (fst st)) /\
  List.NoDup (List.map sourceField (fst st)).

(** *** Responses whose detected paths can be followed *)

(** A character that has no meaning in a path. *)
Definition plain_char (c : ascii) : bool :=
  negb (Ascii.eqb c "." || Ascii.eqb c "[" || Ascii.eqb c "]" || is_line_terminator c).

(** A key that is one segment of a path. *)
Definition plainKey (k : string) : Prop :=
  k <> "" /\ forallb plain_char (chars k) = true.

(** A primitive, or an object with plain, pairwise distinct keys whose values
    are regular or are arrays of primitives and regular objects. *)
Fixpoint regular (v : jsval) : Prop :=
  match v with
  | JObj props =>
      List.NoDup (List.map fst props) /\
      (fix entries (l : list (string * jsval)) : Prop :=
         match l with
         | [] => True
         | (k, x) :: rest =>
             plainKey k /\
             match x with
             | JArr items =>
                 (fix elems (l : list jsval) : Prop :=
                    match l with
                    | [] => True
                    | item :: rest =>
                        match item with
                        | JArr _ => False
                        | _ => regular item
                        end /\ elems rest
                    end) items
             | _ => regular x
             end /\ entries rest
         end) props
  | JArr _ => False
  | _ => True
  end.

(** The number of constructors of a value. *)
Fixpoint size (v : jsval) : nat :=
  match v with
  | JArr items =>
      S ((fix sum (l : list jsval) : nat :=
            match l with [] => O | x :: rest => (size x + sum rest)%nat end) items)
  | JObj props =>
      S ((fix sum (l : list (string * jsval)) : nat :=
            match l with [] => O | (_, x) :: rest => (size x + sum rest)%nat end) props)
  | _ => 1%nat
  end.

(** A text without a dot: one segment when a path is split. *)
Definition nodot (k : string) : Prop :=
  forallb (fun c => negb (Ascii.eqb c ".")) (chars k) = true.

(** The path of the member [key] of the value at [currentPath]. *)
Definition childPath (currentPath key : string) : string :=
  if String.eqb currentPath "" then key else (currentPath ++ "." ++ key)%string.

(** The segment that names element [index] of the array under [key]. *)
Definition indexed (key : string) (index : nat) : string :=
  (key ++ "[" ++ string_of_nat index ++ "]")%string.

(** What is allowed as an element of an array. *)
Definition regularItem (item : jsval) : Prop :=
  match item with
  | JArr _ => False
  | _ => regular item
  end.

(** What is allowed as the value of a member. *)
Definition regularMember (x : jsval) : Prop :=
  match x with
  | JArr items => List.Forall regularItem items
  | _ => regular x
  end.

(** The position [segs] in a response and the path text [p] that the
    traversal carries name the same place. *)
Definition located (segs : list string) (p : string) : Prop :=
  (segs = [] /\ p = "") \/ (p <> "" /\ split "." p = segs).

Section Items.
Variable dateParse : string -> bool.

(** What the element [item] at [index] of the array at [currentPath]
    contributes to the detected fields. *)
Definition ofItem (currentPath : string) (index : nat) (item : jsval)
    : list DetectedField :=
  let p := (currentPath ++ "[" ++ string_of_nat index ++ "]")%string in
  match item with
  | JNull => []
  | JArr _ | JObj _ => traverse dateParse item p
  | _ => [mkField dateParse p currentPath item]
  end.
End Items.

(** A response with a nested object and an array of objects. *)
Definition nestedSample : jsval :=
  JObj [("data", JObj [("price", JNum (18732 # 100)); ("note", JNull)]);
        ("items", JArr [JObj [("symbol", JStr "AAPL")]; JStr "MSFT"])].

End DetectorExt.

(** ** Custom adapter: transformation of a response and the quote operation *)

Module Custom.
Import JS FieldMapper Adapters.

Local Open Scope Q_scope.

(** A value stored by [transform]: a value of the response, possibly
    re-cased, or the outcome of a conversion or of floating-point arithmetic
    on such a value ([parseFloat], [new Date], [* 100], [/ 100]), which is
    not evaluated. *)
Inductive Mapped : Type :=
| Plain (v : jsval)
| ParsedFloat (v : jsval)
| ParsedDate (v : jsval)
| Times100 (q : Q)
| Over100 (q : Q).

(** [applyTransform]; [None] is the TypeError that [parseFloat] and
    [new Date] raise on a value that cannot be converted to a primitive. *)
Definition applyTransform (value : jsval) (transform : Transform) : option Mapped :=
  match transform with
  | TUppercase => Some (Plain (match value with JStr s => JStr (toUpperCase s) | _ => value end))
  | TLowercase => Some (Plain (match value with JStr s => JStr (toLowerCase s) | _ => value end))
  | TParseFloat => if raisesToPrimitive value then None else Some (ParsedFloat value)
  | TParseDate => if raisesToPrimitive value then None else Some (ParsedDate value)
  | TMultiply100 => Some (match value with JNum q => Times100 q | _ => Plain value end)
  | TDivide100 => Some (match value with JNum q => Over100 q | _ => Plain value end)
  | TNone => Some (Plain value)
  end.

(** The result object of [transform]: its own properties in insertion order
    (target fields are names of canonical fields, none of which is an array
    index, so enumeration order is insertion order). *)
Definition Result : Type := list (string * Mapped).

(** [result[target] = v]: adds or replaces an own property.  For the target
    [__proto__] the assignment goes to the setter that the result inherits
    from [Object.prototype]: no own property is added. *)
Definition assign (target : string) (v : Mapped) (result : Result) : Result :=
  if String.eqb target "__proto__" then result
  else Registry.map_set target v result.

(** [mapping.defaultValue !== undefined] *)
Definition definedDefault (mapping : ApiFieldMapping) : option jsval :=
  match defaultValue mapping with
  | Some JUndefined | None => None
  | Some d => Some d
  end.

(** [if (mapping.defaultValue !== undefined) result[target] = defaultValue] *)
Definition storeDefault (mapping : ApiFieldMapping) (result : Result) : Result :=
  match definedDefault mapping with
  | Some d => assign (targetField mapping) (Plain d) result
  | None => result
  end.

(** One iteration of the loop of [transform]: the [catch] arm runs when
    [applyTransform] raises ([extractValue] never does). *)
Definition transformOne (rawResponse : jsval) (result : Result)
    (mapping : ApiFieldMapping) : Result :=
  let value := extractValue rawResponse (sourceField mapping) in
  if negb (is_nullish value)
  then match applyTransform value (FieldMapper.transform mapping) with
       | Some v => assign (targetField mapping) v result
       | None => storeDefault mapping result
       end
  else storeDefault mapping result.

(** [transform(rawResponse, mappings)] *)
Definition transform (rawResponse : jsval) (mappings : list ApiFieldMapping) : Result :=
  fold_left (transformOne rawResponse) mappings [].

(** The own property [name] of the result object, if it has one. *)
Definition field_of (result : Result) (name : string) : option Mapped :=
  Registry.map_get name result.

(** What one iteration stores under the target of its mapping (a target other
    than [__proto__]): the transformed value, or the default when the value
    is null or undefined or the transformation raises. *)
Definition stored (raw : jsval) (m : ApiFieldMapping) : option Mapped :=
  let value := extractValue raw (sourceField m) in
  if is_nullish value then option_map Plain (definedDefault m)
  else match applyTransform value (FieldMapper.transform m) with
       | Some v => Some v
       | None => option_map Plain (definedDefault m)
       end.

(** ** Configuration *)

Inductive AuthType : Type := AuthNone | ApiKey | BearerToken | BasicAuth | CustomHeader.

Record AuthConfig : Type := {
  apiKeyParam : option string;
  headerName : option string;
  headerPrefix : option string;
  username : option string
}.

Record CustomApiEndpoint : Type := {
  ep_url : string;
  ep_headers : list (string * string);
  ep_queryParams : list (string * string)
}.

(** [CustomApiConfiguration], restricted to what the quote operation reads. *)
Record CustomApiConfiguration : Type := {
  authType : AuthType;
  authConfig : AuthConfig;
  quoteEndpoint : option CustomApiEndpoint;          (* endpoints.quote *)
  quoteMappings : list ApiFieldMapping               (* fieldMappings.quote || [] *)
}.

(** [s || fallback] on an optional string. *)
Definition str_or (s : option string) (fallback : string) : string :=
  match s with
  | Some x => if String.eqb x "" then fallback else x
  | None => fallback
  end.

(** [{ ...a, ...b }] on string records. *)
Definition spread (a b : list (string * string)) : list (string * string) :=
  fold_left (fun acc e => Registry.map_set (fst e) (snd e) acc) b a.

(** The first occurrence of [pat] in [l] replaced by [by_]
    ([String.prototype.replace] with a string pattern). *)
Fixpoint replace_first (pat by_ l : list ascii) : list ascii :=
  if starts_with pat l then (by_ ++ skipn (List.length pat) l)%list
  else match l with
       | [] => []
       | c :: l' => c :: replace_first pat by_ l'
       end.

(** [URLSearchParams.set]: the first pair named [key] takes the value, the
    other pairs of that name are removed; a new name is appended. *)
Fixpoint params_set (key : string) (v : QueryValue) (q : list (string * QueryValue))
    : list (string * QueryValue) :=
  match q with
  | [] => [(key, v)]
  | (k, v') :: rest =>
      if String.eqb k key
      then (k, v) :: List.filter (fun e => negb (String.eqb (fst e) key)) rest
      else (k, v') :: params_set key v rest
  end.

Section WithPlatform.
(** [btoa], [encodeURIComponent] and the URL parser ([new URL(text)], which
    raises a TypeError on a text that is not an absolute URL) belong to the
    platform.  [encodeURIComponent] escapes the dollar sign, so its output is
    inserted literally by [replace]. *)
Variable btoa : string -> string.
Variable encodeURIComponent : string -> string.
Variable parseUrl : string -> option Url.

Variable config : CustomApiConfiguration.

(** [getAuthHeaders] *)
Definition getAuthHeaders (credentials : ApiCredentials) : list (string * string) :=
  match authType config with
  | BearerToken =>
      [("Authorization",
        (str_or (headerPrefix (authConfig config)) "Bearer " ++ apiKey credentials)%string)]
  | CustomHeader =>
      match headerName (authConfig config) with
      | Some name =>
          if String.eqb name "" then []
          else [(name, (str_or (headerPrefix (authConfig config)) ""
                        ++ apiKey credentials)%string)]
      | None => []
      end
  | BasicAuth =>
      [("Authorization",
        ("Basic " ++ btoa (match username (authConfig config) with
                           | Some u => u
                           | None => "undefined"
                           end ++ ":" ++ apiKey credentials))%string)]
  | AuthNone | ApiKey => []
  end.

(** [buildCustomUrl(endpoint, params)] for textual parameters; [None] is the
    TypeError of the URL parser. *)
Definition buildCustomUrl (endpoint : CustomApiEndpoint) (params : list (string * string))
    : option Url :=
  let url :=
    fold_left (fun url e =>
      unchars (replace_first (chars ("{" ++ fst e ++ "}"))
                 (chars (encodeURIComponent (snd e))) (chars url)))
      params (ep_url endpoint) in
  match parseUrl url with
  | None => None
  | Some urlObj =>
      let q1 :=
        match authType config, apiKeyParam (authConfig config) with
        | ApiKey, Some name =>
            if String.eqb name "" then query urlObj
            else params_set name
                   (QStr (str_or (Registry.map_get "apiKey" params) ""))
                   (query urlObj)
        | _, _ => query urlObj
        end in
      let q2 :=
        fold_left (fun q e => params_set (fst e) (QStr (snd e)) q)
          (ep_queryParams endpoint) q1 in
      Some {| endpoint := Adapters.endpoint urlObj; query := q2 |}
  end.

(** The body of the [try] block of [getQuote], after the response arrived. *)
Definition quoteOf (r : FetchResult) : Try Result :=
  resp ← responseOf r;
  throwIf (negb (ok resp)) (httpError (status resp)) (
  rawData ← jsonOf resp;
  match validateResponse rawData (quoteMappings config) with
  | e :: _ =>
      ThrowApi (apiError (JStr ("Invalid response structure: " ++ message e))
                  "INVALID_RESPONSE")
  | [] => Value (transform rawData (quoteMappings config))
  end).

(** [CustomApiAdapter.getQuote] *)
Definition getQuote (request : QuoteRequest) (credentials : ApiCredentials)
    : Eff (Outcome Result) :=
  match quoteEndpoint config with
  | None =>
      Ret (Resolved (failed (Text "Quote endpoint not configured for this custom API")))
  | Some endpoint =>
      match buildCustomUrl endpoint [("symbol", q_symbol request)] with
      | None => Ret (catchAll ThrowOther)
      | Some url =>
          Fetch url (spread (getAuthHeaders credentials) (ep_headers endpoint))
                (fun r => Ret (catchAll (quoteOf r)))
      end
  end.

End WithPlatform.

(** The first request an operation issues, with its headers. *)
Definition firstRequest {T : Type} (p : Eff T) : option (Url * list (string * string)) :=
  match p with
  | Ret _ => None
  | Fetch url headers _ => Some (url, headers)
  end.

End Custom.

(** ** Built-in adapters: credential checks and symbol lists *)

Module AdaptersExt.
Import JS Adapters.







(** [items.map(item => item.symbol || item.code)] *)
Fixpoint symbolsOf (items : list jsval) : Try (list jsval) :=
  match items with
  | [] => Value []
  | item :: rest =>
      s ← get item "symbol";
      v ← (if truthy s then Value s else get item "code");
      vs ← symbolsOf rest;
      Value (v :: vs)
  end.

(** [(data.data || []).map(...)]: only arrays have a [map] method among the
    values a JSON body can hold. *)
Definition listedSymbols (d : jsval) : Try (list jsval) :=
  dd ← get d "data";
  match js_or dd (JArr []) with
  | JArr items => symbolsOf items
  | _ => ThrowOther
  end.

(** [catch { return { success: true, data: [] }; }] *)
Definition orEmpty (t : Try (list jsval)) : ApiResponse (list jsval) :=
  match t with
  | Value l => ok_response l
  | ThrowApi _ | ThrowOther => ok_response []
  end.

(** [IndianApiAdapter.getSupportedSymbols] *)
Definition indianApiSupportedSymbols (credentials : ApiCredentials)
    : Eff (ApiResponse (list jsval)) :=
  Fetch {| endpoint := IndianApi.baseUrl ++ "/symbols"; query := [] |}
        (IndianApi.getAuthHeaders credentials)
        (fun r => Ret (orEmpty (
           resp ← responseOf r;
           if negb (ok resp) then Value []
           else d ← jsonOf resp; listedSymbols d))).

(** [getSupportedSymbols] of the Alpha Vantage and Finnhub adapters. *)
Definition noSupportedSymbols (_ : ApiCredentials) : Eff (ApiResponse (list jsval)) :=
  Ret (ok_response []).

End AdaptersExt.

(** ** The API client *)

Module Client.
Import JS Adapters Registry RegistryExt.

(** [UserApiConfig] as the client reads it. *)
Record ClientConfig : Type := {
  cfg : UserApiConfig;
  isActive : bool;
  credentials : ApiCredentials
}.

(** [FinancialApiClient.configurations]: a [Map] keyed by provider id. *)
Definition Configurations : Type := list (string * ClientConfig).

(** [loadConfigurations] *)
Definition loadConfigurations (configs : list ClientConfig) : Configurations :=
  fold_left (fun m config =>
               if isActive config then map_set (providerId (cfg config)) config m else m)
            configs [].

(** [getAvailableProviders] *)
Definition getAvailableProviders (m : Configurations) : list string := List.map fst m.

(** [getConfiguration] *)
Definition getConfiguration (providerId : string) (m : Configurations) : option ClientConfig :=
  map_get providerId m.

Inductive ClientError : Type :=
| NoProviderFor (what : string)        (* 'No configured provider supports ...' *)
| NotConfigured (providerId : string)  (* 'Provider ... is not configured' *)
| NoAdapterFor (providerId : string)   (* 'Failed to create adapter for ...' *)
| OfResult (e : ErrorText)             (* the error of the adapter's result *)
| OfApiError (e : ApiError).           (* the message of a caught rejection *)

(** What [getStockQuote] resolves with, and the configuration whose
    last-used stamp it refreshed in local storage, if any. *)
Record QuoteResult : Type := {
  r_success : bool;
  r_data : option StockQuote;
  r_error : option ClientError;
  r_touched : option string
}.

Definition failure (e : ClientError) : QuoteResult :=
  {| r_success := false; r_data := None; r_error := Some e; r_touched := None |}.

Section WithAdapters.
(** The descriptor and the quote operation of an adapter class registered by
    the application. *)
Variable otherProvider : string -> ApiProvider.
Variable otherQuote : string -> QuoteRequest -> ApiCredentials -> Eff (Outcome StockQuote).

(** [adapter.provider] *)
Definition providerOf (f : Factory) : ApiProvider :=
  match f with
  | NewAlphaVantageAdapter => alphaVantageProvider
  | NewFinnhubAdapter => finnhubProvider
  | NewIndianApiAdapter => indianApiProvider
  | NewOther name => otherProvider name
  end.

(** [getBestProviderForFeature]: the configurations are visited in order and
    each visit resolves (and caches) the adapter of the configuration. *)
Fixpoint getBestProviderForFeature (feature : string) (m : Configurations) (w : World)
    : option string * World :=
  match m with
  | [] => (None, w)
  | (providerId, config) :: rest =>
      let '(adapter, w') := getAdapter (cfg config) w in
      match adapter with
      | Some a =>
          match heap w' !! a with
          | Some f =>
              if supports (providerOf f) feature then (Some providerId, w')
              else getBestProviderForFeature feature rest w'
          | None => getBestProviderForFeature feature rest w'
          end
      | None => getBestProviderForFeature feature rest w'
      end
  end.

(** The tail of [getStockQuote], once the adapter has answered. *)
Definition quoteResult (config : ClientConfig) (o : Outcome StockQuote) : QuoteResult :=
  match o with
  | Resolved r =>
      {| r_success := success r; r_data := data r;
         r_error := option_map OfResult (error r);
         r_touched := if success r then Some (id (cfg config)) else None |}
  | Rejected e => failure (OfApiError e)
  end.

(** [getStockQuote(symbol, preferredProvider)].  An instance that is not on
    the heap has no counterpart in the source; the model answers as if the
    adapter could not be created. *)
Definition getStockQuote (symbol : string) (preferredProvider : option string)
    (m : Configurations) (w : World) : Eff QuoteResult * World :=
  let '(providerId, w1) :=
    match preferredProvider with
    | Some p => if String.eqb p "" then getBestProviderForFeature "real-time-quotes" m w
                else (Some p, w)
    | None => getBestProviderForFeature "real-time-quotes" m w
    end in
  match providerId with
  | None => (Ret (failure (NoProviderFor "real-time quotes")), w1)
  | Some p =>
      if String.eqb p "" then (Ret (failure (NoProviderFor "real-time quotes")), w1)
      else
      match map_get p m with
      | None => (Ret (failure (NotConfigured p)), w1)
      | Some config =>
          match getAdapter (cfg config) w1 with
          | (Some adapter, w2) =>
              match heap w2 !! adapter with
              | Some f =>
                  (mapEff (quoteResult config)
                     (getQuoteOf otherQuote f {| q_symbol := toUpperCase symbol |}
                        (credentials config)), w2)
              | None => (Ret (failure (NoAdapterFor p)), w2)
              end
          | (None, w2) => (Ret (failure (NoAdapterFor p)), w2)
          end
      end
  end.

End WithAdapters.

(** The last element of a list that satisfies a test. *)
Definition find_last {A : Type} (p : A -> bool) (l : list A) : option A :=
  List.find p (rev l).

End Client.

(** ** Store middleware: start-up of the realtime connections *)

Module Middleware.
Import JS WS WSExt.

(** The entry of Finnhub in the table [webSocketConfigs] of
    [initializeWebSocketConnections]. *)
Definition finnhubSocketConfig : WebSocketConfig :=
  {| url := "wss://ws.finnhub.io"; reconnectInterval := Some 5000%Z;
     maxReconnectAttempts := Some 5%Z |}.

(** What [connect] reads from a member that the table inherits from
    [Object.prototype] (a built-in function, or the prototype object): it has
    no [url], [reconnectInterval] or [maxReconnectAttempts], and
    [new WebSocket(undefined)] takes the text "undefined" for the address. *)
Definition inheritedSocketConfig : WebSocketConfig :=
  {| url := "undefined"; reconnectInterval := None; maxReconnectAttempts := None |}.

(** [webSocketConfigs[providerId]] when it is truthy.  The table is an object
    literal with the single own key [finnhub]; the lookup also finds the
    members the literal inherits. *)
Definition webSocketConfigs (providerId : string) : option WebSocketConfig :=
  if String.eqb providerId "finnhub" then Some finnhubSocketConfig
  else if isInherited KObject providerId then Some inheritedSocketConfig
  else None.

(** A user configuration, as the middleware and the manager read it. *)
Record ApiConfig : Type := {
  a_providerId : string;
  a_apiKey : string
}.

(** What [websocketMiddleware] does when a quote request (one symbol) or a
    watchlist request (several) is fulfilled. *)
Definition onQuotesFulfilled (providerId : option string) (symbols : list string)
    (st : Manager) : Manager :=
  match providerId with
  | Some p =>
      if String.eqb p "" then st
      else match getConnectionStatus p st with
           | StatusOpen => subscribe p symbols st
           | _ => st
           end
  | None => st
  end.

Section WithBrowser.
Variable validUrl : string -> bool.

(** One round of the loop of [initializeWebSocketConnections]. *)
Definition initStep (st : Manager) (apiConfig : ApiConfig) : Manager :=
  match webSocketConfigs (a_providerId apiConfig) with
  | Some wsConfig =>
      snd (connect validUrl (a_providerId apiConfig) wsConfig (a_apiKey apiConfig) st)
  | None => st
  end.

(** [initializeWebSocketConnections].  The promise awaited in each round is
    settled already, so no transport event is delivered between two rounds. *)
Definition initializeWebSocketConnections (apiConfigs : list ApiConfig) (st : Manager)
    : Manager :=
  fold_left initStep apiConfigs st.
End WithBrowser.

(** The transport retired by [connect], as a change of the list of
    transports. *)
Definition retired (providerId : string) (st : Manager) : list Socket :=
  match connections st !! providerId with
  | Some ws => sockets (close_socket ws st)
  | None => sockets st
  end.

(** No configuration of the list names its provider by a member that object
    literals inherit. *)
Definition ordinaryProviders (apiConfigs : list ApiConfig) : Prop :=
  Forall (fun c => isInherited KObject (a_providerId c) = false) apiConfigs.

(** The API keys of the Finnhub configurations of a list, in order. *)
Definition finnhubKeys (apiConfigs : list ApiConfig) : list string :=
  List.map a_apiKey
    (List.filter (fun c => String.eqb (a_providerId c) "finnhub") apiConfigs).

(** What holds of the state [st'] reached from [st] once the loop of
    [initializeWebSocketConnections] has gone through configurations whose
    Finnhub keys are [keys]. *)
Definition initialized (st st' : Manager) (keys : list string) : Prop :=
  connectionsLive st' /\
  subscriptions st' = subscriptions st /\
  (forall p, p <> "finnhub" -> connections st' !! p = connections st !! p) /\
  (forall p ws, p <> "finnhub" -> connections st !! p = Some ws ->
     sockets st' !! ws = sockets st !! ws) /\
  List.length (sockets st') = (List.length (sockets st) + List.length keys)%nat /\
  (forall i key, keys !! i = Some key ->
     exists s, sockets st' !! (List.length (sockets st) + i)%nat = Some s /\
               s_provider s = "finnhub" /\ s_apiKey s = key /\
               readyState s = if decide (S i = List.length keys) then CONNECTING
                              else CLOSING) /\
  match keys with
  | [] => st' = st
  | _ :: _ => connections st' !! "finnhub" = Some (List.length (sockets st') - 1)%nat
  end.

End Middleware.

(* ===================================================================== *)
(** * Properties *)
(* ===================================================================== *)

(** ** Field mapper *)

Module FieldMapperProps.
Import JS FieldMapper FieldMapperSpec.

Example split_path : split "." "a.b[0].c" = ["a"; "b[0]"; "c"].
Proof. reflexivity. Qed.

Example match_indexed : arrayMatch "b[0]" = Some ("b", 0%nat).
Proof. reflexivity. Qed.

Example match_nested : arrayMatch "a[1][2]" = Some ("a[1]", 2%nat).
Proof. reflexivity. Qed.

Example match_plain : arrayMatch "[0]" = None.
Proof. reflexivity. Qed.

Example extract_oob : extractValue sample "a.b[1].c" = JUndefined.
Proof. reflexivity. Qed.

Example extract_raise : extractValue sample "x.y[0]" = JUndefined.
Proof. reflexivity. Qed.

Lemma to_uint_nonnil (n : nat) : Nat.to_uint n <> Decimal.Nil.
Proof.
  rewrite <- (Unsigned.of_to n) at 1. rewrite Unsigned.to_of. apply unorm_nonnil.
Qed.

(** The decimal text of a number is the key of that array index. *)
Lemma array_index_of_string_of_nat (n : nat) :
  array_index_of_key (string_of_nat n) = Some n.
Proof.
  unfold array_index_of_key, string_of_nat.
  rewrite (NilZero.usu _ (to_uint_nonnil n)). cbv zeta.
  rewrite Unsigned.of_to, String.eqb_refl. reflexivity.
Qed.

Lemma step_missingKey (props : list (string * jsval)) (key : string) :
  missingKey props key -> step (JObj props) key = Some JUndefined.
Proof.
  intros (Hm & Hl & Hi). unfold step. rewrite Hm. unfold opt_member, member, inherited.
  now rewrite Hl, Hi.
Qed.

Lemma step_indexOutOfRange (props : list (string * jsval)) (key : string) :
  indexOutOfRange props key -> step (JObj props) key = Some JUndefined.
Proof.
  intros (arrayKey & index & items & Hm & Hl & Hlen). unfold step. rewrite Hm.
  unfold member at 1. rewrite Hl.
  unfold opt_index, opt_member, member.
  pose proof (array_index_of_string_of_nat index) as Hidx.
  destruct (String.eqb (string_of_nat index) "length") eqn:E.
  - apply String.eqb_eq in E. rewrite E in Hidx. discriminate Hidx.
  - rewrite Hidx. simpl.
    assert (nth_error items index = None) as -> by (apply nth_error_None; lia).
    reflexivity.
Qed.

Lemma reduce_app (pre post : list string) (v : jsval) :
  reduce (pre ++ post) v =
  match reduce pre v with Some w => reduce post w | None => None end.
Proof.
  revert v. induction pre as [|k pre IH]; intros v; simpl; [reflexivity|].
  destruct (step v k); [apply IH | reflexivity].
Qed.

Lemma step_undefined (key : string) :
  step JUndefined key = Some JUndefined \/ step JUndefined key = None.
Proof.
  unfold step. destruct (arrayMatch key) as [[k i]|]; simpl; auto.
Qed.

(** Once the walk holds [undefined] it ends in [undefined], or raises. *)
Lemma reduce_undefined (keys : list string) :
  reduce keys JUndefined = Some JUndefined \/ reduce keys JUndefined = None.
Proof.
  induction keys as [|k keys IH]; simpl; [auto|].
  destruct (step_undefined k) as [-> | ->]; auto.
Qed.

(** For every value and every path: when the walk has reached an object and
    the next segment names a key the object neither has nor inherits, or an
    index beyond the end of an array it holds, the result is [undefined]. *)
Lemma missing_segment_undefined (obj : jsval) (path : string) (pre post : list string)
    (key : string) (props : list (string * jsval)) :
  split "." path = pre ++ key :: post ->
  reduce pre obj = Some (JObj props) ->
  missingKey props key \/ indexOutOfRange props key ->
  extractValue obj path = JUndefined.
Proof.
  intros Hsplit Hpre Hmiss. unfold extractValue.
  rewrite Hsplit, reduce_app, Hpre. simpl.
  assert (step (JObj props) key = Some JUndefined) as ->.
  { destruct Hmiss; [now apply step_missingKey | now apply step_indexOutOfRange]. }
  destruct (reduce_undefined post) as [-> | ->]; reflexivity.
Qed.

Example extract_missing_key : extractValue sample "a.x.c" = JUndefined.
Proof.
  apply (missing_segment_undefined sample "a.x.c" ["a"] ["c"] "x"
           [("b", JArr [JObj [("c", JNum 5)]])]); [reflexivity | reflexivity|].
  left. repeat split.
Qed.

End FieldMapperProps.

Import JS FieldMapper FieldMapperSpec FieldMapperProps.

(** C5 (the code departs from the claim).  [extractValue] on
    [{a:{b:[{c:5}]}}] with path ["a.b[0].c"] is [5], as the claim says.  But
    [current?.[key]] looks a key up on the prototype chain as well: the object
    under [a] has no key [constructor], and the array under [b] no key [map],
    yet the paths ["a.constructor"] and ["a.b.map"] do not yield [undefined]:
    they yield the built-in members that every object and every array
    inherit, and a required mapping with such a source field is not reported
    missing. *)
Theorem C5_inherited_member_returned :
  extractValue sample "a.b[0].c" = JNum 5 /\
  lookup_prop "constructor" [("b", JArr [JObj [("c", JNum 5)]])] = None /\
  extractValue sample "a.constructor" = JNative (Inherited KObject "constructor") /\
  extractValue sample "a.constructor" <> JUndefined /\
  extractValue sample "a.b.map" = JNative (Inherited KArray "map") /\
  validateResponse sample
    [ {| sourceField := "a.constructor"; targetField := "symbol"; dataType := DString;
         transform := TNone; defaultValue := None; required := true |} ] = [].
Proof.
  repeat split; try reflexivity. discriminate.
Qed.

Lemma validate_fold (response : jsval) (ms : list ApiFieldMapping)
    (acc : list ValidationError) :
  fold_left (validateOne response) (List.filter (fun m => required m) ms) acc =
  acc ++ List.map (fun m => missingRequiredField (sourceField m))
                  (List.filter (is_missing response) ms).
Proof.
  revert acc. induction ms as [|m ms IH]; intros acc; simpl.
  - now rewrite app_nil_r.
  - unfold is_missing at 1. destruct (required m); simpl.
    + rewrite IH. unfold validateOne.
      destruct (is_nullish (extractValue response (sourceField m))); simpl.
      * now rewrite <- app_assoc.
      * reflexivity.
    + apply IH.
Qed.

(** C6. [validateResponse] returns exactly one error per required mapping
    whose extracted value is null or undefined (in mapping order, each naming
    its source field), and no error when every required mapping extracts a
    value that is neither. *)
Theorem C6_validateResponse :
  forall (response : jsval) (mappings : list ApiFieldMapping),
    validateResponse response mappings =
      List.map (fun m => missingRequiredField (sourceField m))
               (List.filter (is_missing response) mappings) /\
    List.length (validateResponse response mappings) =
      List.length (List.filter (is_missing response) mappings) /\
    ((forall m, In m mappings -> required m = true ->
                is_nullish (extractValue response (sourceField m)) = false) ->
     validateResponse response mappings = []).
Proof.
  intros response mappings.
  assert (validateResponse response mappings =
          List.map (fun m => missingRequiredField (sourceField m))
                   (List.filter (is_missing response) mappings)) as E.
  { unfold validateResponse. now rewrite validate_fold. }
  split; [exact E|]. split.
  - rewrite E. apply List.length_map.
  - intros Hall. rewrite E. clear E.
    assert (List.filter (is_missing response) mappings = []) as ->; [|reflexivity].
    induction mappings as [|m ms IH]; [reflexivity|]. simpl.
    assert (is_missing response m = false) as ->.
    { unfold is_missing. destruct (required m) eqn:R; [|reflexivity]. simpl.
      apply Hall; [now left | exact R]. }
    apply IH. intros m' Hin. apply Hall. now right.
Qed.

Lemma C6_validateResponse_witness :
  validateResponse (JObj [("price", JNum 5)])
    [ {| sourceField := "price"; targetField := "price"; dataType := DNumber;
         transform := TNone; defaultValue := None; required := true |} ] = [].
Proof.
  apply (proj2 (proj2 (C6_validateResponse (JObj [("price", JNum 5)])
    [ {| sourceField := "price"; targetField := "price"; dataType := DNumber;
         transform := TNone; defaultValue := None; required := true |} ]))).
  intros m [<-|[]] _. reflexivity.
Defined.

(** ** Structure detector *)

Module DetectorProps.
Import JS FieldMapper Detector DetectorSpec.

Example candidates_symbol :
  targets (findPossibleMappings "symbol" (JStr "AAPL")) =
  [("symbol", 9 # 10); ("symbol", 8 # 10); ("low", 7 # 10)].
Proof. vm_compute. reflexivity. Qed.

Example candidates_price :
  targets (findPossibleMappings "price" (JNum (18732 # 100))) =
  [("price", 9 # 10); ("close", 7 # 10); ("price", 6 # 10)].
Proof. vm_compute. reflexivity. Qed.

Example candidates_timestamp :
  targets (findPossibleMappings "timestamp" (JStr "2024-01-05T00:00:00Z")) =
  [("publishedAt", 9 # 10); ("timestamp", 9 # 10); ("timestamp", 7 # 10)].
Proof. vm_compute. reflexivity. Qed.

End DetectorProps.

Import Detector DetectorSpec DetectorProps.

(** C9. On [{symbol:"AAPL", price:187.32, timestamp:"2024-01-05T00:00:00Z"}]
    with expected kind quote, [detectStructure] suggests mappings for symbol,
    price and timestamp; the symbol and the price mapping are each taken from
    a candidate of confidence 0.9 (at least 0.5), and the overall confidence is
    high (so medium or high).  This holds whatever texts [Date.parse]
    accepts. *)
Theorem C9_detectStructure_quote :
  forall (dateParse : string -> bool) (endpoint : string),
    let d := detectStructure dateParse endpoint quoteSample Quote in
    List.map targetField (suggestedMappings d) = ["symbol"; "price"; "timestamp"] /\
    List.map sourceField (suggestedMappings d) = ["symbol"; "price"; "timestamp"] /\
    selected_with d [] "symbol" (9 # 10) /\
    selected_with d ["symbol"] "price" (9 # 10) /\
    (5 # 10 <= 9 # 10)%Q /\
    (overall d = Medium \/ overall d = High).
Proof.
  intros dateParse endpoint d.
  assert (detectedFields d =
          [mkField dateParse "symbol" "symbol" (JStr "AAPL");
           mkField dateParse "price" "price" (JNum (18732 # 100));
           mkField dateParse "timestamp" "timestamp" (JStr "2024-01-05T00:00:00Z")]) as Hfields
      by reflexivity.
  split; [vm_compute; reflexivity|].
  split; [vm_compute; reflexivity|].
  split.
  { exists {| m_candidate := {| c_targetField := "symbol"; confidence := 9 # 10;
                                reason := NameMatches "symbol" "symbol" |};
              m_field := mkField dateParse "symbol" "symbol" (JStr "AAPL") |}.
    split; [vm_compute; reflexivity|].
    split; [reflexivity|]. split; [reflexivity|].
    split; [vm_compute; left; reflexivity|].
    split; [rewrite Hfields; left; reflexivity|].
    vm_compute. left. reflexivity. }
  split.
  { exists {| m_candidate := {| c_targetField := "price"; confidence := 9 # 10;
                                reason := NameMatches "price" "price" |};
              m_field := mkField dateParse "price" "price" (JNum (18732 # 100)) |}.
    split; [vm_compute; reflexivity|].
    split; [reflexivity|]. split; [reflexivity|].
    split; [vm_compute; left; reflexivity|].
    split; [rewrite Hfields; right; left; reflexivity|].
    vm_compute. right. left. reflexivity. }
  split; [vm_compute; discriminate|].
  right. vm_compute. reflexivity.
Qed.

(** ** Built-in adapters *)

Module AdapterProps.
Import JS Adapters AdapterSpec.

Lemma catchAll_success {T : Type} (t : Try T) (q : T) :
  (match catchAll t with Resolved r => if success r then data r else None | Rejected _ => None end)
    = Some q -> t = Value q.
Proof. destruct t; simpl; intros H; congruence. Qed.

Ltac step_try :=
  match goal with
  | H : context [bindTry ?t _] |- _ => destruct t eqn:?; simpl in H; try discriminate H
  | H : context [throwIf ?c _ _] |- _ => destruct c eqn:?; simpl in H; try discriminate H
  | H : context [if ?c then _ else _] |- _ => destruct c eqn:?; simpl in H; try discriminate H
  | H : context [let '(_, _) := ?p in _] |- _ => destruct p; simpl in H
  end.

(** Every successful quote of a built-in adapter has its currency set. *)
Lemma currency_populated (request : QuoteRequest) (credentials : ApiCredentials)
    (network : Url -> FetchResult) (q : StockQuote) :
  quote_of (run network (AlphaVantage.getQuote request credentials)) = Some q \/
  quote_of (run network (Finnhub.getQuote request credentials)) = Some q \/
  quote_of (run network (IndianApi.getQuote request credentials)) = Some q ->
  currency q = "USD" \/ currency q = "INR".
Proof.
  unfold quote_of, AlphaVantage.getQuote, Finnhub.getQuote, IndianApi.getQuote.
  cbn [run fst].
  intros [H | [H | H]]; apply catchAll_success in H.
  - unfold AlphaVantage.quoteOf, mbind, Try_bind in H.
    repeat step_try. inversion H. left. reflexivity.
  - unfold Finnhub.quoteOf, mbind, Try_bind in H.
    repeat step_try. inversion H. left. reflexivity.
  - unfold IndianApi.quoteOf, mbind, Try_bind in H.
    repeat step_try; inversion H; right; reflexivity.
Qed.

(** Finnhub upper-cases the requested symbol. *)
Lemma finnhub_symbol_upperCased (request : QuoteRequest) (credentials : ApiCredentials)
    (network : Url -> FetchResult) (q : StockQuote) :
  quote_of (run network (Finnhub.getQuote request credentials)) = Some q ->
  symbol q = JStr (toUpperCase (q_symbol request)).
Proof.
  unfold quote_of, Finnhub.getQuote. cbn [run fst].
  intros H; apply catchAll_success in H.
  unfold Finnhub.quoteOf, mbind, Try_bind in H.
  repeat step_try. inversion H. reflexivity.
Qed.

Lemma not_upperCased_aapl : ~ upperCased (JStr "aapl").
Proof. intros [s [E H]]. injection E as <-. vm_compute in H. discriminate H. Qed.

Lemma not_upperCased_reliance : ~ upperCased (JStr "reliance").
Proof. intros [s [E H]]. injection E as <-. vm_compute in H. discriminate H. Qed.

End AdapterProps.

Import Adapters AdapterSpec AdapterProps.

(** C3 (the code departs from the claim).  Alpha Vantage and Indian API copy
    the symbol of the provider's answer into the quote as it is: requested
    with "AAPL" (resp. "RELIANCE") and answered with a lower-case symbol, both
    succeed with a quote whose currency is set but whose symbol is not
    upper-cased. *)
Theorem C3_symbol_not_upperCased :
  (exists q : StockQuote,
      quote_of (run (fun _ => alphaVantageAnswer)
                    (AlphaVantage.getQuote {| q_symbol := "AAPL" |} {| apiKey := "k" |}))
        = Some q /\
      currency q = "USD" /\ symbol q = JStr "aapl" /\ ~ upperCased (symbol q)) /\
  (exists q : StockQuote,
      quote_of (run (fun _ => indianApiAnswer)
                    (IndianApi.getQuote {| q_symbol := "RELIANCE" |} {| apiKey := "k" |}))
        = Some q /\
      currency q = "INR" /\ symbol q = JStr "reliance" /\ ~ upperCased (symbol q)).
Proof.
  split.
  - eexists. split; [vm_compute; reflexivity|]. cbn [currency symbol].
    repeat split. apply not_upperCased_aapl.
  - eexists. split; [vm_compute; reflexivity|]. cbn [currency symbol].
    repeat split. apply not_upperCased_reliance.
Qed.

(** A name outside the tables' keys and outside the inherited names reads
    [undefined] in each table. *)
Lemma unlisted_interval (i : string) :
  ~ In i supportedIntervals -> isInherited KObject i = false ->
  opt_member AlphaVantage.functionMap i = JUndefined /\
  opt_member Finnhub.resolutionMap i = JUndefined /\
  opt_member IndianApi.intervalMap i = JUndefined.
Proof.
  intros Hout Hinh.
  assert (forall k, In k supportedIntervals -> String.eqb k i = false) as Hne.
  { intros k Hk. apply String.eqb_neq. intros ->. now apply Hout. }
  unfold opt_member, member, AlphaVantage.functionMap, Finnhub.resolutionMap,
    IndianApi.intervalMap, inherited. cbn [lookup_prop].
  rewrite !Hne by (cbn; tauto). now rewrite Hinh.
Qed.

(** An interval that is neither a key of the table nor a name the table
    inherits is rejected before any network call. *)
Lemma unsupported_interval_rejected {Points : Type}
    (decode : HistoricalDataRequest -> FetchResult -> Outcome Points)
    (now : Z) (network : Url -> FetchResult)
    (request : HistoricalDataRequest) (credentials : ApiCredentials) :
  ~ In (interval request) supportedIntervals ->
  isInherited KObject (interval request) = false ->
  run network (AlphaVantage.getHistoricalData decode request credentials)
    = rejectedLocally request /\
  run network (Finnhub.getHistoricalData decode now request credentials)
    = rejectedLocally request /\
  run network (IndianApi.getHistoricalData decode request credentials)
    = rejectedLocally request.
Proof.
  intros Hout Hinh.
  destruct (unlisted_interval (interval request) Hout Hinh) as (E1 & E2 & E3).
  unfold AlphaVantage.getHistoricalData, Finnhub.getHistoricalData,
    IndianApi.getHistoricalData. rewrite E1, E2, E3. repeat split.
Qed.

(** C4 (the code departs from the claim).  The intervals "2day" and "4hour"
    are rejected with the failure "Unsupported interval: .." and no network
    call, as the claim says.  But [table[request.interval]] finds the members
    that the table inherits as well: the interval "constructor" is a key of
    none of the three tables, yet the guard [if (!func)] passes for it and
    each adapter issues its network call, with the text of the inherited
    function as a query parameter; the outcome is whatever the provider's
    answer decodes to. *)
Theorem C4_inherited_interval_fetches :
  forall (Points : Type)
         (decode : HistoricalDataRequest -> FetchResult -> Outcome Points)
         (now : Z) (network : Url -> FetchResult)
         (sym : string) (f t l : option Z) (credentials : ApiCredentials),
    Forall (fun i =>
        let request := historical sym i f t l in
        run network (AlphaVantage.getHistoricalData decode request credentials)
          = rejectedLocally request /\
        run network (Finnhub.getHistoricalData decode now request credentials)
          = rejectedLocally request /\
        run network (IndianApi.getHistoricalData decode request credentials)
          = rejectedLocally request) ["2day"; "4hour"] /\
    ~ In "constructor" supportedIntervals /\
    let request := historical sym "constructor" f t l in
    (exists url,
        run network (AlphaVantage.getHistoricalData decode request credentials)
          = (decode request (network url), [url]) /\
        query url = [("function", QText objectConstructor);
                     ("symbol", QStr (validateSymbol sym));
                     ("apikey", QStr (apiKey credentials))]) /\
    (exists url,
        run network (Finnhub.getHistoricalData decode now request credentials)
          = (decode request (network url), [url]) /\
        In ("resolution", QText objectConstructor) (query url)) /\
    (exists url,
        run network (IndianApi.getHistoricalData decode request credentials)
          = (decode request (network url), [url]) /\
        In ("interval", QText objectConstructor) (query url)).
Proof.
  intros Points decode now network sym f t l credentials.
  split.
  { repeat constructor;
      apply (unsupported_interval_rejected decode now network _ credentials);
      try reflexivity; cbn; intuition discriminate. }
  split; [cbn; intuition discriminate|].
  intros request. subst request. split; [|split].
  - eexists. split; [reflexivity|]. reflexivity.
  - eexists. split; [reflexivity|]. cbn. right. left. reflexivity.
  - eexists. split; [reflexivity|]. cbn. right. left. reflexivity.
Qed.

(** A supported interval does reach the network. *)
Lemma supported_interval_fetches :
  snd (run (fun _ => NetworkFailure)
         (Finnhub.getHistoricalData (Points := unit) (fun _ _ => Resolved (ok_response tt)) 0%Z
            {| h_symbol := "aapl"; interval := "1hour";
               from := Some 0%Z; to := Some 86400000%Z; limit := None |}
            {| apiKey := "k" |}))
  = [ {| endpoint := "https://finnhub.io/api/v1/stock/candle";
         query := [("symbol", QStr "AAPL"); ("resolution", QStr "60");
                   ("from", QNum 0); ("to", QNum 86400)] |} ].
Proof. vm_compute. reflexivity. Qed.

(** ** Provider catalog and adapter factory *)

Module RegistryProps.
Import JS Registry RegistrySpec.

Lemma map_get_set {V : Type} (key : string) (v : V) (m : list (string * V)) :
  map_get key (map_set key v m) = Some v.
Proof.
  induction m as [|[k v'] m IH]; simpl.
  - now rewrite String.eqb_refl.
  - destruct (String.eqb k key) eqn:E; simpl; rewrite E; [reflexivity | exact IH].
Qed.

Lemma map_get_set_ne {V : Type} (key key' : string) (v : V) (m : list (string * V)) :
  key <> key' -> map_get key' (map_set key v m) = map_get key' m.
Proof.
  intros Hne. induction m as [|[k v'] m IH]; simpl.
  - destruct (String.eqb key key') eqn:E; [|reflexivity].
    apply String.eqb_eq in E. contradiction.
  - destruct (String.eqb k key) eqn:E; simpl.
    + apply String.eqb_eq in E. subst k.
      destruct (String.eqb key key') eqn:E'; [|reflexivity].
      apply String.eqb_eq in E'. contradiction.
    + destruct (String.eqb k key'); [reflexivity | exact IH].
Qed.

(** Resolving the same configuration again returns the same instance and
    leaves the world as it is. *)
Lemma getAdapter_again (config : UserApiConfig) (w w1 : World) (a : option Instance) :
  getAdapter config w = (a, w1) -> getAdapter config w1 = (a, w1).
Proof.
  unfold getAdapter, map_has.
  destruct (map_get (cacheKey config) (instances w)) as [a0|] eqn:Hget.
  - intros H. injection H as <- <-. now rewrite Hget.
  - unfold createAdapter.
    destruct (adapters w !! providerId config) as [f|] eqn:Hf; simpl.
    + intros H. injection H as <- <-. simpl. now rewrite map_get_set.
    + intros H. injection H as <- <-. now rewrite Hget, Hf.
Qed.

Lemma getAdapter_cases (config : UserApiConfig) (w w1 : World) (r : option Instance) :
  getAdapter config w = (r, w1) ->
  (w1 = w /\ map_get (cacheKey config) (instances w) = r) \/
  (exists f, map_get (cacheKey config) (instances w) = None /\
             r = Some (List.length (heap w)) /\
             instances w1 = map_set (cacheKey config) (List.length (heap w)) (instances w) /\
             heap w1 = heap w ++ [f]).
Proof.
  unfold getAdapter, map_has.
  destruct (map_get (cacheKey config) (instances w)) as [a|] eqn:Hget.
  - intros [= <- <-]. left. now split.
  - unfold createAdapter.
    destruct (adapters w !! providerId config) as [f|]; simpl.
    + intros [= <- <-]. right. exists f. simpl. repeat split. 
    + intros [= <- <-]. left. now split.
Qed.

Lemma getAdapter_sound (config : UserApiConfig) (w w1 : World) (r : option Instance) :
  cacheSound w -> getAdapter config w = (r, w1) -> cacheSound w1.
Proof.
  intros [Hbound Hinj] H.
  destruct (getAdapter_cases config w w1 r H) as [[-> _] | [f [Hnone [_ [Hi Hh]]]]];
    [now split|].
  assert (forall k i, map_get k (instances w1) = Some i ->
                      (k = cacheKey config /\ i = List.length (heap w)) \/
                      (k <> cacheKey config /\ map_get k (instances w) = Some i)) as Hsplit.
  { intros k i. rewrite Hi. destruct (string_dec (cacheKey config) k) as [<-|Hne].
    - rewrite map_get_set. intros [= <-]. now left.
    - rewrite map_get_set_ne by exact Hne. intros Hk. right. split; [congruence | exact Hk]. }
  split.
  - intros k i Hk. rewrite Hh, List.length_app. simpl.
    destruct (Hsplit k i Hk) as [[_ ->] | [_ Hold]]; [lia|].
    specialize (Hbound k i Hold). lia.
  - intros k1 k2 i H1 H2.
    destruct (Hsplit k1 i H1) as [[-> E1] | [N1 O1]];
      destruct (Hsplit k2 i H2) as [[-> E2] | [N2 O2]].
    + reflexivity.
    + subst i. specialize (Hbound k2 _ O2). lia.
    + subst i. specialize (Hbound k1 _ O1). lia.
    + exact (Hinj k1 k2 i O1 O2).
Qed.

Lemma cacheSound_initial : cacheSound initial.
Proof. split; intros; discriminate. Qed.

(** Two configurations whose cache keys differ resolve to distinct
    instances. *)
Lemma getAdapter_distinct_keys (c1 c2 : UserApiConfig) (w w1 w2 : World)
    (a1 a2 : Instance) :
  cacheSound w -> cacheKey c1 <> cacheKey c2 ->
  getAdapter c1 w = (Some a1, w1) -> getAdapter c2 w1 = (Some a2, w2) -> a1 <> a2.
Proof.
  intros Hs Hne H1 H2.
  pose proof (getAdapter_sound c1 w w1 _ Hs H1) as [Hbound Hinj].
  assert (map_get (cacheKey c1) (instances w1) = Some a1) as Hc1.
  { destruct (getAdapter_cases c1 w w1 _ H1) as [[-> E] | [f [_ [[= ->] [-> _]]]]];
      [exact E | apply map_get_set]. }
  destruct (getAdapter_cases c2 w1 w2 _ H2) as [[_ E] | [f [_ [[= ->] _]]]].
  - intros <-. apply Hne. exact (Hinj _ _ _ Hc1 E).
  - specialize (Hbound _ _ Hc1). lia.
Qed.

End RegistryProps.

Import Registry RegistrySpec RegistryProps.

(** C1 (the code departs from the claim).  Two calls with the same
    configuration return the same instance; but the cache key is the text
    providerId-id, so the configurations (alpha-vantage, x) and
    (alpha, vantage-x), which differ in both components, share the key
    alpha-vantage-x: after the first is resolved, the second is handed the
    very same instance, although no provider "alpha" is registered. *)
Theorem C1_key_collision :
  let '(a1, w1) := getAdapter configA Registry.initial in
  let '(a2, w2) := getAdapter configA w1 in
  let '(b, w3) := getAdapter configB w2 in
  providerId configA <> providerId configB /\
  id configA <> id configB /\
  a1 = Some 3%nat /\ a2 = a1 /\ b = a1 /\
  w2 = w1 /\ w3 = w1 /\
  adapters Registry.initial !! providerId configB = None /\
  fst (getAdapter configB Registry.initial) = None.
Proof. vm_compute. repeat split; discriminate. Qed.

(** C2 (the code departs from the claim).  With the configurations
    (finnhub, x-1) and (finnhub, 1) cached in that order, [clearCache("1")]
    removes the first key ending in "-1", which belongs to x-1, stops, and
    leaves the entry of configuration 1 in the cache.  Without argument the
    cache is emptied. *)
Theorem C2_clearCache_wrong_entry :
  let w := snd (getAdapter configShort (snd (getAdapter configLong Registry.initial))) in
  instances w = [("finnhub-x-1", 3%nat); ("finnhub-1", 4%nat)] /\
  instances (clearCache (Some "1") w) = [("finnhub-1", 4%nat)] /\
  cached configShort (clearCache (Some "1") w) = Some 4%nat /\
  cached configLong (clearCache (Some "1") w) = None /\
  instances (clearCache None w) = [].
Proof. vm_compute. repeat split. Qed.

(** ** Realtime connection manager *)

Module WSProps.
Import JS WS WSSpec.

Lemma scheduledDelays_emit (p : string) (e : Effect) (st : Manager) :
  scheduledDelays p (emit e st) =
  scheduledDelays p st ++
    match e with
    | Scheduled q delay _ => if String.eqb q p then [delay] else []
    | _ => []
    end.
Proof.
  unfold scheduledDelays. simpl. rewrite flat_map_app. simpl.
  now rewrite app_nil_r.
Qed.

Lemma scheduledDelays_emit_other (p : string) (e : Effect) (st : Manager) :
  match e with Scheduled _ _ _ => False | _ => True end ->
  scheduledDelays p (emit e st) = scheduledDelays p st.
Proof.
  intros H. rewrite scheduledDelays_emit. destruct e; try contradiction;
    apply app_nil_r.
Qed.

(** What [attemptReconnect] does, by cases on the attempt count. *)
Lemma attemptReconnect_spec (p : string) (config : WebSocketConfig) (apiKey : string)
    (st : Manager) :
  ((attemptsOf p st < maxAttemptsOf config)%Z ->
   scheduledDelays p (attemptReconnect p config apiKey st) =
     scheduledDelays p st ++ [(intervalOf config * 2 ^ attemptsOf p st)%Z] /\
   pending (attemptReconnect p config apiKey st) =
     pending st ++ [ {| t_id := nextTimer st; t_provider := p; t_config := config;
                        t_apiKey := apiKey; t_attempts := attemptsOf p st;
                        t_delay := (intervalOf config * 2 ^ attemptsOf p st)%Z |} ] /\
   reconnectTimers (attemptReconnect p config apiKey st) !! p = Some (nextTimer st)) /\
  ((maxAttemptsOf config <= attemptsOf p st)%Z ->
   attemptReconnect p config apiKey st = st).
Proof.
  unfold attemptReconnect. split; intros H.
  - destruct (Z.leb_spec (maxAttemptsOf config) (attemptsOf p st)) as [Hle|Hlt]; [lia|].
    split; [|split].
    + unfold scheduledDelays. simpl. rewrite flat_map_app. simpl.
      now rewrite String.eqb_refl.
    + reflexivity.
    + simpl. apply lookup_insert_eq.
  - destruct (Z.leb_spec (maxAttemptsOf config) (attemptsOf p st)) as [Hle|Hlt];
      [reflexivity | lia].
Qed.

(** ** Disconnect *)

(** When every pending timer of the provider is the one recorded in
    [reconnectTimers], [disconnect] leaves no pending timer, no attempt count,
    no recorded timer and no connection for that provider. *)
Lemma disconnect_cancels_tracked (p : string) (st : Manager) :
  (forall t, In t (pending st) -> t_provider t = p ->
             reconnectTimers st !! p = Some (t_id t)) ->
  (forall t, In t (pending (disconnect p st)) -> t_provider t <> p) /\
  reconnectAttempts (disconnect p st) !! p = None /\
  reconnectTimers (disconnect p st) !! p = None /\
  connections (disconnect p st) !! p = None.
Proof.
  intros Htracked. unfold disconnect.
  set (st1 := match connections st !! p with
              | Some ws => set_connections (delete p) (close_socket ws st)
              | None => st
              end).
  assert (pending st1 = pending st) as Hp by (subst st1; destruct (connections st !! p); reflexivity).
  assert (reconnectTimers st1 = reconnectTimers st) as Ht
      by (subst st1; destruct (connections st !! p); reflexivity).
  assert (connections st1 !! p = None) as Hc.
  { subst st1. destruct (connections st !! p) eqn:E; simpl; [apply lookup_delete_eq | exact E]. }
  rewrite Ht.
  destruct (reconnectTimers st !! p) as [timer|] eqn:E; simpl.
  - repeat split.
    + intros t Hin Hprov. rewrite Hp in Hin. apply filter_In in Hin as [Hin Hne].
      specialize (Htracked t Hin Hprov).
      injection Htracked as ->. rewrite Nat.eqb_refl in Hne. discriminate Hne.
    + apply lookup_delete_eq.
    + apply lookup_delete_eq.
    + exact Hc.
  - repeat split.
    + intros t Hin Hprov. rewrite Hp in Hin.
      specialize (Htracked t Hin Hprov). discriminate Htracked.
    + apply lookup_delete_eq.
    + rewrite Ht. exact E.
    + exact Hc.
Qed.

(** ** Handler sets *)

Lemma set_has_In (x : nat) (l : list nat) : set_has Nat.eqb x l = true <-> In x l.
Proof.
  unfold set_has. rewrite existsb_exists. split.
  - intros [y [Hin Heq]]. apply Nat.eqb_eq in Heq. now subst y.
  - intros Hin. exists x. split; [exact Hin | apply Nat.eqb_refl].
Qed.

Lemma set_add_In (x : nat) (l : list nat) : In x (set_add Nat.eqb x l).
Proof.
  unfold set_add. destruct (set_has Nat.eqb x l) eqn:E.
  - now apply set_has_In.
  - apply in_or_app. right. now left.
Qed.

Lemma set_add_NoDup (x : nat) (l : list nat) :
  List.NoDup l -> List.NoDup (set_add Nat.eqb x l).
Proof.
  intros Hnd. unfold set_add. destruct (set_has Nat.eqb x l) eqn:E; [exact Hnd|].
  apply List.NoDup_app; [exact Hnd | repeat constructor; intros [] |].
  intros y Hy [<-|[]]. apply set_has_In in Hy. congruence.
Qed.

Lemma set_add_again (x : nat) (l : list nat) :
  set_add Nat.eqb x (set_add Nat.eqb x l) = set_add Nat.eqb x l.
Proof.
  unfold set_add at 1.
  assert (set_has Nat.eqb x (set_add Nat.eqb x l) = true) as ->; [|reflexivity].
  apply set_has_In, set_add_In.
Qed.

(** Registering a handler a second time changes nothing. *)
Lemma addHandler_again (p : string) (h : nat) (st : Manager) :
  addHandler p h (addHandler p h st) = addHandler p h st.
Proof.
  unfold addHandler, set_handlers. simpl. rewrite lookup_insert_eq. simpl.
  rewrite set_add_again, insert_insert_eq. reflexivity.
Qed.

Lemma handlers_send_fold (ws : nat) (mk : string -> jsval) (symbols : list string)
    (st : Manager) :
  handlers (fold_left (fun st' symbol => send ws (mk symbol) st') symbols st) = handlers st.
Proof. revert st. induction symbols as [|x l IH]; intros st; simpl; [reflexivity|]. now rewrite IH. Qed.

Lemma handlers_sendSubscriptionMessage (ws : nat) (p : string) (a : Action)
    (symbols : list string) (st : Manager) :
  handlers (sendSubscriptionMessage ws p a symbols st) = handlers st.
Proof.
  unfold sendSubscriptionMessage.
  destruct (String.eqb p "finnhub"); [apply handlers_send_fold|].
  destruct (String.eqb p "alpha-vantage"); reflexivity.
Qed.

Lemma handlers_authenticateConnection (ws : nat) (p key : string) (st : Manager) :
  handlers (authenticateConnection ws p key st) = handlers st.
Proof.
  unfold authenticateConnection.
  destruct (String.eqb p "finnhub"); [reflexivity|].
  destruct (String.eqb p "alpha-vantage"); reflexivity.
Qed.

Lemma emit_fold (msg : WebSocketMessage) (hs : list nat) (st : Manager) :
  handlers (fold_left (fun st' h => emit (Invoked h msg) st') hs st) = handlers st /\
  log (fold_left (fun st' h => emit (Invoked h msg) st') hs st) =
    log st ++ List.map (fun h => Invoked h msg) hs.
Proof.
  revert st. induction hs as [|h hs IH]; intros st; simpl.
  - now rewrite app_nil_r.
  - destruct (IH (emit (Invoked h msg) st)) as [-> ->]. simpl.
    now rewrite <- app_assoc.
Qed.

Lemma handlers_handleMessage (p : string) (msg : WebSocketMessage) (st : Manager) :
  handlers (handleMessage p msg st) = handlers st.
Proof.
  unfold handleMessage. destruct (handlers st !! p); [apply emit_fold | reflexivity].
Qed.

Lemma handlers_disconnect (p : string) (st : Manager) :
  handlers (disconnect p st) = handlers st.
Proof.
  unfold disconnect. destruct (connections st !! p); simpl;
    destruct (reconnectTimers st !! p); reflexivity.
Qed.

Lemma handlers_connect (validUrl : string -> bool) (p : string) (config : WebSocketConfig)
    (key : string) (st : Manager) :
  handlers (snd (connect validUrl p config key st)) = handlers st.
Proof.
  unfold connect. destruct (validUrl (url config)); simpl;
    destruct (connections st !! p); try apply handlers_disconnect; reflexivity.
Qed.

Lemma handlers_attemptReconnect (p : string) (config : WebSocketConfig) (key : string)
    (st : Manager) :
  handlers (attemptReconnect p config key st) = handlers st.
Proof.
  unfold attemptReconnect.
  destruct (maxAttemptsOf config <=? attemptsOf p st)%Z; reflexivity.
Qed.

Lemma handlers_subscription_send (ws : nat) (p : string) (a : Action)
    (symbols : list string) (st1 : Manager) :
  handlers (match connections st1 !! p with
            | Some ws =>
                match sockets st1 !! ws with
                | Some s =>
                    match readyState s with
                    | OPEN => sendSubscriptionMessage ws p a symbols st1
                    | _ => st1
                    end
                | None => st1
                end
            | None => st1
            end) = handlers st1.
Proof.
  destruct (connections st1 !! p) as [ws'|]; [|reflexivity].
  destruct (sockets st1 !! ws') as [s|]; [|reflexivity].
  destruct (readyState s); try reflexivity. apply handlers_sendSubscriptionMessage.
Qed.

Lemma handlersDistinct_step (validUrl : string -> bool) (st : Manager) (e : Event) :
  handlersDistinct st -> handlersDistinct (step validUrl st e).
Proof.
  intros Hinv.
  assert (forall st', handlers st' = handlers st -> handlersDistinct st') as Hsame.
  { intros st' E q hs. rewrite E. apply Hinv. }
  destruct e as [p config key|p|p symbols|p symbols|p h|p h| |ws|ws raw|ws|ws|ws code|timer];
    simpl.
  - apply Hsame, handlers_connect.
  - apply Hsame, handlers_disconnect.
  - apply Hsame. unfold subscribe.
    rewrite (handlers_subscription_send 0 p Subscribe). reflexivity.
  - unfold unsubscribe. destruct (subscriptions st !! p); [|exact Hinv].
    apply Hsame. rewrite (handlers_subscription_send 0 p Unsubscribe). reflexivity.
  - intros q hs. unfold addHandler. simpl.
    destruct (decide (p = q)) as [->|Hne].
    + rewrite lookup_insert_eq. intros [= <-]. apply set_add_NoDup.
      destruct (handlers st !! q) as [hs0|] eqn:E; simpl; [now apply (Hinv q) | constructor].
    + rewrite lookup_insert_ne by exact Hne. apply Hinv.
  - unfold removeHandler. destruct (handlers st !! p) as [hs0|] eqn:E; [|exact Hinv].
    intros q hs. simpl. destruct (decide (p = q)) as [->|Hne].
    + rewrite lookup_insert_eq. intros [= <-]. unfold set_delete.
      apply List.NoDup_filter. now apply (Hinv q).
    + rewrite lookup_insert_ne by exact Hne. apply Hinv.
  - intros q hs. unfold cleanup. simpl. rewrite lookup_empty. discriminate.
  - destruct (sockets st !! ws) as [s|]; [|exact Hinv].
    destruct (readyState s); try exact Hinv.
    apply Hsame. unfold onopen.
    match goal with
    | |- handlers (match ?o with _ => _ end) = _ =>
        destruct o as [[|x l]|]
    end; rewrite ?handlers_sendSubscriptionMessage, handlers_authenticateConnection;
      reflexivity.
  - destruct (sockets st !! ws) as [s|]; [|exact Hinv].
    destruct (readyState s); try exact Hinv;
      apply Hsame; unfold onmessage;
      destruct (parseMessage raw (s_provider s)); try reflexivity;
      apply handlers_handleMessage.
  - destruct (sockets st !! ws) as [s|]; [|exact Hinv].
    destruct (readyState s); try exact Hinv;
      apply Hsame; unfold onerror; apply handlers_handleMessage.
  - destruct (sockets st !! ws) as [s|]; [|exact Hinv].
    destruct (readyState s); exact Hinv.
  - destruct (sockets st !! ws) as [s|]; [|exact Hinv].
    destruct (readyState s); try exact Hinv;
      apply Hsame; unfold onclose;
      destruct (code =? 1000)%nat; try reflexivity;
      rewrite handlers_attemptReconnect; reflexivity.
  - destruct (find_timer timer st) as [t|]; [|exact Hinv].
    apply Hsame. unfold reconnectCallback. rewrite handlers_connect. reflexivity.
Qed.

Lemma handlersDistinct_run (validUrl : string -> bool) (events : list Event) (st : Manager) :
  handlersDistinct st -> handlersDistinct (run validUrl events st).
Proof.
  revert st. induction events as [|e l IH]; intros st Hinv; simpl; [exact Hinv|].
  apply IH, handlersDistinct_step, Hinv.
Qed.

Lemma handlersDistinct_initial : handlersDistinct initial.
Proof. intros p hs. simpl. rewrite lookup_empty. discriminate. Qed.

Lemma invoked_map (msg : WebSocketMessage) (hs : list nat) :
  invoked (List.map (fun h => Invoked h msg) hs) = hs.
Proof. induction hs as [|h hs IH]; simpl; [reflexivity | now rewrite IH]. Qed.

Lemma fanOut_handlers (p : string) (msg : WebSocketMessage) (st : Manager) :
  fanOut p msg st = default [] (handlers st !! p).
Proof.
  unfold fanOut, handleMessage. destruct (handlers st !! p) as [hs|]; simpl.
  - destruct (emit_fold msg hs st) as [_ ->].
    rewrite skipn_app, Nat.sub_diag, skipn_all. simpl. apply invoked_map.
  - now rewrite skipn_all.
Qed.

(** ** The cap on reconnect attempts *)

Section Cap.
Variable p : string.

Lemma unchangedFor_refl (st : Manager) : unchangedFor p st st.
Proof. repeat split; auto. Qed.

Lemma unchangedFor_trans (st1 st2 st3 : Manager) :
  unchangedFor p st1 st2 -> unchangedFor p st2 st3 -> unchangedFor p st1 st3.
Proof.
  intros [A1 [B1 C1]] [A2 [B2 C2]]. repeat split.
  - now rewrite A2.
  - now rewrite B2.
  - intros a H. apply C2, C1, H.
Qed.

Lemma unchangedFor_fields (st st' : Manager) :
  reconnectAttempts st' = reconnectAttempts st -> log st' = log st ->
  sockets st' = sockets st -> unchangedFor p st st'.
Proof.
  intros A B C. unfold unchangedFor, scheduledDelays. rewrite A, B, C. auto.
Qed.

Lemma capped_alter (a : Z) (f : Socket -> Socket) (ws : nat) (l : list Socket) :
  (forall s, s_provider (f s) = s_provider s) ->
  (forall s, s_config (f s) = s_config s) ->
  capped p a l -> capped p a (alter f ws l).
Proof.
  intros Hp Hc Hcap ws' s' Hl Hprov.
  destruct (decide (ws = ws')) as [->|Hne].
  - rewrite list_lookup_alter_eq in Hl.
    destruct (l !! ws') as [s0|] eqn:E; simpl in Hl; [|discriminate Hl].
    injection Hl as <-. rewrite Hc. apply (Hcap ws' s0 E). now rewrite <- Hp.
  - rewrite list_lookup_alter_ne in Hl by exact Hne. exact (Hcap ws' s' Hl Hprov).
Qed.

Lemma capped_snoc (a : Z) (s : Socket) (l : list Socket) :
  s_provider s <> p -> capped p a l -> capped p a (l ++ [s]).
Proof.
  intros Hne Hcap ws s' Hl Hprov.
  apply lookup_app_Some in Hl as [Hl | [_ Hl]].
  - exact (Hcap ws s' Hl Hprov).
  - destruct (ws - List.length l)%nat; simpl in Hl; [|discriminate Hl].
    injection Hl as <-. contradiction.
Qed.

Lemma unchangedFor_alter (f : Socket -> Socket) (ws : nat) (st : Manager) :
  (forall s, s_provider (f s) = s_provider s) ->
  (forall s, s_config (f s) = s_config s) ->
  unchangedFor p st (set_sockets (alter f ws) st).
Proof.
  intros Hp Hc. repeat split. intros a. simpl. now apply capped_alter.
Qed.

Lemma unchangedFor_send (ws : nat) (frame : jsval) (st : Manager) :
  unchangedFor p st (send ws frame st).
Proof. apply unchangedFor_alter; reflexivity. Qed.

Lemma unchangedFor_send_fold (ws : nat) (mk : string -> jsval) (symbols : list string)
    (st : Manager) :
  unchangedFor p st (fold_left (fun st' symbol => send ws (mk symbol) st') symbols st).
Proof.
  revert st. induction symbols as [|x l IH]; intros st; simpl.
  - apply unchangedFor_refl.
  - eapply unchangedFor_trans; [apply unchangedFor_send | apply IH].
Qed.

Lemma unchangedFor_sendSubscriptionMessage (ws : nat) (q : string) (a : Action)
    (symbols : list string) (st : Manager) :
  unchangedFor p st (sendSubscriptionMessage ws q a symbols st).
Proof.
  unfold sendSubscriptionMessage.
  destruct (String.eqb q "finnhub"); [apply unchangedFor_send_fold|].
  destruct (String.eqb q "alpha-vantage"); apply unchangedFor_send.
Qed.

Lemma unchangedFor_authenticateConnection (ws : nat) (q key : string) (st : Manager) :
  unchangedFor p st (authenticateConnection ws q key st).
Proof.
  unfold authenticateConnection.
  destruct (String.eqb q "finnhub"); [apply unchangedFor_send|].
  destruct (String.eqb q "alpha-vantage"); apply unchangedFor_send.
Qed.

Lemma unchangedFor_handleMessage (q : string) (msg : WebSocketMessage) (st : Manager) :
  unchangedFor p st (handleMessage q msg st).
Proof.
  unfold handleMessage. destruct (handlers st !! q) as [hs|]; [|apply unchangedFor_refl].
  revert st. induction hs as [|h hs IH]; intros st; simpl.
  - apply unchangedFor_refl.
  - eapply unchangedFor_trans; [|apply IH].
    repeat split; auto. apply scheduledDelays_emit_other. exact I.
Qed.

Lemma unchangedFor_disconnect (q : string) (st : Manager) :
  q <> p -> unchangedFor p st (disconnect q st).
Proof.
  intros Hne. unfold disconnect.
  set (st1 := match connections st !! q with
              | Some ws => set_connections (delete q) (close_socket ws st)
              | None => st
              end).
  assert (unchangedFor p st st1) as H1.
  { subst st1. destruct (connections st !! q) as [ws|]; [|apply unchangedFor_refl].
    repeat split. intros a. simpl. now apply capped_alter. }
  eapply unchangedFor_trans; [exact H1|].
  destruct (reconnectTimers st1 !! q) as [timer|]; repeat split; simpl; auto;
    now apply lookup_delete_ne.
Qed.

Lemma unchangedFor_connect (validUrl : string -> bool) (q : string)
    (config : WebSocketConfig) (key : string) (st : Manager) :
  q <> p -> unchangedFor p st (snd (connect validUrl q config key st)).
Proof.
  intros Hne. unfold connect.
  set (st1 := match connections st !! q with
              | Some _ => disconnect q st
              | None => st
              end).
  assert (unchangedFor p st st1) as H1.
  { subst st1. destruct (connections st !! q);
      [now apply unchangedFor_disconnect | apply unchangedFor_refl]. }
  eapply unchangedFor_trans; [exact H1|].
  destruct (validUrl (url config)); [|apply unchangedFor_refl]. simpl.
  repeat split.
  - unfold scheduledDelays. simpl. rewrite flat_map_app. simpl. now rewrite app_nil_r.
  - intros a. simpl. now apply capped_snoc.
Qed.

Lemma unchangedFor_attemptReconnect_other (q : string) (config : WebSocketConfig)
    (key : string) (st : Manager) :
  q <> p -> unchangedFor p st (attemptReconnect q config key st).
Proof.
  intros Hne. unfold attemptReconnect.
  destruct (maxAttemptsOf config <=? attemptsOf q st)%Z; [apply unchangedFor_refl|].
  repeat split; auto.
  unfold scheduledDelays. simpl. rewrite flat_map_app. simpl.
  destruct (String.eqb_spec q p) as [E|_]; [contradiction | now rewrite app_nil_r].
Qed.

Lemma capped_Forall (a : Z) (l : list Socket) :
  List.Forall (fun s => s_provider s = p -> (maxAttemptsOf (s_config s) <= a)%Z) l ->
  capped p a l.
Proof.
  intros H ws s Hl. rewrite List.Forall_forall in H. apply H.
  apply list_elem_of_In, list_elem_of_lookup. now exists ws.
Qed.

Lemma attemptsOf_unchanged (st st' : Manager) :
  unchangedFor p st st' -> attemptsOf p st' = attemptsOf p st.
Proof. intros [A _]. unfold attemptsOf. now rewrite A. Qed.

Lemma unchangedFor_subscription_send (q : string) (a : Action) (symbols : list string)
    (st1 : Manager) :
  unchangedFor p st1
    (match connections st1 !! q with
     | Some ws =>
         match sockets st1 !! ws with
         | Some s =>
             match readyState s with
             | OPEN => sendSubscriptionMessage ws q a symbols st1
             | _ => st1
             end
         | None => st1
         end
     | None => st1
     end).
Proof.
  destruct (connections st1 !! q) as [ws|]; [|apply unchangedFor_refl].
  destruct (sockets st1 !! ws) as [s|]; [|apply unchangedFor_refl].
  destruct (readyState s); try apply unchangedFor_refl.
  apply unchangedFor_sendSubscriptionMessage.
Qed.

(** A quiet event leaves the counter, the scheduled reconnects and the caps
    of provider [p] as they are, once the counter has reached every cap. *)
Lemma step_unchangedFor (validUrl : string -> bool) (st : Manager) (e : Event) :
  capped p (attemptsOf p st) (sockets st) -> quiet p st e ->
  unchangedFor p st (step validUrl st e).
Proof.
  intros Hcap Hq.
  destruct e as [q config key|q|q symbols|q symbols|q h|q h| |ws|ws raw|ws|ws|ws code|timer];
    simpl in *.
  - now apply unchangedFor_connect.
  - now apply unchangedFor_disconnect.
  - unfold subscribe.
    eapply unchangedFor_trans; [|apply unchangedFor_subscription_send].
    now apply unchangedFor_fields.
  - unfold unsubscribe. destruct (subscriptions st !! q); [|apply unchangedFor_refl].
    eapply unchangedFor_trans; [|apply unchangedFor_subscription_send].
    now apply unchangedFor_fields.
  - now apply unchangedFor_fields.
  - unfold removeHandler. destruct (handlers st !! q); [|apply unchangedFor_refl].
    now apply unchangedFor_fields.
  - contradiction.
  - destruct (sockets st !! ws) as [s|] eqn:Es; [|apply unchangedFor_refl].
    specialize (Hq s eq_refl).
    destruct (readyState s); try apply unchangedFor_refl.
    apply (unchangedFor_trans st (set_readyState ws OPEN st));
      [unfold set_readyState; apply unchangedFor_alter; reflexivity|].
    unfold onopen.
    set (st1 := set_reconnectAttempts _ _).
    assert (unchangedFor p (set_readyState ws OPEN st) st1) as H1.
    { subst st1. repeat split; auto. simpl. now apply lookup_insert_ne. }
    eapply unchangedFor_trans; [exact H1|].
    set (st2 := authenticateConnection _ _ _ _).
    assert (unchangedFor p st1 st2) as H2 by apply unchangedFor_authenticateConnection.
    eapply unchangedFor_trans; [exact H2|].
    destruct (subscriptions st2 !! s_provider s) as [[|x l]|];
      try apply unchangedFor_refl.
    apply unchangedFor_sendSubscriptionMessage.
  - destruct (sockets st !! ws) as [s|]; [|apply unchangedFor_refl].
    destruct (readyState s); try apply unchangedFor_refl;
      unfold onmessage; destruct (parseMessage raw (s_provider s));
      try apply unchangedFor_refl; apply unchangedFor_handleMessage.
  - destruct (sockets st !! ws) as [s|]; [|apply unchangedFor_refl].
    destruct (readyState s); try apply unchangedFor_refl;
      unfold onerror; apply unchangedFor_handleMessage.
  - destruct (sockets st !! ws) as [s|]; [|apply unchangedFor_refl].
    destruct (readyState s); try apply unchangedFor_refl.
    unfold set_readyState; apply unchangedFor_alter; reflexivity.
  - destruct (sockets st !! ws) as [s|] eqn:Es; [|apply unchangedFor_refl].
    assert (unchangedFor p st (onclose s code (set_readyState ws CLOSED st))) as H.
    { apply (unchangedFor_trans st (set_readyState ws CLOSED st));
        [unfold set_readyState; apply unchangedFor_alter; reflexivity|].
      unfold onclose.
      set (st1 := set_connections _ _).
      assert (unchangedFor p (set_readyState ws CLOSED st) st1) as H1
          by (subst st1; now apply unchangedFor_fields).
      destruct (code =? 1000)%nat; [exact H1|].
      eapply unchangedFor_trans; [exact H1|].
      destruct (string_dec (s_provider s) p) as [E|Hne].
      - rewrite E.
        assert (attemptReconnect p (s_config s) (s_apiKey s) st1 = st1) as ->;
          [|apply unchangedFor_refl].
        apply attemptReconnect_spec.
        assert (attemptsOf p st1 = attemptsOf p st) as -> by reflexivity.
        exact (Hcap ws s Es E).
      - now apply unchangedFor_attemptReconnect_other. }
    destruct (readyState s); try exact H. apply unchangedFor_refl.
  - destruct (find_timer timer st) as [t|]; [|apply unchangedFor_refl].
    specialize (Hq t eq_refl). unfold reconnectCallback.
    set (st1 := set_reconnectAttempts _ _).
    assert (unchangedFor p st st1) as H1.
    { subst st1. repeat split; auto.
      - simpl. now apply lookup_insert_ne.
      - unfold scheduledDelays. simpl. rewrite flat_map_app. simpl. now rewrite app_nil_r. }
    eapply unchangedFor_trans; [exact H1|]. now apply unchangedFor_connect.
Qed.

(** Once the counter of [p] has reached the cap of each of its transports,
    no reconnect is scheduled for [p] along any run of quiet events. *)
Lemma capped_run (validUrl : string -> bool) (events : list Event) (st : Manager) :
  capped p (attemptsOf p st) (sockets st) -> quietRun validUrl p events st ->
  unchangedFor p st (run validUrl events st).
Proof.
  revert st. induction events as [|e l IH]; intros st Hcap Hq; simpl.
  - apply unchangedFor_refl.
  - destruct Hq as [Hq Hrest].
    pose proof (step_unchangedFor validUrl st e Hcap Hq) as H1.
    eapply unchangedFor_trans; [exact H1|]. apply IH; [|exact Hrest].
    rewrite (attemptsOf_unchanged _ _ H1). destruct H1 as [_ [_ H1]]. now apply H1.
Qed.

End Cap.

End WSProps.

Import WS WSSpec WSProps.

(** C10.  In every state the manager can reach, registering the same handler
    twice for a provider gives the same state as registering it once, and a
    message fanned out for that provider then invokes the handler exactly
    once. *)
Theorem C10_addHandler_once :
  forall (validUrl : string -> bool) (events : list Event)
         (p : string) (h : nat) (message : WebSocketMessage),
    let st := run validUrl events WS.initial in
    let twice := addHandler p h (addHandler p h st) in
    twice = addHandler p h st /\
    count_occ Nat.eq_dec (default [] (handlers twice !! p)) h = 1%nat /\
    count_occ Nat.eq_dec (fanOut p message twice) h = 1%nat.
Proof.
  intros validUrl events p h message st twice.
  assert (twice = addHandler p h st) as E by apply addHandler_again.
  assert (handlersDistinct st) as Hinv
      by apply handlersDistinct_run, handlersDistinct_initial.
  assert (count_occ Nat.eq_dec (default [] (handlers twice !! p)) h = 1%nat) as Hc.
  { rewrite E. unfold addHandler. simpl. rewrite lookup_insert_eq. simpl.
    apply NoDup_count_occ'; [|apply set_add_In].
    apply set_add_NoDup.
    destruct (handlers st !! p) as [hs0|] eqn:E0; simpl; [now apply (Hinv p) | constructor]. }
  split; [exact E|]. split; [exact Hc|].
  rewrite fanOut_handlers. exact Hc.
Qed.

(** C7 (the code departs from the claim).  [disconnect] cancels the timer
    recorded in [reconnectTimers] and clears the attempt counter, but
    [attemptReconnect] overwrites the recorded timer without cancelling the
    previous one.  After connect, an abnormal close (timer 1 armed), an
    explicit connect before it fires, a second abnormal close (timer 2 armed
    and recorded over timer 1) and [disconnect] (timer 2 cancelled), timer 1
    is still pending; when it fires, the provider is reconnected without any
    explicit connect call. *)
Theorem C7_untracked_timer_fires :
  let st := run anyUrl traceTwoTimers WS.initial in
  scheduledDelays "finnhub" st = [5000%Z; 5000%Z] /\
  pendingFor "finnhub" st = [1%nat] /\
  reconnectTimers st !! "finnhub" = None /\
  reconnectAttempts st !! "finnhub" = None /\
  connections st !! "finnhub" = None /\
  reconnects "finnhub" st = [] /\
  let st' := step anyUrl st (TimerFires 1) in
  reconnects "finnhub" st' = [1%nat] /\
  connections st' !! "finnhub" = Some 2%nat /\
  log st' = log st ++ [Reconnecting "finnhub" 1; NewSocket "finnhub" 2].
Proof. vm_compute. repeat split. Qed.

(** C8, as the claim states it, fails when the reconnected transport opens:
    the counter is reset and the second delay is base * 2^0 again. *)
Lemma C8_counterexample :
  scheduledDelays "finnhub" (run anyUrl (traceReopened (Some 1000%Z)) WS.initial)
    = [1000; 1000]%Z /\
  scheduledDelays "finnhub" (run anyUrl (traceReopened (Some 1000%Z)) WS.initial)
    <> [1000 * 2 ^ 0; 1000 * 2 ^ 1]%Z.
Proof. split; [vm_compute; reflexivity | vm_compute; discriminate]. Qed.

(** C8 (amended).  Every reconnect that [attemptReconnect] schedules has delay
    interval * 2^attempts, where interval is [reconnectInterval] (5000 when
    unset or 0) and attempts the provider's current counter; every abnormal
    close runs [attemptReconnect].  After connect and a first abnormal close
    the delay is interval * 2^0; after the reconnect fired and its transport
    closed abnormally without having opened, it is interval * 2^1, while a
    transport that opened first resets the counter and gets interval * 2^0
    again.  When the counter has reached [maxReconnectAttempts] (5 when unset
    or 0) nothing is scheduled and the state is unchanged; and from a state
    where the counter has reached the cap of every transport of the provider,
    no reconnect is scheduled for it as long as no explicit connect,
    disconnect or cleanup is called for it and none of its earlier transports
    opens or earlier timers fires.  With a cap of two, a third abnormal close
    in a row schedules nothing and leaves no timer pending. *)
Theorem C8_backoff :
  (forall (p : string) (config : WebSocketConfig) (apiKey : string) (st : Manager),
      ((attemptsOf p st < maxAttemptsOf config)%Z ->
       scheduledDelays p (attemptReconnect p config apiKey st) =
         scheduledDelays p st ++ [(intervalOf config * 2 ^ attemptsOf p st)%Z]) /\
      ((maxAttemptsOf config <= attemptsOf p st)%Z ->
       attemptReconnect p config apiKey st = st)) /\
  (forall (s : Socket) (code : nat) (st : Manager),
      code <> 1000%nat ->
      onclose s code st =
        attemptReconnect (s_provider s) (s_config s) (s_apiKey s)
          (set_connections (delete (s_provider s)) st)) /\
  (forall interval : option Z,
      let base := intervalOf (finnhubConfig interval) in
      scheduledDelays "finnhub" (run anyUrl (traceFailedReconnect interval) WS.initial)
        = [base * 2 ^ 0; base * 2 ^ 1]%Z /\
      scheduledDelays "finnhub" (run anyUrl (traceReopened interval) WS.initial)
        = [base * 2 ^ 0; base * 2 ^ 0]%Z) /\
  (forall (validUrl : string -> bool) (p : string) (events : list Event) (st : Manager),
      capped p (attemptsOf p st) (sockets st) ->
      quietRun validUrl p events st ->
      scheduledDelays p (run validUrl events st) = scheduledDelays p st /\
      attemptsOf p (run validUrl events st) = attemptsOf p st) /\
  (scheduledDelays "finnhub" (run anyUrl traceCapped WS.initial) = [1000; 2000]%Z /\
   pendingFor "finnhub" (run anyUrl traceCapped WS.initial) = [] /\
   reconnects "finnhub" (run anyUrl traceCapped WS.initial) = [1%nat; 2%nat]).
Proof.
  split; [|split; [|split; [|split]]].
  - intros p config apiKey st.
    destruct (attemptReconnect_spec p config apiKey st) as [H1 H2].
    split; [intros H; apply (H1 H) | exact H2].
  - intros s code st Hcode. unfold onclose.
    destruct (Nat.eqb_spec code 1000) as [->|_]; [contradiction | reflexivity].
  - intros interval base. subst base. split; vm_compute; reflexivity.
  - intros validUrl p events st Hcap Hq.
    pose proof (capped_run p validUrl events st Hcap Hq) as H.
    split; [apply H | apply (attemptsOf_unchanged p _ _ H)].
  - vm_compute. repeat split.
Qed.

Lemma C8_backoff_witness :
  scheduledDelays "finnhub" (attemptReconnect "finnhub" (finnhubConfig None) "key" WS.initial)
    = scheduledDelays "finnhub" WS.initial ++ [(5000 * 2 ^ 0)%Z] /\
  scheduledDelays "finnhub"
    (run anyUrl [SocketClose 2 1006; SocketError 2] (run anyUrl traceToCap WS.initial))
    = scheduledDelays "finnhub" (run anyUrl traceToCap WS.initial).
Proof.
  split.
  - apply (proj1 (proj1 C8_backoff "finnhub" (finnhubConfig None) "key" WS.initial)).
    vm_compute. reflexivity.
  - apply (proj1 (proj2 (proj2 (proj2 C8_backoff))) anyUrl "finnhub"
             [SocketClose 2 1006; SocketError 2] (run anyUrl traceToCap WS.initial)).
    + apply capped_Forall.
      set (l := sockets (run anyUrl traceToCap WS.initial)). vm_compute in l. subst l.
      repeat constructor; intros _; vm_compute; discriminate.
    + simpl. auto.
Defined.

(* ===================================================================== *)
(** * Further properties *)
(* ===================================================================== *)

(** ** Stable descending sort *)

Module OrderProps.
Import Detector Order.

Local Open Scope Q_scope.

Lemma Qltb_true (a b : Q) : Qltb a b = true <-> a < b.
Proof.
  unfold Qltb. rewrite negb_true_iff. split.
  - intros H. apply Qnot_le_lt. intros Hle. apply Qle_bool_iff in Hle. congruence.
  - intros H. destruct (Qle_bool b a) eqn:E; [|reflexivity].
    apply Qle_bool_iff in E. exfalso. exact (Qlt_not_le _ _ H E).
Qed.

Lemma Qltb_false (a b : Q) : Qltb a b = false <-> b <= a.
Proof.
  unfold Qltb. rewrite negb_false_iff. apply Qle_bool_iff.
Qed.

Lemma firstn_In {A : Type} (n : nat) (l : list A) (y : A) : In y (firstn n l) -> In y l.
Proof.
  revert l. induction n as [|n IH]; intros [|x l]; simpl; try tauto.
  intros [-> | Hy]; [now left | right; now apply IH].
Qed.

Section Sorting.
Context {A : Type} (conf : A -> Q).

Lemma insert_desc_In (x y : A) (l : list A) :
  In y (insert_desc conf x l) <-> y = x \/ In y l.
Proof.
  induction l as [|z l IH]; simpl.
  - intuition.
  - destruct (Qltb (conf x) (conf z)); simpl; [rewrite IH|]; intuition.
Qed.

Lemma sort_desc_In (y : A) (l : list A) : In y (sort_desc conf l) <-> In y l.
Proof.
  induction l as [|x l IH]; simpl; [tauto|].
  rewrite insert_desc_In, IH. intuition.
Qed.

Lemma insert_desc_length (x : A) (l : list A) :
  List.length (insert_desc conf x l) = S (List.length l).
Proof.
  induction l as [|z l IH]; simpl; [reflexivity|].
  destruct (Qltb (conf x) (conf z)); simpl; [now rewrite IH | reflexivity].
Qed.

Lemma sort_desc_length (l : list A) : List.length (sort_desc conf l) = List.length l.
Proof.
  induction l as [|x l IH]; simpl; [reflexivity|].
  now rewrite insert_desc_length, IH.
Qed.

Lemma insert_desc_descending (x : A) (l : list A) :
  descending conf l -> descending conf (insert_desc conf x l).
Proof.
  induction l as [|z l IH]; simpl.
  - intros _. split; [constructor | exact I].
  - intros [Hz Hl]. destruct (Qltb (conf x) (conf z)) eqn:E; simpl.
    + split; [|exact (IH Hl)].
      apply List.Forall_forall. intros y Hy. apply insert_desc_In in Hy as [-> | Hy].
      * apply Qltb_true in E. now apply Qlt_le_weak.
      * rewrite List.Forall_forall in Hz. now apply Hz.
    + apply Qltb_false in E. split; [|split; assumption].
      constructor; [exact E|].
      rewrite List.Forall_forall in Hz |- *. intros y Hy.
      apply Qle_trans with (conf z); [now apply Hz | exact E].
Qed.

Lemma sort_desc_descending (l : list A) : descending conf (sort_desc conf l).
Proof.
  induction l as [|x l IH]; simpl; [exact I|].
  now apply insert_desc_descending.
Qed.

Lemma descending_filter (p : A -> bool) (l : list A) :
  descending conf l -> descending conf (List.filter p l).
Proof.
  induction l as [|x l IH]; simpl; [tauto|].
  intros [Hx Hl]. destruct (p x); simpl; [|exact (IH Hl)].
  split; [|exact (IH Hl)].
  rewrite List.Forall_forall in Hx |- *. intros y Hy.
  apply filter_In in Hy as [Hy _]. now apply Hx.
Qed.

Lemma descending_firstn (n : nat) (l : list A) :
  descending conf l -> descending conf (firstn n l).
Proof.
  revert l. induction n as [|n IH]; intros [|x l]; simpl; try tauto.
  intros [Hx Hl]. split; [|exact (IH l Hl)].
  rewrite List.Forall_forall in Hx |- *. intros y Hy.
  apply Hx. eapply firstn_In; exact Hy.
Qed.

Lemma descending_hd (l : list A) (x y : A) :
  descending conf l -> hd_error l = Some x -> In y l -> conf y <= conf x.
Proof.
  destruct l as [|z l]; simpl; [discriminate|].
  intros [Hz _] [= ->] [-> | Hy]; [apply Qle_refl|].
  rewrite List.Forall_forall in Hz. now apply Hz.
Qed.

End Sorting.

End OrderProps.

(** ** Connection manager: frames, handlers, inbound messages *)

Module WSExtProps.
Import JS WS WSSpec WSProps WSExt.

Lemma framesOnly_refl (st : Manager) : framesOnly st st.
Proof. repeat split. Qed.

Lemma framesOnly_trans (st1 st2 st3 : Manager) :
  framesOnly st1 st2 -> framesOnly st2 st3 -> framesOnly st1 st3.
Proof.
  unfold framesOnly. intros H1 H2.
  destruct H1 as (A1 & B1 & C1 & D1 & E1 & F1 & G1 & H1 & I1).
  destruct H2 as (A2 & B2 & C2 & D2 & E2 & F2 & G2 & H2 & I2).
  repeat split; congruence.
Qed.

Lemma map_core_alter (f : Socket -> Socket) (ws : nat) (l : list Socket) :
  (forall s, core (f s) = core s) ->
  List.map core (alter f ws l) = List.map core l.
Proof.
  intros Hf. revert ws. induction l as [|x l IH]; intros ws; [reflexivity|].
  destruct ws as [|ws]; simpl.
  - now rewrite Hf.
  - f_equal. apply IH.
Qed.

Lemma framesOnly_send (ws : nat) (frame : jsval) (st : Manager) :
  framesOnly st (send ws frame st).
Proof.
  repeat split. simpl. apply map_core_alter. reflexivity.
Qed.

Lemma sentOn_send (ws ws' : nat) (frame : jsval) (st : Manager) :
  ws < List.length (sockets st) ->
  sentOn ws' (send ws frame st) =
  if Nat.eqb ws ws' then sentOn ws' st ++ [frame] else sentOn ws' st.
Proof.
  intros Hlt. unfold sentOn, send. simpl.
  destruct (Nat.eqb_spec ws ws') as [<-|Hne].
  - rewrite list_lookup_alter_eq.
    destruct (sockets st !! ws) as [s|] eqn:E; [reflexivity|].
    apply lookup_ge_None in E. lia.
  - now rewrite list_lookup_alter_ne.
Qed.

Lemma length_send (ws : nat) (frame : jsval) (st : Manager) :
  List.length (sockets (send ws frame st)) = List.length (sockets st).
Proof. unfold send. simpl. apply length_alter. Qed.

Lemma send_fold (ws : nat) (mk : string -> jsval) (symbols : list string) (st : Manager) :
  ws < List.length (sockets st) ->
  let st' := fold_left (fun st' symbol => send ws (mk symbol) st') symbols st in
  framesOnly st st' /\
  sentOn ws st' = sentOn ws st ++ List.map mk symbols /\
  (forall ws', ws' <> ws -> sentOn ws' st' = sentOn ws' st) /\
  List.length (sockets st') = List.length (sockets st).
Proof.
  revert st. induction symbols as [|x l IH]; intros st Hlt; simpl.
  - repeat split. now rewrite app_nil_r.
  - assert (ws < List.length (sockets (send ws (mk x) st))) as Hlt'
        by now rewrite length_send.
    destruct (IH _ Hlt') as (F & S & O & L). split; [|split; [|split]].
    + eapply framesOnly_trans; [apply framesOnly_send | exact F].
    + rewrite S, sentOn_send by exact Hlt. rewrite Nat.eqb_refl.
      now rewrite <- app_assoc.
    + intros ws' Hne. rewrite (O ws' Hne), sentOn_send by exact Hlt.
      destruct (Nat.eqb_spec ws ws'); [congruence | reflexivity].
    + now rewrite L, length_send.
Qed.

(** [sendSubscriptionMessage] writes the subscription frames to the given
    transport and changes nothing else. *)
Lemma sendSubscriptionMessage_frames (ws : nat) (p : string) (a : Action)
    (symbols : list string) (st : Manager) :
  ws < List.length (sockets st) ->
  let st' := sendSubscriptionMessage ws p a symbols st in
  framesOnly st st' /\
  sentOn ws st' = sentOn ws st ++ subscriptionFrames p a symbols /\
  (forall ws', ws' <> ws -> sentOn ws' st' = sentOn ws' st) /\
  List.length (sockets st') = List.length (sockets st).
Proof.
  intros Hlt. unfold sendSubscriptionMessage, subscriptionFrames.
  destruct (String.eqb p "finnhub").
  - apply (send_fold ws (fun symbol => JObj [("type", JStr (action_name a));
                                             ("symbol", JStr symbol)])). exact Hlt.
  - destruct (String.eqb p "alpha-vantage"); cbv zeta;
      (split; [apply framesOnly_send|]);
      (split; [rewrite sentOn_send by exact Hlt; now rewrite Nat.eqb_refl|]);
      (split; [|apply length_send]);
      intros ws' Hne; rewrite sentOn_send by exact Hlt;
      destruct (Nat.eqb_spec ws ws'); congruence.
Qed.

Lemma authenticateConnection_frames (ws : nat) (p key : string) (st : Manager) :
  ws < List.length (sockets st) ->
  let st' := authenticateConnection ws p key st in
  framesOnly st st' /\
  sentOn ws st' = sentOn ws st ++ [authFrame p key] /\
  (forall ws', ws' <> ws -> sentOn ws' st' = sentOn ws' st) /\
  List.length (sockets st') = List.length (sockets st).
Proof.
  intros Hlt. unfold authenticateConnection, authFrame.
  destruct (String.eqb p "finnhub"); [|destruct (String.eqb p "alpha-vantage")];
    cbv zeta;
    (split; [apply framesOnly_send|]);
    (split; [rewrite sentOn_send by exact Hlt; now rewrite Nat.eqb_refl|]);
    (split; [|apply length_send]);
    intros ws' Hne; rewrite sentOn_send by exact Hlt;
    destruct (Nat.eqb_spec ws ws'); congruence.
Qed.

Lemma logOnly_refl (st : Manager) : logOnly st st.
Proof. repeat split. Qed.

Lemma handleMessage_logOnly (p : string) (msg : WebSocketMessage) (st : Manager) :
  logOnly st (handleMessage p msg st) /\
  log (handleMessage p msg st) =
    log st ++ List.map (fun h => Invoked h msg) (default [] (handlers st !! p)).
Proof.
  unfold handleMessage. destruct (handlers st !! p) as [hs|]; simpl.
  - revert st. induction hs as [|h hs IH]; intros st; simpl.
    + split; [apply logOnly_refl | now rewrite app_nil_r].
    + destruct (IH (emit (Invoked h msg) st)) as [L E]. split.
      * unfold logOnly in *. simpl in L. exact L.
      * rewrite E. simpl. now rewrite <- app_assoc.
  - split; [apply logOnly_refl | now rewrite app_nil_r].
Qed.

Lemma core_lookup (l l' : list Socket) (ws : nat) (s : Socket) :
  List.map core l' = List.map core l -> l !! ws = Some s ->
  exists s', l' !! ws = Some s' /\ core s' = core s.
Proof.
  revert l' ws. induction l as [|x l IH]; intros l' ws Hm Hl; [discriminate Hl|].
  destruct l' as [|x' l']; [discriminate Hm|]. simpl in Hm.
  assert (core x' = core x) as Hx by congruence.
  assert (List.map core l' = List.map core l) as Hrest by congruence.
  destruct ws as [|ws].
  - injection Hl as <-. exists x'. split; [reflexivity | exact Hx].
  - apply (IH l' ws Hrest Hl).
Qed.

Lemma onopen_frames :
  forall (validUrl : string -> bool) (st : Manager) (ws : nat) (s : Socket),
    sockets st !! ws = Some s -> readyState s = CONNECTING ->
    let st' := step validUrl st (SocketOpen ws) in
    sentOn ws st' =
      sent s ++ openingFrames (s_provider s) (s_apiKey s)
                  (getSubscriptions (s_provider s) st) /\
    (exists s', sockets st' !! ws = Some s' /\ readyState s' = OPEN) /\
    reconnectAttempts st' !! s_provider s = Some 0%Z /\
    subscriptions st' = subscriptions st /\
    connections st' = connections st /\
    log st' = log st /\
    (forall ws', ws' <> ws -> sentOn ws' st' = sentOn ws' st).
Proof.
  intros validUrl st ws s Hs Hr st'. subst st'. simpl. rewrite Hs, Hr.
  assert (ws < List.length (sockets st)) as Hlt by (eapply lookup_lt_Some; exact Hs).
  unfold onopen.
  set (st0 := set_readyState ws OPEN st).
  set (st1 := set_reconnectAttempts (insert (s_provider s) 0%Z) st0).
  assert (List.length (sockets st1) = List.length (sockets st)) as L1
      by (simpl; apply length_alter).
  assert (sockets st1 !! ws =
          Some {| s_provider := s_provider s; s_config := s_config s;
                  s_apiKey := s_apiKey s; readyState := OPEN; sent := sent s |}) as Hs1.
  { simpl. rewrite list_lookup_alter_eq, Hs. reflexivity. }
  assert (forall ws', ws' <> ws -> sentOn ws' st1 = sentOn ws' st) as O1.
  { intros ws' Hne. unfold sentOn. simpl. now rewrite list_lookup_alter_ne. }
  assert (sentOn ws st1 = sent s) as S1 by (unfold sentOn; now rewrite Hs1).
  destruct (authenticateConnection_frames ws (s_provider s) (s_apiKey s) st1)
    as (F2 & S2 & O2 & L2); [lia|].
  set (st2 := authenticateConnection ws (s_provider s) (s_apiKey s) st1) in *.
  assert (subscriptions st2 = subscriptions st) as Hsub by apply F2.
  unfold openingFrames, getSubscriptions. rewrite Hsub.
  assert (exists s2, sockets st2 !! ws = Some s2 /\ readyState s2 = OPEN) as Hopen2.
  { destruct F2 as (_ & _ & _ & _ & _ & _ & _ & _ & Hc).
    destruct (core_lookup _ _ ws _ Hc Hs1) as [s2 [H2 Hcore]].
    exists s2. split; [exact H2|]. unfold core in Hcore. simpl in Hcore. congruence. }
  destruct (subscriptions st !! s_provider s) as [[|x l]|] eqn:E;
    cbv beta iota delta [default Datatypes.id].
  - repeat split; try apply F2.
    + now rewrite S2, S1.
    + exact Hopen2.
    + destruct F2 as (_ & _ & _ & -> & _). simpl. apply lookup_insert_eq.
    + intros ws' Hne. now rewrite (O2 ws' Hne), (O1 ws' Hne).
  - destruct (sendSubscriptionMessage_frames ws (s_provider s) Subscribe (x :: l) st2)
      as (F3 & S3 & O3 & L3); [lia|].
    set (st3 := sendSubscriptionMessage ws (s_provider s) Subscribe (x :: l) st2) in *.
    pose proof (framesOnly_trans _ _ _ F2 F3) as F.
    repeat split; try apply F.
    + rewrite S3, S2, S1. now rewrite <- app_assoc.
    + destruct Hopen2 as [s2 [H2 R2]].
      destruct F3 as (_ & _ & _ & _ & _ & _ & _ & _ & Hc).
      destruct (core_lookup _ _ ws _ Hc H2) as [s3 [H3 Hcore]].
      exists s3. split; [exact H3|]. unfold core in Hcore. congruence.
    + destruct F as (_ & _ & _ & -> & _). simpl. apply lookup_insert_eq.
    + intros ws' Hne. now rewrite (O3 ws' Hne), (O2 ws' Hne), (O1 ws' Hne).
  - repeat split; try apply F2.
    + now rewrite S2, S1.
    + exact Hopen2.
    + destruct F2 as (_ & _ & _ & -> & _). simpl. apply lookup_insert_eq.
    + intros ws' Hne. now rewrite (O2 ws' Hne), (O1 ws' Hne).
Qed.


(** *** What [disconnect], [connect] and [attemptReconnect] leave alone *)

Lemma disconnect_fields (q : string) (st : Manager) :
  subscriptions (disconnect q st) = subscriptions st /\
  handlers (disconnect q st) = handlers st /\
  log (disconnect q st) = log st /\
  connections (disconnect q st) = delete q (connections st) /\
  reconnectAttempts (disconnect q st) = delete q (reconnectAttempts st) /\
  sockets (disconnect q st) =
    match connections st !! q with
    | Some ws => sockets (close_socket ws st)
    | None => sockets st
    end.
Proof.
  unfold disconnect. destruct (connections st !! q) as [ws|] eqn:E; simpl;
    destruct (reconnectTimers st !! q); simpl; repeat split;
    symmetry; apply delete_id; exact E.
Qed.

Lemma attemptReconnect_fields (q : string) (config : WebSocketConfig) (key : string)
    (st : Manager) :
  subscriptions (attemptReconnect q config key st) = subscriptions st /\
  connections (attemptReconnect q config key st) = connections st /\
  sockets (attemptReconnect q config key st) = sockets st.
Proof.
  unfold attemptReconnect.
  destruct (maxAttemptsOf config <=? attemptsOf q st)%Z; repeat split.
Qed.

Lemma connect_subscriptions (validUrl : string -> bool) (q : string)
    (config : WebSocketConfig) (key : string) (st : Manager) :
  subscriptions (snd (connect validUrl q config key st)) = subscriptions st.
Proof.
  unfold connect. destruct (validUrl (url config)); simpl;
    destruct (connections st !! q); try apply disconnect_fields; reflexivity.
Qed.

Lemma subscription_send_frames (q : string) (a : Action) (symbols : list string)
    (st1 : Manager) :
  (forall ws, connections st1 !! q = Some ws -> ws < List.length (sockets st1)) ->
  framesOnly st1
    (match connections st1 !! q with
     | Some ws =>
         match sockets st1 !! ws with
         | Some s =>
             match readyState s with
             | OPEN => sendSubscriptionMessage ws q a symbols st1
             | _ => st1
             end
         | None => st1
         end
     | None => st1
     end).
Proof.
  intros Hlt. destruct (connections st1 !! q) as [ws|]; [|apply framesOnly_refl].
  destruct (sockets st1 !! ws) as [s|]; [|apply framesOnly_refl].
  destruct (readyState s); try apply framesOnly_refl.
  apply sendSubscriptionMessage_frames. now apply Hlt.
Qed.

(** *** Recorded transports are live *)

Lemma live_same (st st' : Manager) :
  connections st' = connections st -> sockets st' = sockets st ->
  connectionsLive st -> connectionsLive st'.
Proof. intros C S H p ws. rewrite C, S. apply H. Qed.

Lemma live_framesOnly (st st' : Manager) :
  framesOnly st st' -> connectionsLive st -> connectionsLive st'.
Proof.
  intros F H p ws Hc.
  destruct F as (C & _ & _ & _ & _ & _ & _ & _ & M).
  rewrite C in Hc. destruct (H p ws Hc) as [s [Hs [Hp Hr]]].
  destruct (core_lookup _ _ ws s M Hs) as [s' [Hs' Hcore]].
  exists s'. split; [exact Hs'|]. unfold core in Hcore.
  assert (s_provider s' = s_provider s) as -> by congruence.
  assert (readyState s' = readyState s) as -> by congruence.
  now split.
Qed.

Lemma live_lt (st : Manager) (p : string) (ws : nat) :
  connectionsLive st -> connections st !! p = Some ws -> ws < List.length (sockets st).
Proof.
  intros H Hc. destruct (H p ws Hc) as [s [Hs _]]. eapply lookup_lt_Some. exact Hs.
Qed.

(** Changing the state of transport [ws] and forgetting the record of its
    provider keeps the other records live. *)
Lemma live_retire (st : Manager) (ws : nat) (s : Socket) (f : Socket -> Socket)
    (st' : Manager) :
  connectionsLive st -> sockets st !! ws = Some s ->
  connections st' = delete (s_provider s) (connections st) ->
  sockets st' = alter f ws (sockets st) ->
  connectionsLive st'.
Proof.
  intros H Hs C S p ws' Hc. rewrite C in Hc.
  destruct (decide (s_provider s = p)) as [<-|Hne];
    [rewrite lookup_delete_eq in Hc; discriminate Hc|].
  rewrite lookup_delete_ne in Hc by exact Hne.
  destruct (H p ws' Hc) as [s' [Hs' [Hp Hr]]].
  exists s'. split; [|now split]. rewrite S.
  rewrite list_lookup_alter_ne; [exact Hs'|].
  intros ->. rewrite Hs in Hs'. injection Hs' as <-. contradiction.
Qed.

Lemma live_disconnect (q : string) (st : Manager) :
  connectionsLive st -> connectionsLive (disconnect q st).
Proof.
  intros H. destruct (disconnect_fields q st) as (_ & _ & _ & C & _ & S).
  destruct (connections st !! q) as [ws|] eqn:E.
  - destruct (H q ws E) as [s [Hs [Hp _]]].
    eapply (live_retire st ws s); [exact H | exact Hs | rewrite Hp; exact C | exact S].
  - intros p ws' Hc. rewrite C in Hc. rewrite S.
    apply H. destruct (decide (q = p)) as [<-|Hne].
    + rewrite lookup_delete_eq in Hc. discriminate Hc.
    + now rewrite lookup_delete_ne in Hc.
Qed.

Lemma live_connect (validUrl : string -> bool) (q : string) (config : WebSocketConfig)
    (key : string) (st : Manager) :
  connectionsLive st -> connectionsLive (snd (connect validUrl q config key st)).
Proof.
  intros H. unfold connect.
  set (st1 := match connections st !! q with
              | Some _ => disconnect q st
              | None => st
              end).
  assert (connectionsLive st1) as H1
      by (subst st1; destruct (connections st !! q); [now apply live_disconnect | exact H]).
  destruct (validUrl (url config)); [|exact H1]. simpl.
  intros p ws Hc. simpl in Hc.
  destruct (decide (q = p)) as [<-|Hne].
  - rewrite lookup_insert_eq in Hc. injection Hc as <-.
    eexists. split; [apply list_lookup_middle; reflexivity|]. simpl.
    split; [reflexivity | discriminate].
  - rewrite lookup_insert_ne in Hc by exact Hne.
    destruct (H1 p ws Hc) as [s [Hs Hrest]]. exists s. split; [|exact Hrest].
    apply lookup_app_l_Some. exact Hs.
Qed.

Lemma live_cleanup_fold (entries : list (string * nat)) (st : Manager) :
  connectionsLive st ->
  connectionsLive (fold_right (fun entry st' => disconnect (fst entry) st') st entries).
Proof.
  intros H. induction entries as [|e l IH]; [exact H|].
  cbn [fold_right]. now apply live_disconnect.
Qed.

Lemma connectionsLive_step (validUrl : string -> bool) (st : Manager) (e : Event) :
  connectionsLive st -> connectionsLive (step validUrl st e).
Proof.
  intros H.
  destruct e as [q config key|q|q symbols|q symbols|q h|q h| |ws|ws raw|ws|ws|ws code|timer];
    cbn [step].
  - now apply live_connect.
  - now apply live_disconnect.
  - unfold subscribe.
    eapply live_framesOnly; [apply subscription_send_frames|].
    + intros ws Hc. apply (live_lt st q ws H Hc).
    + eapply live_same; [| |exact H]; reflexivity.
  - unfold unsubscribe. destruct (subscriptions st !! q); [|exact H].
    eapply live_framesOnly; [apply subscription_send_frames|].
    + intros ws Hc. apply (live_lt st q ws H Hc).
    + eapply live_same; [| |exact H]; reflexivity.
  - eapply live_same; [| |exact H]; reflexivity.
  - unfold removeHandler. destruct (handlers st !! q); [|exact H].
    eapply live_same; [| |exact H]; reflexivity.
  - unfold cleanup. eapply live_same; [| |apply live_cleanup_fold; exact H]; reflexivity.
  - destruct (sockets st !! ws) as [s|] eqn:Hs; [|exact H].
    destruct (readyState s) eqn:Hr; try exact H.
    assert (ws < List.length (sockets st)) as Hlt by (eapply lookup_lt_Some; exact Hs).
    assert (connectionsLive (set_readyState ws OPEN st)) as H0.
    { intros p ws' Hc. simpl in Hc. destruct (H p ws' Hc) as [s' [Hs' [Hp Hr']]].
      simpl. destruct (decide (ws = ws')) as [<-|Hne].
      - rewrite list_lookup_alter_eq, Hs. simpl. eexists. split; [reflexivity|].
        simpl. rewrite Hs in Hs'. injection Hs' as <-.
        split; [exact Hp | discriminate].
      - rewrite list_lookup_alter_ne by exact Hne. exists s'. auto. }
    unfold onopen.
    set (st1 := set_reconnectAttempts _ _).
    assert (connectionsLive st1) as H1
        by (eapply live_same; [| |exact H0]; reflexivity).
    assert (List.length (sockets st1) = List.length (sockets st)) as L1
        by (simpl; apply length_alter).
    destruct (authenticateConnection_frames ws (s_provider s) (s_apiKey s) st1)
      as (F2 & _ & _ & L2); [lia|].
    set (st2 := authenticateConnection _ _ _ _) in *.
    assert (connectionsLive st2) as H2 by (eapply live_framesOnly; eauto).
    destruct (subscriptions st2 !! s_provider s) as [[|x l]|]; try exact H2.
    eapply live_framesOnly; [|exact H2].
    apply sendSubscriptionMessage_frames. lia.
  - destruct (sockets st !! ws) as [s|]; [|exact H].
    destruct (readyState s); try exact H; unfold onmessage;
      destruct (parseMessage raw (s_provider s)); try exact H;
      (eapply live_same; [| |exact H]; apply handleMessage_logOnly).
  - destruct (sockets st !! ws) as [s|]; [|exact H].
    destruct (readyState s); try exact H; unfold onerror;
      (eapply live_same; [| |exact H]; apply handleMessage_logOnly).
  - destruct (sockets st !! ws) as [s|] eqn:Hs; [|exact H].
    destruct (readyState s) eqn:Hr; try exact H.
    intros p ws' Hc. simpl in Hc. destruct (H p ws' Hc) as [s' [Hs' [Hp Hr']]].
    simpl. destruct (decide (ws = ws')) as [<-|Hne].
    + rewrite list_lookup_alter_eq, Hs. simpl. eexists. split; [reflexivity|].
      simpl. rewrite Hs in Hs'. injection Hs' as <-.
      split; [exact Hp | discriminate].
    + rewrite list_lookup_alter_ne by exact Hne. exists s'. auto.
  - destruct (sockets st !! ws) as [s|] eqn:Hs; [|exact H].
    assert (connectionsLive (onclose s code (set_readyState ws CLOSED st))) as Hc.
    { unfold onclose.
      set (st1 := set_connections _ _).
      assert (connectionsLive st1) as H1
          by (eapply (live_retire st ws s); [exact H | exact Hs | |]; reflexivity).
      destruct (code =? 1000)%nat; [exact H1|].
      eapply live_same; [| |exact H1]; apply attemptReconnect_fields. }
    destruct (readyState s); try exact Hc. exact H.
  - destruct (find_timer timer st) as [t|]; [|exact H].
    unfold reconnectCallback. apply live_connect.
    eapply live_same; [| |exact H]; reflexivity.
Qed.

Lemma connectionsLive_run (validUrl : string -> bool) (events : list Event) (st : Manager) :
  connectionsLive st -> connectionsLive (run validUrl events st).
Proof.
  revert st. induction events as [|e l IH]; intros st H; simpl; [exact H|].
  apply IH, connectionsLive_step, H.
Qed.

Lemma connectionsLive_initial : connectionsLive WS.initial.
Proof. intros p ws. simpl. rewrite lookup_empty. discriminate. Qed.

(** *** Subscription sets *)

Lemma upper_char_idem (c : ascii) : upper_char (upper_char c) = upper_char c.
Proof. destruct c as [[] [] [] [] [] [] [] []]; reflexivity. Qed.

Lemma toUpperCase_idem (s : string) : toUpperCase (toUpperCase s) = toUpperCase s.
Proof.
  unfold toUpperCase, chars, unchars.
  rewrite list_ascii_of_string_of_list_ascii, List.map_map.
  f_equal. apply List.map_ext. intros c. apply upper_char_idem.
Qed.

Lemma str_has_In (x : string) (l : list string) :
  set_has String.eqb x l = true <-> In x l.
Proof.
  unfold set_has. rewrite existsb_exists. split.
  - intros [y [Hin Heq]]. apply String.eqb_eq in Heq. now subst y.
  - intros Hin. exists x. split; [exact Hin | apply String.eqb_refl].
Qed.

Lemma str_add_In (x y : string) (l : list string) :
  In y (set_add String.eqb x l) <-> y = x \/ In y l.
Proof.
  unfold set_add. destruct (set_has String.eqb x l) eqn:E.
  - apply str_has_In in E. split; [auto | intros [->|H]; auto].
  - rewrite in_app_iff. simpl. split; intros H; [|]; intuition congruence.
Qed.

Lemma str_add_NoDup (x : string) (l : list string) :
  List.NoDup l -> List.NoDup (set_add String.eqb x l).
Proof.
  intros Hnd. unfold set_add. destruct (set_has String.eqb x l) eqn:E; [exact Hnd|].
  apply List.NoDup_app; [exact Hnd | repeat constructor; intros [] |].
  intros y Hy [<-|[]]. apply str_has_In in Hy. congruence.
Qed.

Lemma str_delete_In (x y : string) (l : list string) :
  In y (set_delete String.eqb x l) <-> y <> x /\ In y l.
Proof.
  unfold set_delete. rewrite filter_In. split.
  - intros [Hin Hne]. split; [|exact Hin]. intros ->.
    rewrite String.eqb_refl in Hne. discriminate Hne.
  - intros [Hne Hin]. split; [exact Hin|].
    destruct (String.eqb_spec x y); [congruence | reflexivity].
Qed.

Lemma add_fold (symbols : list string) (l : list string) :
  let l' := fold_left (fun set symbol => set_add String.eqb (toUpperCase symbol) set)
                      symbols l in
  (canonical l -> canonical l') /\
  (forall y, In y l' <-> In y l \/ exists s, In s symbols /\ y = toUpperCase s).
Proof.
  revert l. induction symbols as [|x xs IH]; intros l; simpl.
  - split; [auto|]. intros y. split; [auto | intros [H|[s [[] _]]]; exact H].
  - destruct (IH (set_add String.eqb (toUpperCase x) l)) as [C M]. split.
    + intros [Hnd Hup]. apply C. split; [now apply str_add_NoDup|].
      apply List.Forall_forall. intros y Hy. apply str_add_In in Hy as [->|Hy].
      * apply toUpperCase_idem.
      * rewrite List.Forall_forall in Hup. now apply Hup.
    + intros y. rewrite M, str_add_In. split.
      * intros [[->|H]|[s [Hs ->]]]; eauto.
      * intros [H|[s [[<-|Hs] ->]]]; eauto.
Qed.

Lemma delete_fold (symbols : list string) (l : list string) :
  let l' := fold_left (fun set symbol => set_delete String.eqb (toUpperCase symbol) set)
                      symbols l in
  (canonical l -> canonical l') /\
  (forall y, In y l' <-> In y l /\ forall s, In s symbols -> y <> toUpperCase s).
Proof.
  revert l. induction symbols as [|x xs IH]; intros l; simpl.
  - split; [auto|]. intros y. split; [intros H; split; [exact H | intros s []] | tauto].
  - destruct (IH (set_delete String.eqb (toUpperCase x) l)) as [C M]. split.
    + intros [Hnd Hup]. apply C. split; [now apply List.NoDup_filter|].
      apply List.Forall_forall. intros y Hy. apply str_delete_In in Hy as [_ Hy].
      rewrite List.Forall_forall in Hup. now apply Hup.
    + intros y. rewrite M, str_delete_In. split.
      * intros [[Hne Hin] Hrest]. split; [exact Hin|].
        intros s [<-|Hs]; [exact Hne | now apply Hrest].
      * intros [Hin Hall]. split; [split; [apply Hall; now left | exact Hin]|].
        intros s Hs. apply Hall. now right.
Qed.

Lemma framesOnly_sendSubscriptionMessage (ws : nat) (p : string) (a : Action)
    (symbols : list string) (st : Manager) :
  framesOnly st (sendSubscriptionMessage ws p a symbols st).
Proof.
  unfold sendSubscriptionMessage. destruct (String.eqb p "finnhub").
  - revert st. induction symbols as [|x l IH]; intros st; simpl.
    + apply framesOnly_refl.
    + eapply framesOnly_trans; [apply framesOnly_send | apply IH].
  - destruct (String.eqb p "alpha-vantage"); apply framesOnly_send.
Qed.

Lemma subscription_send_subscriptions (q : string) (a : Action) (symbols : list string)
    (st1 : Manager) :
  subscriptions
    (match connections st1 !! q with
     | Some ws =>
         match sockets st1 !! ws with
         | Some s =>
             match readyState s with
             | OPEN => sendSubscriptionMessage ws q a symbols st1
             | _ => st1
             end
         | None => st1
         end
     | None => st1
     end) = subscriptions st1.
Proof.
  destruct (connections st1 !! q) as [ws|]; [|reflexivity].
  destruct (sockets st1 !! ws) as [s|]; [|reflexivity].
  destruct (readyState s); try reflexivity.
  apply framesOnly_sendSubscriptionMessage.
Qed.

Lemma subscribe_subscriptions (p : string) (symbols : list string) (st : Manager) :
  subscriptions (subscribe p symbols st) =
  <[p := fold_left (fun set symbol => set_add String.eqb (toUpperCase symbol) set)
           symbols (default [] (subscriptions st !! p))]> (subscriptions st).
Proof. unfold subscribe. now rewrite subscription_send_subscriptions. Qed.

Lemma unsubscribe_subscriptions (p : string) (symbols : list string) (st : Manager) :
  subscriptions (unsubscribe p symbols st) =
  match subscriptions st !! p with
  | Some l =>
      <[p := fold_left (fun set symbol => set_delete String.eqb (toUpperCase symbol) set)
               symbols l]> (subscriptions st)
  | None => subscriptions st
  end.
Proof.
  unfold unsubscribe. destruct (subscriptions st !! p); [|reflexivity].
  now rewrite subscription_send_subscriptions.
Qed.

Lemma subscriptions_cleanup_fold (entries : list (string * nat)) (st : Manager) :
  subscriptions (fold_right (fun entry st' => disconnect (fst entry) st') st entries)
  = subscriptions st.
Proof.
  induction entries as [|e l IH]; [reflexivity|]. cbn [fold_right].
  destruct (disconnect_fields (fst e)
              (fold_right (fun entry st' => disconnect (fst entry) st') st l)) as [-> _].
  exact IH.
Qed.

Lemma subscriptionsCanonical_step (validUrl : string -> bool) (st : Manager) (e : Event) :
  subscriptionsCanonical st -> subscriptionsCanonical (step validUrl st e).
Proof.
  intros H.
  assert (forall st', subscriptions st' = subscriptions st -> subscriptionsCanonical st')
    as Hsame by (intros st' E p l; rewrite E; apply H).
  destruct e as [q config key|q|q symbols|q symbols|q h|q h| |ws|ws raw|ws|ws|ws code|timer];
    cbn [step].
  - apply Hsame, connect_subscriptions.
  - apply Hsame, disconnect_fields.
  - intros p l. rewrite subscribe_subscriptions.
    destruct (decide (q = p)) as [<-|Hne].
    + rewrite lookup_insert_eq. intros [= <-]. apply add_fold.
      destruct (subscriptions st !! q) as [l0|] eqn:E; simpl; [now apply (H q)|].
      split; constructor.
    + rewrite lookup_insert_ne by exact Hne. apply H.
  - intros p l. rewrite unsubscribe_subscriptions.
    destruct (subscriptions st !! q) as [l0|] eqn:E; [|apply H].
    destruct (decide (q = p)) as [<-|Hne].
    + rewrite lookup_insert_eq. intros [= <-]. apply delete_fold. now apply (H q).
    + rewrite lookup_insert_ne by exact Hne. apply H.
  - now apply Hsame.
  - apply Hsame. unfold removeHandler. destruct (handlers st !! q); reflexivity.
  - intros p l. unfold cleanup. simpl. rewrite lookup_empty. discriminate.
  - destruct (sockets st !! ws) as [s|]; [|exact H].
    destruct (readyState s); try exact H. apply Hsame. unfold onopen.
    set (st2 := authenticateConnection _ _ _ _).
    assert (subscriptions st2 = subscriptions st) as E2.
    { subst st2. unfold authenticateConnection.
      destruct (String.eqb (s_provider s) "finnhub"); [reflexivity|].
      destruct (String.eqb (s_provider s) "alpha-vantage"); reflexivity. }
    destruct (subscriptions st2 !! s_provider s) as [[|x l]|]; try exact E2.
    rewrite <- E2. apply framesOnly_sendSubscriptionMessage.
  - destruct (sockets st !! ws) as [s|]; [|exact H].
    destruct (readyState s); try exact H; apply Hsame; unfold onmessage;
      destruct (parseMessage raw (s_provider s)); try reflexivity;
      apply handleMessage_logOnly.
  - destruct (sockets st !! ws) as [s|]; [|exact H].
    destruct (readyState s); try exact H; apply Hsame; unfold onerror;
      apply handleMessage_logOnly.
  - destruct (sockets st !! ws) as [s|]; [|exact H].
    destruct (readyState s); exact H.
  - destruct (sockets st !! ws) as [s|]; [|exact H].
    assert (subscriptions (onclose s code (set_readyState ws CLOSED st)) = subscriptions st)
      as E.
    { unfold onclose. destruct (code =? 1000)%nat; [reflexivity|].
      now destruct (attemptReconnect_fields (s_provider s) (s_config s) (s_apiKey s)
                      (set_connections (delete (s_provider s))
                         (set_readyState ws CLOSED st))) as [-> _]. }
    destruct (readyState s); try (apply Hsame; exact E). exact H.
  - destruct (find_timer timer st) as [t|]; [|exact H].
    apply Hsame. unfold reconnectCallback. now rewrite connect_subscriptions.
Qed.

Lemma subscriptionsCanonical_run (validUrl : string -> bool) (events : list Event)
    (st : Manager) :
  subscriptionsCanonical st -> subscriptionsCanonical (run validUrl events st).
Proof.
  revert st. induction events as [|e l IH]; intros st H; simpl; [exact H|].
  apply IH, subscriptionsCanonical_step, H.
Qed.

(** *** Cleanup *)

Lemma connections_cleanup_fold (entries : list (string * nat)) (st : Manager) (k : string) :
  connections st !! k = None \/ In k (List.map fst entries) ->
  connections (fold_right (fun entry st' => disconnect (fst entry) st') st entries) !! k
  = None.
Proof.
  induction entries as [|e l IH]; intros Hk.
  - destruct Hk as [Hk|[]]. exact Hk.
  - cbn [fold_right].
    destruct (disconnect_fields (fst e)
                (fold_right (fun entry st' => disconnect (fst entry) st') st l))
      as (_ & _ & _ & -> & _).
    destruct (decide (fst e = k)) as [<-|Hne]; [apply lookup_delete_eq|].
    rewrite lookup_delete_ne by exact Hne. apply IH.
    destruct Hk as [Hk|[Hk|Hk]]; [now left | contradiction | now right].
Qed.

Lemma connections_cleanup (st : Manager) : connections (cleanup st) = ∅.
Proof.
  apply map_empty. intros k. unfold cleanup. simpl.
  apply connections_cleanup_fold.
  destruct (connections st !! k) as [ws|] eqn:E; [right | now left].
  apply in_map_iff. exists (k, ws). split; [reflexivity|].
  apply list_elem_of_In, elem_of_map_to_list. exact E.
Qed.

Lemma timers_cleanup_fold (entries : list (string * nat)) (st : Manager) (q : string) :
  let st' := fold_right (fun entry st' => disconnect (fst entry) st') st entries in
  reconnectTimers st' !! q = None \/ reconnectTimers st' !! q = reconnectTimers st !! q.
Proof.
  induction entries as [|e l IH]; [now right|].
  cbn [fold_right]. cbn zeta in IH.
  set (stl := fold_right (fun entry st' => disconnect (fst entry) st') st l) in *.
  assert (reconnectTimers (disconnect (fst e) stl) = delete (fst e) (reconnectTimers stl))
    as ->.
  { unfold disconnect. destruct (connections stl !! fst e); simpl;
      destruct (reconnectTimers stl !! fst e) eqn:E; simpl; try reflexivity;
      symmetry; apply delete_id; exact E. }
  destruct (decide (fst e = q)) as [<-|Hne]; [left; apply lookup_delete_eq|].
  rewrite lookup_delete_ne by exact Hne. exact IH.
Qed.

Lemma pending_disconnect (q : string) (st : Manager) (t : Timer) :
  In t (pending st) -> reconnectTimers st !! q <> Some (t_id t) ->
  In t (pending (disconnect q st)).
Proof.
  intros Hin Hne. unfold disconnect.
  set (st1 := match connections st !! q with
              | Some ws => set_connections (delete q) (close_socket ws st)
              | None => st
              end).
  assert (pending st1 = pending st /\ reconnectTimers st1 = reconnectTimers st) as [Hp Ht]
      by (subst st1; destruct (connections st !! q); now split).
  rewrite Ht. destruct (reconnectTimers st !! q) as [timer|]; simpl; rewrite Hp;
    [|exact Hin].
  apply filter_In. split; [exact Hin|].
  destruct (Nat.eqb_spec (t_id t) timer) as [<-|]; [congruence | reflexivity].
Qed.

Lemma pending_cleanup_fold (entries : list (string * nat)) (st : Manager) (t : Timer) :
  In t (pending st) ->
  (forall q, In q (List.map fst entries) -> reconnectTimers st !! q <> Some (t_id t)) ->
  In t (pending (fold_right (fun entry st' => disconnect (fst entry) st') st entries)).
Proof.
  intros Hin. induction entries as [|e l IH]; intros Hq; [exact Hin|].
  cbn [fold_right]. apply pending_disconnect.
  - apply IH. intros q Hl. apply Hq. now right.
  - destruct (timers_cleanup_fold l st (fst e)) as [E|E]; cbn zeta in E; rewrite E.
    + discriminate.
    + apply Hq. now left.
Qed.

Lemma length_close_socket (ws : nat) (st : Manager) :
  List.length (sockets (close_socket ws st)) = List.length (sockets st).
Proof. simpl. apply length_alter. Qed.

Lemma length_disconnect (q : string) (st : Manager) :
  List.length (sockets (disconnect q st)) = List.length (sockets st).
Proof.
  destruct (disconnect_fields q st) as (_ & _ & _ & _ & _ & ->).
  destruct (connections st !! q); [apply length_close_socket | reflexivity].
Qed.

Lemma status_of_socket (p : string) (ws : nat) (s : Socket) (st : Manager) :
  connections st !! p = Some ws -> sockets st !! ws = Some s ->
  getConnectionStatus p st =
    match readyState s with
    | CONNECTING => StatusConnecting
    | OPEN => StatusOpen
    | CLOSING | CLOSED => StatusClosed
    end.
Proof. intros Hc Hs. unfold getConnectionStatus. now rewrite Hc, Hs. Qed.

(** What a successful [connect] builds on a state without record for [p]. *)
Lemma connect_fresh (validUrl : string -> bool) (p : string) (config : WebSocketConfig)
    (key : string) (st : Manager) :
  connections st !! p = None -> validUrl (url config) = true ->
  let st' := snd (connect validUrl p config key st) in
  fst (connect validUrl p config key st) = true /\
  connections st' !! p = Some (List.length (sockets st)) /\
  sockets st' = sockets st ++
    [ {| s_provider := p; s_config := config; s_apiKey := key;
         readyState := CONNECTING; sent := [] |} ] /\
  subscriptions st' = subscriptions st.
Proof.
  intros Hn Hv. unfold connect. rewrite Hn, Hv. simpl.
  repeat split. apply lookup_insert_eq.
Qed.

(** *** Transports other than the one an event is about *)

Lemma lookup_send_ne (ws ws' : nat) (frame : jsval) (st : Manager) :
  ws' <> ws -> sockets (send ws frame st) !! ws' = sockets st !! ws'.
Proof. intros Hne. unfold send. simpl. apply list_lookup_alter_ne. congruence. Qed.

Lemma lookup_authenticateConnection_ne (ws ws' : nat) (p key : string) (st : Manager) :
  ws' <> ws -> sockets (authenticateConnection ws p key st) !! ws' = sockets st !! ws'.
Proof.
  intros Hne. unfold authenticateConnection.
  destruct (String.eqb p "finnhub"); [|destruct (String.eqb p "alpha-vantage")];
    now apply lookup_send_ne.
Qed.

Lemma lookup_sendSubscriptionMessage_ne (ws ws' : nat) (p : string) (a : Action)
    (symbols : list string) (st : Manager) :
  ws' <> ws ->
  sockets (sendSubscriptionMessage ws p a symbols st) !! ws' = sockets st !! ws'.
Proof.
  intros Hne. unfold sendSubscriptionMessage.
  destruct (String.eqb p "finnhub").
  - revert st. induction symbols as [|x l IH]; intros st; simpl; [reflexivity|].
    rewrite IH. now apply lookup_send_ne.
  - destruct (String.eqb p "alpha-vantage"); now apply lookup_send_ne.
Qed.

(** The opening of a transport leaves the other transports as they are. *)
Lemma open_event_others (validUrl : string -> bool) (st : Manager) (ws ws' : nat) :
  ws' <> ws -> sockets (step validUrl st (SocketOpen ws)) !! ws' = sockets st !! ws'.
Proof.
  intros Hne. simpl. destruct (sockets st !! ws) as [s|]; [|reflexivity].
  destruct (readyState s); try reflexivity. unfold onopen.
  set (st1 := set_reconnectAttempts _ _).
  assert (sockets st1 !! ws' = sockets st !! ws') as E1
      by (simpl; apply list_lookup_alter_ne; congruence).
  set (st2 := authenticateConnection _ _ _ _).
  assert (sockets st2 !! ws' = sockets st !! ws') as E2
      by (subst st2; rewrite lookup_authenticateConnection_ne by exact Hne; exact E1).
  destruct (subscriptions st2 !! s_provider s) as [[|x l]|]; try exact E2.
  now rewrite lookup_sendSubscriptionMessage_ne.
Qed.

(** The close event of a transport that is not closed yet removes the record
    of its provider, whichever transport that record names, and leaves the
    subscriptions and the other transports as they are. *)
Lemma close_event_fields (validUrl : string -> bool) (st : Manager) (ws : nat)
    (s : Socket) (code : nat) :
  sockets st !! ws = Some s -> readyState s <> CLOSED ->
  let st' := step validUrl st (SocketClose ws code) in
  connections st' = delete (s_provider s) (connections st) /\
  subscriptions st' = subscriptions st /\
  (forall ws', ws' <> ws -> sockets st' !! ws' = sockets st !! ws').
Proof.
  intros Hs Hr. simpl. rewrite Hs.
  assert (let st' := onclose s code (set_readyState ws CLOSED st) in
          connections st' = delete (s_provider s) (connections st) /\
          subscriptions st' = subscriptions st /\
          (forall ws', ws' <> ws -> sockets st' !! ws' = sockets st !! ws')) as H.
  { unfold onclose. destruct (code =? 1000)%nat; cbv zeta.
    - repeat split. intros ws' Hne. simpl. apply list_lookup_alter_ne. congruence.
    - destruct (attemptReconnect_fields (s_provider s) (s_config s) (s_apiKey s)
                  (set_connections (delete (s_provider s)) (set_readyState ws CLOSED st)))
        as (-> & -> & ->).
      repeat split. intros ws' Hne. simpl. apply list_lookup_alter_ne. congruence. }
  destruct (readyState s); try exact H. contradiction.
Qed.

Lemma sentOn_lookup (ws : nat) (st st' : Manager) :
  sockets st' !! ws = sockets st !! ws -> sentOn ws st' = sentOn ws st.
Proof. intros E. unfold sentOn. now rewrite E. Qed.

End WSExtProps.

Import WS WSSpec WSProps WSExt WSExtProps.


(** When a connecting transport opens, the manager writes to it the
    authentication frame followed by a subscribe message for the symbols on
    record for its provider (none if the set is empty), marks it open and
    resets the provider's attempt counter to 0; connections, subscription
    sets, the log and the other transports are untouched. *)
Theorem open_authenticates_and_resubscribes :
  forall (validUrl : string -> bool) (st : Manager) (ws : nat) (s : Socket),
    sockets st !! ws = Some s -> readyState s = CONNECTING ->
    let st' := step validUrl st (SocketOpen ws) in
    sentOn ws st' =
      sent s ++ openingFrames (s_provider s) (s_apiKey s)
                  (getSubscriptions (s_provider s) st) /\
    (exists s', sockets st' !! ws = Some s' /\ readyState s' = OPEN) /\
    reconnectAttempts st' !! s_provider s = Some 0%Z /\
    subscriptions st' = subscriptions st /\
    connections st' = connections st /\
    log st' = log st /\
    (forall ws', ws' <> ws -> sentOn ws' st' = sentOn ws' st).
Proof. exact onopen_frames. Qed.

Lemma open_authenticates_and_resubscribes_witness :
  sentOn 0 (run anyUrl [SubscribeTo "finnhub" ["aapl"; "msft"];
                        Connect "finnhub" (finnhubConfig None) "key";
                        SocketOpen 0] WS.initial)
  = [JObj [("type", JStr "auth"); ("token", JStr "key")];
     JObj [("type", JStr "subscribe"); ("symbol", JStr "AAPL")];
     JObj [("type", JStr "subscribe"); ("symbol", JStr "MSFT")]].
Proof.
  exact (proj1 (open_authenticates_and_resubscribes anyUrl
           (run anyUrl [SubscribeTo "finnhub" ["aapl"; "msft"];
                        Connect "finnhub" (finnhubConfig None) "key"] WS.initial)
           0
           {| s_provider := "finnhub"; s_config := finnhubConfig None;
              s_apiKey := "key"; readyState := CONNECTING; sent := [] |}
           eq_refl eq_refl)).
Defined.

(** After [removeHandler], a message fanned out for the provider never
    invokes the removed handler, and still invokes every other handler that
    was registered. *)
Theorem removeHandler_silences :
  forall (st : Manager) (p : string) (h : nat) (message : WebSocketMessage),
    ~ In h (fanOut p message (removeHandler p h st)) /\
    (forall h', h' <> h -> In h' (fanOut p message st) ->
                In h' (fanOut p message (removeHandler p h st))).
Proof.
  intros st p h message. rewrite !fanOut_handlers. unfold removeHandler.
  destruct (handlers st !! p) as [hs|] eqn:E; simpl.
  - rewrite lookup_insert_eq. simpl. unfold set_delete. split.
    + intros Hin. apply filter_In in Hin as [_ Hne].
      rewrite Nat.eqb_refl in Hne. discriminate Hne.
    + intros h' Hne Hin. apply filter_In. split; [exact Hin|].
      destruct (Nat.eqb_spec h h'); [congruence | reflexivity].
  - rewrite E. simpl. split; [tauto | intros h' _ []].
Qed.

(** In every state the manager reaches, an inbound frame or an error event
    changes nothing but the log.  A frame that arrives on an open or closing
    transport and parses to a message is handed once to each handler
    registered for the transport's provider (a set: no handler occurs twice),
    in registration order; a frame that does not parse is dropped and the
    state stays as it is.  A frame that is not JSON, or is [null], never parses; a
    frame that is an object always parses, except for Alpha Vantage when its
    timestamp cannot be converted to a date.  An error event on a transport
    that is not closed hands the error message once to each handler. *)
Theorem inbound_only_invokes_handlers :
  forall (validUrl : string -> bool) (events : list Event) (ws : nat) (s : Socket)
         (raw : option jsval),
    let st := run validUrl events WS.initial in
    sockets st !! ws = Some s ->
    let p := s_provider s in
    let hs := default [] (handlers st !! p) in
    let st1 := step validUrl st (SocketMessage ws raw) in
    let st2 := step validUrl st (SocketError ws) in
    List.NoDup hs /\ logOnly st st1 /\ logOnly st st2 /\
    (readyState s = OPEN \/ readyState s = CLOSING ->
       match parseMessage raw p with
       | Some message => log st1 = log st ++ List.map (fun h => Invoked h message) hs
       | None => st1 = st
       end) /\
    (readyState s <> CLOSED ->
       log st2 = log st ++ List.map (fun h => Invoked h connectionError) hs) /\
    (raw = None \/ raw = Some JNull -> parseMessage raw p = None) /\
    (forall props, raw = Some (JObj props) ->
       p <> "alpha-vantage" \/
       raisesToPrimitive (opt_member (JObj props) "timestamp") = false ->
       parseMessage raw p <> None).
Proof.
  intros validUrl events ws s raw st Hs p hs st1 st2.
  assert (List.NoDup hs) as Hnd.
  { subst hs. destruct (handlers st !! p) as [l|] eqn:E; simpl; [|constructor].
    apply (handlersDistinct_run validUrl events WS.initial handlersDistinct_initial p l E). }
  split; [exact Hnd|]. clear Hnd.
  subst p hs st1 st2. generalize dependent st. intros st Hs. simpl. rewrite Hs.
  split; [|split; [|split; [|split; [|split]]]].
  - destruct (readyState s); try apply logOnly_refl;
      unfold onmessage; destruct (parseMessage raw (s_provider s));
      try apply logOnly_refl; apply handleMessage_logOnly.
  - destruct (readyState s); try apply logOnly_refl;
      unfold onerror; apply handleMessage_logOnly.
  - intros [-> | ->]; unfold onmessage;
      (destruct (parseMessage raw (s_provider s)) as [message|];
       [apply handleMessage_logOnly | reflexivity]).
  - intros Hr. destruct (readyState s); try contradiction;
      unfold onerror; apply (handleMessage_logOnly (s_provider s) connectionError).
  - intros [-> | ->]; [reflexivity|]. unfold parseMessage.
    destruct (String.eqb (s_provider s) "finnhub"); [reflexivity|].
    destruct (String.eqb (s_provider s) "alpha-vantage"); reflexivity.
  - intros props -> Hp. unfold parseMessage.
    destruct (String.eqb (s_provider s) "finnhub").
    { unfold parseFinnhubMessage. cbn [member].
      match goal with
      | |- match ?v with _ => _ end <> None => destruct v as [| | | |t| | |]
      end; try discriminate.
      destruct (String.eqb t "trade") eqn:E.
      - apply String.eqb_eq in E. subst t. discriminate.
      - assert (t <> "trade") as Hne by now apply String.eqb_neq.
        destruct t as [|c0 t0]; [discriminate|].
        repeat (match goal with
                | |- match ?x with _ => _ end <> None => destruct x
                end; try discriminate). }
    destruct (String.eqb_spec (s_provider s) "alpha-vantage") as [E|_].
    + destruct Hp as [Hp | Hp]; [contradiction|].
      unfold parseAlphaVantageMessage. cbn [member]. cbv zeta. rewrite Hp. discriminate.
    + unfold parseGenericMessage. cbn [member]. discriminate.
Qed.

Lemma inbound_only_invokes_handlers_witness :
  log (step anyUrl
         (run anyUrl [Connect "finnhub" (finnhubConfig None) "key"; SocketOpen 0;
                      AddHandler "finnhub" 7; AddHandler "finnhub" 9] WS.initial)
         (SocketMessage 0 (Some (JObj [("type", JStr "ping")]))))
  = log (run anyUrl [Connect "finnhub" (finnhubConfig None) "key"; SocketOpen 0;
                     AddHandler "finnhub" 7; AddHandler "finnhub" 9] WS.initial)
    ++ [Invoked 7 {| m_type := JStr "error"; m_symbol := JUndefined;
                     m_data := Data (JObj [("type", JStr "ping")]) |};
        Invoked 9 {| m_type := JStr "error"; m_symbol := JUndefined;
                     m_data := Data (JObj [("type", JStr "ping")]) |}].
Proof.
  exact (proj1 (proj2 (proj2 (proj2 (inbound_only_invokes_handlers anyUrl
           [Connect "finnhub" (finnhubConfig None) "key"; SocketOpen 0;
            AddHandler "finnhub" 7; AddHandler "finnhub" 9]
           0
           {| s_provider := "finnhub"; s_config := finnhubConfig None;
              s_apiKey := "key"; readyState := OPEN;
              sent := [JObj [("type", JStr "auth"); ("token", JStr "key")]] |}
           (Some (JObj [("type", JStr "ping")])) eq_refl))))
         (or_introl eq_refl)).
Defined.


(** A closing handshake started by the server leaves the provider recorded
    and 'closed' until the close event arrives. *)
Example closing_handshake_status :
  let st := run anyUrl [Connect "finnhub" (finnhubConfig None) "key"; SocketOpen 0;
                        SocketClosing 0] WS.initial in
  connections st !! "finnhub" = Some 0 /\
  getConnectionStatus "finnhub" st = StatusClosed.
Proof. split; vm_compute; reflexivity. Qed.

(** In every state the manager reaches, each subscription set holds
    upper-cased symbols, each of them once. *)
Theorem subscriptions_canonical :
  forall (validUrl : string -> bool) (events : list Event) (p : string),
    let symbols := getSubscriptions p (run validUrl events WS.initial) in
    List.NoDup symbols /\ List.Forall (fun s => toUpperCase s = s) symbols.
Proof.
  intros validUrl events p symbols. subst symbols. unfold getSubscriptions.
  assert (subscriptionsCanonical (run validUrl events WS.initial)) as H.
  { apply subscriptionsCanonical_run. intros q l. simpl. rewrite lookup_empty.
    discriminate. }
  destruct (subscriptions (run validUrl events WS.initial) !! p) as [l|] eqn:E; simpl.
  - apply (H p l E).
  - split; constructor.
Qed.

(** [subscribe] adds exactly the upper-cased forms of the given symbols to
    the provider's set, [unsubscribe] removes exactly them (so either call
    ignores the casing of its argument), and neither touches the set of
    another provider. *)
Theorem subscribe_unsubscribe_membership :
  forall (st : Manager) (p : string) (symbols : list string) (y : string),
    (In y (getSubscriptions p (subscribe p symbols st)) <->
     In y (getSubscriptions p st) \/ exists s, In s symbols /\ y = toUpperCase s) /\
    (In y (getSubscriptions p (unsubscribe p symbols st)) <->
     In y (getSubscriptions p st) /\ forall s, In s symbols -> y <> toUpperCase s) /\
    (forall q, q <> p ->
       getSubscriptions q (subscribe p symbols st) = getSubscriptions q st /\
       getSubscriptions q (unsubscribe p symbols st) = getSubscriptions q st).
Proof.
  intros st p symbols y. unfold getSubscriptions.
  rewrite subscribe_subscriptions, unsubscribe_subscriptions.
  split; [|split].
  - rewrite lookup_insert_eq. simpl. apply add_fold.
  - destruct (subscriptions st !! p) as [l|] eqn:E.
    + rewrite lookup_insert_eq. simpl. apply delete_fold.
    + rewrite E. simpl. tauto.
  - intros q Hne. split.
    + now rewrite lookup_insert_ne.
    + destruct (subscriptions st !! p); [now rewrite lookup_insert_ne | reflexivity].
Qed.

(** Subscriptions survive a reconnect, but the record of the new transport
    does not.  In a state the manager reaches with a transport recorded for
    the provider, take [disconnect] followed by [connect] with an address the
    browser accepts.  When the new transport opens it receives the
    authentication frame followed by a subscribe message for the provider's
    subscription set, which is unchanged; this holds whether the close event
    of the retired transport arrives before or after the opening, and whatever
    its code.  The provider is 'open' only until that close event arrives:
    its handler removes the provider's record, which by then names the new
    transport, so the provider is 'closed' while its new transport is
    open. *)
Theorem subscriptions_survive_reconnect :
  forall (validUrl : string -> bool) (events : list Event) (p : string)
         (config : WebSocketConfig) (key : string) (old code : nat),
    validUrl (url config) = true ->
    let st := run validUrl events WS.initial in
    connections st !! p = Some old ->
    let n := List.length (sockets st) in
    let reconnect := [Disconnect p; Connect p config key] in
    let opened := run validUrl (reconnect ++ [SocketOpen n]) st in
    let closedFirst :=
      run validUrl (reconnect ++ [SocketClose old code; SocketOpen n]) st in
    let closedLast :=
      run validUrl (reconnect ++ [SocketOpen n; SocketClose old code]) st in
    (forall st', st' = opened \/ st' = closedFirst \/ st' = closedLast ->
       sentOn n st' = openingFrames p key (getSubscriptions p st) /\
       getSubscriptions p st' = getSubscriptions p st /\
       exists s', sockets st' !! n = Some s' /\ readyState s' = OPEN) /\
    getConnectionStatus p opened = StatusOpen /\
    (forall st', st' = closedFirst \/ st' = closedLast ->
       connections st' !! p = None /\ getConnectionStatus p st' = StatusClosed).
Proof.
  intros validUrl events p config key old code Hv st Hold n reconnect
    opened closedFirst closedLast.
  assert (connectionsLive st) as Hlive
      by apply connectionsLive_run, connectionsLive_initial.
  destruct (Hlive p old Hold) as [s [Hs [Hp Hr]]].
  assert (old < n) as Hlt by (eapply lookup_lt_Some; exact Hs).
  (* disconnect *)
  destruct (disconnect_fields p st) as (Hsub1 & _ & _ & Hc1 & _ & Hs1).
  rewrite Hold in Hs1.
  set (st1 := disconnect p st) in *.
  assert (connections st1 !! p = None) as Hn1
      by (rewrite Hc1; apply lookup_delete_eq).
  assert (List.length (sockets st1) = n) as Hl1 by apply length_disconnect.
  assert (exists s1, sockets st1 !! old = Some s1 /\ s_provider s1 = p /\
                     readyState s1 <> CLOSED) as [s1 [Hs1o [Hp1 Hr1]]].
  { rewrite Hs1. simpl. rewrite list_lookup_alter_eq, Hs. simpl.
    eexists. split; [reflexivity|]. simpl. split; [exact Hp|].
    destruct (readyState s); try discriminate. contradiction. }
  (* connect *)
  destruct (connect_fresh validUrl p config key st1 Hn1 Hv) as (_ & Hc2 & Hs2 & Hsub2).
  set (st2 := snd (connect validUrl p config key st1)) in *.
  rewrite Hl1 in Hc2.
  set (fresh := {| s_provider := p; s_config := config; s_apiKey := key;
                   readyState := CONNECTING; sent := [] |}) in *.
  assert (sockets st2 !! n = Some fresh) as Hs2n
      by (rewrite Hs2; apply list_lookup_middle; now rewrite Hl1).
  assert (sockets st2 !! old = Some s1) as Hs2o
      by (rewrite Hs2; now apply lookup_app_l_Some).
  assert (run validUrl reconnect st = st2) as Hrun by reflexivity.
  assert (getSubscriptions p st2 = getSubscriptions p st) as Hg2
      by (unfold getSubscriptions; now rewrite Hsub2, Hsub1).
  (* the new transport opens first *)
  destruct (onopen_frames validUrl st2 n fresh Hs2n eq_refl)
    as (Hsent3 & [s3 [Hs3 Hr3]] & _ & Hsub3 & Hc3 & _).
  cbn [s_provider s_apiKey sent fresh app] in Hsent3.
  set (st3 := step validUrl st2 (SocketOpen n)) in *.
  assert (opened = st3) as Eo by (subst opened; unfold run; now rewrite fold_left_app).
  assert (sockets st3 !! old = Some s1) as Hs3o.
  { subst st3. rewrite open_event_others by lia. exact Hs2o. }
  destruct (close_event_fields validUrl st3 old s1 code Hs3o Hr1) as (Hc4 & Hsub4 & Hs4).
  set (st4 := step validUrl st3 (SocketClose old code)) in *.
  assert (closedLast = st4) as El
      by (subst closedLast; unfold run; now rewrite fold_left_app).
  (* the retired transport closes first *)
  destruct (close_event_fields validUrl st2 old s1 code Hs2o Hr1) as (Hc5 & Hsub5 & Hs5).
  set (st5 := step validUrl st2 (SocketClose old code)) in *.
  assert (sockets st5 !! n = Some fresh) as Hs5n by (rewrite Hs5 by lia; exact Hs2n).
  destruct (onopen_frames validUrl st5 n fresh Hs5n eq_refl)
    as (Hsent6 & [s6 [Hs6 Hr6]] & _ & Hsub6 & Hc6 & _).
  cbn [s_provider s_apiKey sent fresh app] in Hsent6.
  set (st6 := step validUrl st5 (SocketOpen n)) in *.
  assert (closedFirst = st6) as Ef
      by (subst closedFirst; unfold run; now rewrite fold_left_app).
  assert (getSubscriptions p st5 = getSubscriptions p st) as Hg5
      by (unfold getSubscriptions; now rewrite Hsub5, Hsub2, Hsub1).
  split; [|split].
  - intros st' [-> | [-> | ->]].
    + rewrite Eo. split; [now rewrite Hsent3, Hg2|].
      split; [unfold getSubscriptions; now rewrite Hsub3, Hsub2, Hsub1|].
      now exists s3.
    + rewrite Ef. split; [now rewrite Hsent6, Hg5|].
      split; [unfold getSubscriptions; now rewrite Hsub6, Hsub5, Hsub2, Hsub1|].
      now exists s6.
    + rewrite El. split.
      * rewrite (sentOn_lookup n st3 st4) by (apply Hs4; lia).
        now rewrite Hsent3, Hg2.
      * split; [unfold getSubscriptions; now rewrite Hsub4, Hsub3, Hsub2, Hsub1|].
        exists s3. split; [rewrite Hs4 by lia; exact Hs3 | exact Hr3].
  - rewrite Eo. rewrite (status_of_socket p n s3);
      [now rewrite Hr3 | now rewrite Hc3 | exact Hs3].
  - assert (connections st6 !! p = None) as Hn6
        by (rewrite Hc6, Hc5, Hp1; apply lookup_delete_eq).
    assert (connections st4 !! p = None) as Hn4
        by (rewrite Hc4, Hp1; apply lookup_delete_eq).
    intros st' [-> | ->]; [rewrite Ef | rewrite El];
      (split; [assumption|]); unfold getConnectionStatus;
      [now rewrite Hn6 | now rewrite Hn4].
Qed.

Lemma subscriptions_survive_reconnect_witness :
  connections
    (run anyUrl ([Disconnect "finnhub"; Connect "finnhub" (finnhubConfig None) "key"]
                 ++ [SocketOpen 1; SocketClose 0 1000])
       (run anyUrl [Connect "finnhub" (finnhubConfig None) "key"; SocketOpen 0;
                    SubscribeTo "finnhub" ["aapl"]] WS.initial)) !! "finnhub" = None /\
  getConnectionStatus "finnhub"
    (run anyUrl ([Disconnect "finnhub"; Connect "finnhub" (finnhubConfig None) "key"]
                 ++ [SocketOpen 1; SocketClose 0 1000])
       (run anyUrl [Connect "finnhub" (finnhubConfig None) "key"; SocketOpen 0;
                    SubscribeTo "finnhub" ["aapl"]] WS.initial)) = StatusClosed.
Proof.
  exact (proj2 (proj2 (subscriptions_survive_reconnect anyUrl
           [Connect "finnhub" (finnhubConfig None) "key"; SocketOpen 0;
            SubscribeTo "finnhub" ["aapl"]]
           "finnhub" (finnhubConfig None) "key" 0 1000 eq_refl eq_refl))
         _ (or_intror eq_refl)).
Defined.



(** [cleanup] leaves no recorded transport, no handler and no subscription:
    every provider is 'closed', has an empty subscription list, and a message
    fanned out afterwards reaches no handler. *)
Lemma cleanup_clears :
  forall (st : Manager) (p : string) (message : WebSocketMessage),
    connections (cleanup st) = ∅ /\
    handlers (cleanup st) = ∅ /\
    subscriptions (cleanup st) = ∅ /\
    getConnectionStatus p (cleanup st) = StatusClosed /\
    getSubscriptions p (cleanup st) = [] /\
    fanOut p message (cleanup st) = [].
Proof.
  intros st p message. pose proof (connections_cleanup st) as Hc.
  split; [exact Hc|]. split; [reflexivity|]. split; [reflexivity|].
  split; [|split].
  - unfold getConnectionStatus. rewrite Hc, lookup_empty. reflexivity.
  - unfold getSubscriptions. simpl. now rewrite lookup_empty.
  - rewrite fanOut_handlers. simpl. now rewrite lookup_empty.
Qed.

(** [cleanup] cancels only the reconnect timers recorded for providers that
    still have a recorded transport: a pending timer that is not one of those
    stays pending after [cleanup] (as does the timer armed after an abnormal
    close, whose provider has no recorded transport any more). *)
Theorem cleanup_keeps_other_timers :
  forall (st : Manager) (t : Timer),
    In t (pending st) ->
    (forall q ws, connections st !! q = Some ws ->
                  reconnectTimers st !! q <> Some (t_id t)) ->
    In t (pending (cleanup st)).
Proof.
  intros st t Hin Hq. unfold cleanup. simpl.
  apply pending_cleanup_fold; [exact Hin|].
  intros q Hl. apply in_map_iff in Hl as [[q' ws] [<- Hl]].
  apply list_elem_of_In, elem_of_map_to_list in Hl. simpl. now apply (Hq q' ws).
Qed.

Lemma cleanup_keeps_other_timers_witness :
  In {| t_id := 1; t_provider := "finnhub"; t_config := finnhubConfig None;
        t_apiKey := "key"; t_attempts := 0; t_delay := 5000 |}
     (pending (cleanup (run anyUrl [Connect "finnhub" (finnhubConfig None) "key";
                                    SocketOpen 0; SocketClose 0 1006] WS.initial))).
Proof.
  apply (cleanup_keeps_other_timers
    (run anyUrl [Connect "finnhub" (finnhubConfig None) "key"; SocketOpen 0;
                 SocketClose 0 1006] WS.initial)).
  - left. reflexivity.
  - intros q ws Hc. vm_compute in Hc. discriminate Hc.
Defined.

(** ** Provider catalog and adapter factory: further properties *)

Module RegistryExtProps.
Import JS Adapters Registry RegistrySpec RegistryProps RegistryExt Order OrderProps.

Lemma chars_app (a b : string) : chars (a ++ b) = (chars a ++ chars b)%list.
Proof.
  unfold chars. induction a as [|c a IH]; simpl; [reflexivity | now rewrite IH].
Qed.

Lemma starts_with_app (pre rest : list ascii) : starts_with pre (pre ++ rest) = true.
Proof.
  induction pre as [|c pre IH]; simpl; [reflexivity|].
  now rewrite Ascii.eqb_refl, IH.
Qed.

Lemma append_assoc (a b c : string) : ((a ++ b) ++ c = a ++ b ++ c)%string.
Proof.
  induction a as [|x a IH]; [reflexivity|].
  change (String x ((a ++ b) ++ c) = String x (a ++ b ++ c))%string. now rewrite IH.
Qed.

Lemma cacheKey_prefix (config : UserApiConfig) :
  startsWith (cacheKey config) (providerId config ++ "-") = true.
Proof.
  unfold startsWith, cacheKey.
  rewrite <- append_assoc, (chars_app (providerId config ++ "-") (id config)).
  apply starts_with_app.
Qed.

(** *** The ordered map *)

Lemma map_get_In {V : Type} (key : string) (v : V) (m : list (string * V)) :
  map_get key m = Some v -> In (key, v) m.
Proof.
  induction m as [|[k v'] m IH]; simpl; [discriminate|].
  destruct (String.eqb k key) eqn:E.
  - apply String.eqb_eq in E. intros [= ->]. left. now subst.
  - intros H. right. now apply IH.
Qed.

Lemma map_set_In {V : Type} (key : string) (v : V) (m : list (string * V)) (e : string * V) :
  In e (map_set key v m) -> e = (key, v) \/ In e m.
Proof.
  induction m as [|[k v'] m IH]; simpl.
  - intros [<- | []]. now left.
  - destruct (String.eqb k key) eqn:E; simpl.
    + apply String.eqb_eq in E. subst k. intros [<- | H]; [now left | right; now right].
    + intros [<- | H]; [right; now left|].
      destruct (IH H) as [-> | H']; [now left | right; now right].
Qed.

Lemma delete_first_In {V : Type} (p : string -> bool) (m : list (string * V)) (e : string * V) :
  In e (delete_first p m) -> In e m.
Proof.
  induction m as [|[k v] m IH]; simpl; [tauto|].
  destruct (p k); simpl; [now right|].
  intros [<- | H]; [now left | right; now apply IH].
Qed.

Lemma delete_first_get {V : Type} (p : string -> bool) (m : list (string * V)) (key : string) :
  p key = false -> map_get key (delete_first p m) = map_get key m.
Proof.
  intros Hp. induction m as [|[k v] m IH]; simpl; [reflexivity|].
  destruct (p k) eqn:Hk; simpl.
  - destruct (String.eqb k key) eqn:E; [|reflexivity].
    apply String.eqb_eq in E. congruence.
  - now rewrite IH.
Qed.

Lemma delete_first_split {V : Type} (p : string -> bool) (m : list (string * V)) :
  existsb (fun e => p (fst e)) m = true ->
  exists pre k v post,
    m = (pre ++ (k, v) :: post)%list /\ p k = true /\
    (forall e, In e pre -> p (fst e) = false) /\
    delete_first p m = (pre ++ post)%list.
Proof.
  induction m as [|[k v] m IH]; simpl; [discriminate|].
  destruct (p k) eqn:Hk; simpl.
  - intros _. exists [], k, v, m. repeat split; [exact Hk | intros e []].
  - intros H. destruct (IH H) as (pre & k' & v' & post & -> & Hk' & Hpre & ->).
    exists ((k, v) :: pre), k', v', post. repeat split; [exact Hk'|].
    intros e [<- | He]; [exact Hk | now apply Hpre].
Qed.

Lemma delete_first_none {V : Type} (p : string -> bool) (m : list (string * V)) :
  existsb (fun e => p (fst e)) m = false -> delete_first p m = m.
Proof.
  induction m as [|[k v] m IH]; simpl; [reflexivity|].
  destruct (p k); simpl; [discriminate|]. intros H. now rewrite IH.
Qed.

(** *** Worlds reached through the factory *)

Lemma adapters_initial (p : string) (f : Factory) :
  adapters Registry.initial !! p = Some f ->
  (p = "alpha-vantage" /\ f = NewAlphaVantageAdapter) \/
  (p = "finnhub" /\ f = NewFinnhubAdapter) \/
  (p = "indian-api" /\ f = NewIndianApiAdapter).
Proof.
  change (adapters Registry.initial)
    with (<["indian-api" := NewIndianApiAdapter]>
            (<["finnhub" := NewFinnhubAdapter]>
               (<["alpha-vantage" := NewAlphaVantageAdapter]> (∅ : gmap string Factory)))).
  rewrite !lookup_insert_Some, lookup_empty. intuition congruence.
Qed.

Lemma adapters_call (w : World) (c : Call) : adapters (call w c) = adapters w.
Proof.
  destruct c as [config | p | configId]; simpl.
  - unfold getAdapter, createAdapter.
    destruct (map_has (cacheKey config) (instances w)); [reflexivity|].
    destruct (adapters w !! providerId config); reflexivity.
  - unfold createAdapter. destruct (adapters w !! p); reflexivity.
  - unfold clearCache. destruct configId as [cid|]; [|reflexivity].
    destruct (negb (String.eqb cid "")); reflexivity.
Qed.

Lemma adapters_calls (cs : list Call) (w : World) : adapters (calls cs w) = adapters w.
Proof.
  revert w. induction cs as [|c cs IH]; intros w; simpl; [reflexivity|].
  unfold calls in IH. now rewrite IH, adapters_call.
Qed.

Lemma cacheTyped_getAdapter (config : UserApiConfig) (w : World) :
  cacheTyped w -> cacheTyped (snd (getAdapter config w)).
Proof.
  intros H. unfold getAdapter, createAdapter.
  destruct (map_has (cacheKey config) (instances w)); [exact H|].
  destruct (adapters w !! providerId config) as [f|] eqn:Hf; [|exact H].
  simpl. intros k i Hin. apply map_set_In in Hin as [[= -> ->] | Hin].
  - exists (providerId config), f. split; [exact Hf|]. split.
    + apply list_lookup_middle. reflexivity.
    + apply cacheKey_prefix.
  - destruct (H k i Hin) as (p & f' & Hp & Hh & Hk).
    exists p, f'. split; [exact Hp|]. split; [|exact Hk].
    now apply lookup_app_l_Some.
Qed.

Lemma cacheTyped_call (w : World) (c : Call) : cacheTyped w -> cacheTyped (call w c).
Proof.
  intros H. destruct c as [config | p | configId]; simpl.
  - now apply cacheTyped_getAdapter.
  - unfold createAdapter. destruct (adapters w !! p) as [f|]; [|exact H].
    simpl. intros k i Hin. destruct (H k i Hin) as (p' & f' & Hp & Hh & Hk).
    exists p', f'. split; [exact Hp|]. split; [|exact Hk]. now apply lookup_app_l_Some.
  - unfold clearCache.
    assert (cacheTyped {| adapters := adapters w; providers := providers w;
                          instances := []; heap := heap w |}) as Hnil
        by (intros k i []).
    destruct configId as [cid|]; [|exact Hnil].
    destruct (negb (String.eqb cid "")); [|exact Hnil].
    intros k i Hin. simpl in Hin. apply delete_first_In in Hin. exact (H k i Hin).
Qed.

Lemma cacheTyped_calls (cs : list Call) (w : World) :
  cacheTyped w -> cacheTyped (calls cs w).
Proof.
  revert w. induction cs as [|c cs IH]; intros w H; simpl; [exact H|].
  apply IH. now apply cacheTyped_call.
Qed.

Lemma cacheTyped_initial : cacheTyped Registry.initial.
Proof. intros k i []. Qed.

(** Two built-in provider ids of which one, followed by a dash, starts the
    cache key of the other are the same id. *)
Lemma builtin_prefix (config : UserApiConfig) (p : string) (f f' : Factory) :
  adapters Registry.initial !! providerId config = Some f ->
  adapters Registry.initial !! p = Some f' ->
  startsWith (cacheKey config) (p ++ "-") = true -> f' = f.
Proof.
  intros Hc Hp. destruct config as [i q]. simpl in Hc. unfold cacheKey. simpl.
  apply adapters_initial in Hc as [[-> ->] | [[-> ->] | [-> ->]]];
    apply adapters_initial in Hp as [[-> ->] | [[-> ->] | [-> ->]]];
    try reflexivity; intros H; vm_compute in H; discriminate H.
Qed.

(** A registered provider is always handed an instance of its own class. *)
Lemma getAdapter_class (cs : list Call) (config : UserApiConfig) (f : Factory) :
  adapters Registry.initial !! providerId config = Some f ->
  exists a, fst (getAdapter config (calls cs Registry.initial)) = Some a /\
            heap (snd (getAdapter config (calls cs Registry.initial))) !! a = Some f.
Proof.
  intros Hf. set (w := calls cs Registry.initial).
  assert (cacheTyped w) as Ht by apply cacheTyped_calls, cacheTyped_initial.
  assert (adapters w = adapters Registry.initial) as Ha by apply adapters_calls.
  unfold getAdapter, map_has, createAdapter.
  destruct (map_get (cacheKey config) (instances w)) as [a|] eqn:Hget.
  - exists a. split; [reflexivity|]. simpl.
    destruct (Ht _ _ (map_get_In _ _ _ Hget)) as (p & f' & Hp & Hh & Hk).
    rewrite Ha in Hp. now rewrite (builtin_prefix config p f f' Hf Hp Hk) in Hh.
  - rewrite Ha, Hf. simpl. eexists. split; [reflexivity|].
    apply list_lookup_middle. reflexivity.
Qed.

(** *** Running a mapped operation *)

Lemma run_mapEff {A B : Type} (g : A -> B) (network : Url -> FetchResult) (p : Eff A) :
  Adapters.run network (mapEff g p) =
  (g (fst (Adapters.run network p)), snd (Adapters.run network p)).
Proof.
  induction p as [v | url headers k IH]; simpl; [reflexivity|].
  rewrite IH. destruct (Adapters.run network (k (network url))). reflexivity.
Qed.

(** *** The built-in catalog *)

Example best_for_quotes :
  getBestProvider builtinProviders
    {| req_features := ["real-time-quotes"]; req_minRateLimit := None;
       req_region := None |} = Some indianApiProvider.
Proof. reflexivity. Qed.

Example best_for_news_in_us :
  getBestProvider builtinProviders
    {| req_features := ["market-news"; "real-time-quotes"]; req_minRateLimit := Some 10%Q;
       req_region := Some US |} = Some finnhubProvider.
Proof. reflexivity. Qed.

Example best_without_features :
  getBestProvider builtinProviders
    {| req_features := []; req_minRateLimit := None; req_region := None |} = None.
Proof. reflexivity. Qed.

End RegistryExtProps.

Import Registry RegistrySpec RegistryProps RegistryExt RegistryExtProps.

(** [clearCache(configId)] with a non-empty id removes the first cached entry,
    in insertion order, whose key ends in a dash followed by the id, and
    nothing else: entries under other keys, the catalog and the instances
    already built are untouched, and without such a key the cache stays as it
    is. *)
Theorem clearCache_removes_first_match :
  forall (cid : string) (w : World),
    cid <> "" ->
    let matching := fun key => endsWith key ("-" ++ cid) in
    let w' := clearCache (Some cid) w in
    adapters w' = adapters w /\ providers w' = providers w /\ heap w' = heap w /\
    (forall key, matching key = false ->
       map_get key (instances w') = map_get key (instances w)) /\
    (existsb (fun e => matching (fst e)) (instances w) = false ->
       instances w' = instances w) /\
    (existsb (fun e => matching (fst e)) (instances w) = true ->
       exists pre key a post,
         instances w = (pre ++ (key, a) :: post)%list /\ matching key = true /\
         (forall e, In e pre -> matching (fst e) = false) /\
         instances w' = (pre ++ post)%list).
Proof.
  intros cid w Hne matching w'. subst w'. unfold clearCache.
  assert (String.eqb cid "" = false) as -> by now apply String.eqb_neq.
  simpl. repeat split.
  - intros key Hk. now apply delete_first_get.
  - apply delete_first_none.
  - apply delete_first_split.
Qed.

Lemma clearCache_removes_first_match_witness :
  map_get "finnhub-1"
    (instances (clearCache (Some "x-1")
       (snd (getAdapter configShort (snd (getAdapter configLong Registry.initial))))))
  = Some 4%nat.
Proof.
  rewrite (proj1 (proj2 (proj2 (proj2 (clearCache_removes_first_match "x-1"
             (snd (getAdapter configShort (snd (getAdapter configLong Registry.initial))))
             ltac:(discriminate))))) "finnhub-1" eq_refl).
  reflexivity.
Defined.

(** In every world reached from the initial one through [getAdapter],
    [createAdapter] and [clearCache], a configuration of a registered provider
    is handed an adapter, and that adapter was built by the constructor
    registered for its provider. *)
Theorem getAdapter_registered_class :
  forall (cs : list Call) (config : UserApiConfig) (f : Factory),
    adapters Registry.initial !! providerId config = Some f ->
    exists a, fst (getAdapter config (calls cs Registry.initial)) = Some a /\
              heap (snd (getAdapter config (calls cs Registry.initial))) !! a = Some f.
Proof. exact getAdapter_class. Qed.

Lemma getAdapter_registered_class_witness :
  exists a,
    fst (getAdapter configShort
           (calls [CallGetAdapter configLong; CallClearCache (Some "1")]
                  Registry.initial)) = Some a /\
    heap (snd (getAdapter configShort
                 (calls [CallGetAdapter configLong; CallClearCache (Some "1")]
                        Registry.initial))) !! a = Some NewFinnhubAdapter.
Proof.
  apply (getAdapter_registered_class
           [CallGetAdapter configLong; CallClearCache (Some "1")] configShort).
  reflexivity.
Defined.

(** [getBestProvider] answers with a provider of the catalog that supports
    every required feature, lies in the required region and meets the minimum
    rate limit, and no provider of the catalog with these properties has a
    higher rate limit.  It answers null when no provider qualifies, and also
    whenever the list of required features is empty, because the
    recommendation step keeps only providers that support at least one of
    the listed features. *)
Theorem getBestProvider_best :
  forall (all : list ApiProvider) (requirements : Requirements),
    match getBestProvider all requirements with
    | Some p =>
        In p all /\ req_features requirements <> [] /\
        supportsFeatures requirements p = true /\
        inRegion requirements p = true /\
        meetsRateLimit requirements p = true /\
        (forall q, In q all ->
           supportsFeatures requirements q = true ->
           inRegion requirements q = true ->
           meetsRateLimit requirements q = true ->
           (rateLimitPerMinute q <= rateLimitPerMinute p)%Q)
    | None =>
        req_features requirements = [] \/
        (forall q, In q all ->
           supportsFeatures requirements q && inRegion requirements q
           && meetsRateLimit requirements q = false)
    end.
Proof.
  intros all requirements. unfold getBestProvider, getRecommendedProviders. simpl.
  set (regional := match req_region requirements with
                   | Some r => List.filter (fun provider => supports provider (regionFeature r)) all
                   | None => all
                   end).
  set (some_feature := fun provider : ApiProvider =>
                         existsb (supports provider) (req_features requirements)).
  set (suitable := fun provider : ApiProvider =>
                     supportsFeatures requirements provider
                     && meetsRateLimit requirements provider).
  set (L := List.filter suitable
              (Detector.sort_desc rateLimitPerMinute (List.filter some_feature regional))).
  assert (forall q, In q regional <-> In q all /\ inRegion requirements q = true) as Hreg.
  { intros q. subst regional. unfold inRegion.
    destruct (req_region requirements) as [r|]; [apply filter_In | tauto]. }
  assert (forall q, In q L <->
            In q all /\ inRegion requirements q = true /\ some_feature q = true /\
            suitable q = true) as HL.
  { intros q. subst L. rewrite filter_In, OrderProps.sort_desc_In, filter_In, Hreg. tauto. }
  assert (Order.descending rateLimitPerMinute L) as Hdesc
      by apply OrderProps.descending_filter, OrderProps.sort_desc_descending.
  assert (forall q, req_features requirements <> [] ->
            supportsFeatures requirements q = true -> some_feature q = true) as Hsome.
  { intros q Hne Hall. subst some_feature. unfold supportsFeatures in Hall. simpl.
    destruct (req_features requirements) as [|f fs]; [contradiction|].
    simpl in *. apply andb_true_iff in Hall as [-> _]. reflexivity. }
  destruct (hd_error L) as [p|] eqn:Hhd.
  - assert (In p L) as Hp by (destruct L; [discriminate | injection Hhd as ->; now left]).
    pose proof Hp as Hp'. apply HL in Hp' as (Hall & Hr & Hs & Hsuit).
    subst suitable. simpl in Hsuit. apply andb_true_iff in Hsuit as [Hf Hm].
    assert (req_features requirements <> []) as Hne.
    { subst some_feature. simpl in Hs. intros E. rewrite E in Hs. discriminate Hs. }
    repeat split; try assumption.
    intros q Hq Hqf Hqr Hqm.
    apply (OrderProps.descending_hd rateLimitPerMinute L p q Hdesc Hhd).
    apply HL. repeat split; try assumption; [now apply Hsome|].
    simpl. now rewrite Hqf, Hqm.
  - destruct (req_features requirements) as [|f fs] eqn:Hfs; [now left|]. right.
    intros q Hq.
    destruct (supportsFeatures requirements q) eqn:Hqf; [|reflexivity].
    destruct (inRegion requirements q) eqn:Hqr; [|reflexivity].
    destruct (meetsRateLimit requirements q) eqn:Hqm; [|reflexivity].
    assert (In q L) as HqL.
    { apply HL. repeat split; try assumption.
      - apply Hsome; [discriminate | exact Hqf].
      - subst suitable. simpl. now rewrite Hqf, Hqm. }
    destruct L; [destruct HqL | discriminate Hhd].
Qed.

(** [testConnection] in a world reached through the factory, for a
    configuration of a built-in provider: exactly one network call is issued,
    the quote request of that provider's own adapter, for RELIANCE when the
    provider is 'indian-api' and for AAPL otherwise; the test succeeds exactly
    when that quote resolves successfully, a rejection being reported as a
    failure.  When no adapter is found the test fails without a network
    call. *)
Theorem testConnection_builtin :
  forall (otherQuote : string -> Adapters.QuoteRequest -> Adapters.ApiCredentials ->
                       Adapters.Eff (Adapters.Outcome Adapters.StockQuote))
         (cs : list Call) (config : UserApiConfig)
         (credentials : Adapters.ApiCredentials)
         (network : Adapters.Url -> Adapters.FetchResult),
    let w := calls cs Registry.initial in
    let test := fst (testConnection otherQuote config credentials w) in
    (forall f, adapters Registry.initial !! providerId config = Some f ->
       let quote := getQuoteOf otherQuote f
                      {| Adapters.q_symbol := testSymbol config |} credentials in
       List.length (snd (Adapters.run network test)) = 1%nat /\
       snd (Adapters.run network test) = snd (Adapters.run network quote) /\
       fst (Adapters.run network test) = testOutcome (fst (Adapters.run network quote)) /\
       (t_success (fst (Adapters.run network test)) = true <->
        exists r, fst (Adapters.run network quote) = Adapters.Resolved r /\
                  Adapters.success r = true)) /\
    (fst (getAdapter config w) = None ->
       Adapters.run network test =
         ({| t_success := false; t_error := Some NoAdapter |}, [])).
Proof.
  intros otherQuote cs config credentials network w test. subst test. split.
  - intros f Hf quote.
    destruct (getAdapter_class cs config f Hf) as [a [Ha Hh]]. fold w in Ha, Hh.
    unfold testConnection. destruct (getAdapter config w) as [r w'].
    simpl in Ha, Hh. subst r. rewrite Hh. simpl. rewrite run_mapEff. simpl.
    fold quote. split; [|split; [reflexivity | split; [reflexivity|]]].
    + subst quote.
      apply adapters_initial in Hf as [[_ ->] | [[_ ->] | [_ ->]]]; reflexivity.
    + destruct (fst (Adapters.run network quote)) as [r|e]; simpl.
      * split; [intros H; now exists r | intros [r' [[= <-] H]]; exact H].
      * split; [discriminate | intros [r' [[=] _]]].
  - intros Hnone. unfold testConnection.
    destruct (getAdapter config w) as [r w']. simpl in Hnone. subst r. reflexivity.
Qed.

Lemma testConnection_builtin_witness :
  snd (Adapters.run (fun _ => Adapters.NetworkFailure)
         (fst (testConnection (fun _ _ _ => Adapters.Ret (Adapters.Resolved
                                 (Adapters.failed Adapters.RuntimeMessage)))
                 {| id := "mine"; providerId := "indian-api" |}
                 {| Adapters.apiKey := "secret" |}
                 (calls [] Registry.initial))))
  = [{| Adapters.endpoint := "https://indianapi.in/stock";
        Adapters.query := [("name", Adapters.QStr "RELIANCE")] |}].
Proof.
  rewrite (proj1 (proj2 (proj1 (testConnection_builtin
             (fun _ _ _ => Adapters.Ret (Adapters.Resolved
                             (Adapters.failed Adapters.RuntimeMessage)))
             [] {| id := "mine"; providerId := "indian-api" |}
             {| Adapters.apiKey := "secret" |} (fun _ => Adapters.NetworkFailure))
           NewIndianApiAdapter eq_refl))).
  reflexivity.
Defined.

(** ** Structure detector: further properties *)

Module DetectorExtProps.
Import JS FieldMapper Detector DetectorExt Order OrderProps.

Local Open Scope Q_scope.

Lemma mem_string_In (x : string) (l : list string) : mem_string x l = true <-> In x l.
Proof.
  unfold mem_string. rewrite existsb_exists. split.
  - intros [y [Hy E]]. apply String.eqb_eq in E. now subst.
  - intros H. exists x. split; [exact H | apply String.eqb_refl].
Qed.

Lemma descending_skipn {A : Type} (conf : A -> Q) (n : nat) (l : list A) (x y : A) :
  descending conf l -> In x (firstn n l) -> In y (skipn n l) -> conf y <= conf x.
Proof.
  revert l. induction n as [|n IH]; intros [|z l]; simpl; try tauto.
  intros [Hz Hl] [<- | Hx] Hy.
  - rewrite List.Forall_forall in Hz. apply Hz.
    rewrite <- (firstn_skipn n l). apply in_or_app. now right.
  - now apply (IH l).
Qed.

Lemma nameCandidates_confidence (fieldName : string) (c : Candidate) :
  In c (nameCandidates fieldName) -> confidence c = 9 # 10 \/ confidence c = 7 # 10.
Proof.
  unfold nameCandidates. intros H.
  apply in_flat_map in H as [[targetField patterns] [_ H]].
  apply in_flat_map in H as [pattern [_ H]].
  destruct (includes _ _); [|destruct H].
  destruct H as [<- | []]. simpl.
  destruct (String.eqb _ _); [now left | now right].
Qed.

Lemma valueCandidates_confidence (v : jsval) (c : Candidate) :
  In c (valueCandidates v) ->
  confidence c = 8 # 10 \/ confidence c = 9 # 10 \/
  confidence c = 6 # 10 \/ confidence c = 5 # 10.
Proof.
  unfold valueCandidates. destruct v; try (intros []).
  - intros H. apply in_app_or in H as [H | H].
    + destruct (_ && _ && _); [|destruct H]. destruct H as [<- | []]. simpl. tauto.
    + destruct (_ && _); [|destruct H]. destruct H as [<- | []]. simpl. tauto.
  - intros H. apply in_app_or in H as [H | H].
    + destruct (symbolPattern s); [|destruct H]. destruct H as [<- | []]. simpl. tauto.
    + destruct (urlPattern s); [|destruct H]. destruct H as [<- | []]. simpl. tauto.
Qed.

Lemma bestMatch_In (fields : list DetectedField) (usedFields : list string)
    (target : string) (m : Match) :
  bestMatch fields usedFields target = Some m ->
  In (m_field m) fields /\ ~ In (path (m_field m)) usedFields /\
  In (m_candidate m) (possibleMappings (m_field m)) /\
  c_targetField (m_candidate m) = target.
Proof.
  unfold bestMatch. intros H.
  assert (In m (sort_desc (fun m => confidence (m_candidate m))
       (flat_map (fun f =>
          List.map (fun c => {| m_candidate := c; m_field := f |})
            (List.filter (fun c => String.eqb (c_targetField c) target)
                         (possibleMappings f)))
          (List.filter (fun f => negb (mem_string (path f) usedFields)) fields)))) as Hin.
  { destruct (sort_desc _ _); [discriminate | injection H as ->; now left]. }
  apply sort_desc_In, in_flat_map in Hin as [f [Hf Hin]].
  apply filter_In in Hf as [Hf Hused].
  apply in_map_iff in Hin as [c [<- Hc]]. apply filter_In in Hc as [Hc Ht]. simpl.
  apply String.eqb_eq in Ht. repeat split; try assumption.
  intros Hu. apply mem_string_In in Hu. rewrite Hu in Hused. discriminate Hused.
Qed.

Lemma generated_weaken (fields : list DetectedField) (t : ExpectedType)
    (done : list string) (target : string) (st : list ApiFieldMapping * list string) :
  generated fields t done st -> generated fields t (done ++ [target]) st.
Proof.
  intros (Hall & Ht & Hs). split; [|now split].
  eapply List.Forall_impl; [|exact Hall]. simpl.
  intros m (H1 & H2 & H3 & H4). repeat split; try assumption.
  apply in_or_app. now left.
Qed.

Lemma generated_step (fields : list DetectedField) (t : ExpectedType)
    (done : list string) (target : string) (st : list ApiFieldMapping * list string) :
  ~ In target done -> generated fields t done st ->
  generated fields t (done ++ [target]) (generateStep fields t st target).
Proof.
  intros Hnew Hgen. destruct st as [mappings usedFields]. unfold generateStep.
  destruct (bestMatch fields usedFields target) as [m|] eqn:Hbest;
    [|now apply generated_weaken].
  destruct (Qltb (5 # 10) (confidence (m_candidate m))) eqn:Hconf;
    [|now apply generated_weaken].
  apply bestMatch_In in Hbest as (Hf & Hunused & Hc & Htarget).
  destruct Hgen as (Hall & Ht & Hs). simpl in Hall, Ht, Hs.
  assert (mem_string (path (m_field m)) usedFields = false) as Hmem.
  { destruct (mem_string _ _) eqn:E; [|reflexivity].
    apply mem_string_In in E. contradiction. }
  rewrite Hmem. rewrite List.Forall_forall in Hall. split; [|split]; simpl.
  - apply List.Forall_forall. intros x Hx. apply in_app_or in Hx as [Hx | [<- | []]].
    + destruct (Hall x Hx) as (H1 & H2 & H3 & H4). repeat split; try assumption;
        apply in_or_app; now left.
    + simpl. repeat split.
      * apply in_or_app. right. now left.
      * apply in_or_app. right. now left.
      * exists (m_field m), (m_candidate m). repeat split; try assumption.
        apply Qltb_true in Hconf. exact Hconf.
  - rewrite List.map_app. simpl. apply List.NoDup_app. repeat split.
    + exact Ht.
    + constructor; [intros [] | constructor].
    + intros x Hx [<- | []]. apply in_map_iff in Hx as [y [Hy Hin]].
      apply Hnew. rewrite <- Hy. apply (Hall y Hin).
  - rewrite List.map_app. simpl. apply List.NoDup_app. repeat split.
    + exact Hs.
    + constructor; [intros [] | constructor].
    + intros x Hx [<- | []]. apply in_map_iff in Hx as [y [Hy Hin]].
      apply Hunused. rewrite <- Hy. apply (Hall y Hin).
Qed.

Lemma generated_fold (fields : list DetectedField) (t : ExpectedType)
    (todo done : list string) (st : list ApiFieldMapping * list string) :
  List.NoDup (done ++ todo) -> generated fields t done st ->
  generated fields t (done ++ todo) (fold_left (generateStep fields t) todo st).
Proof.
  revert done st. induction todo as [|target todo IH]; intros done st Hnd Hgen; simpl.
  - now rewrite app_nil_r.
  - replace (done ++ target :: todo)%list with ((done ++ [target]) ++ todo)%list
      by (now rewrite <- app_assoc).
    apply IH.
    + now rewrite <- app_assoc.
    + apply generated_step; [|exact Hgen].
      apply List.NoDup_remove_2 in Hnd. intros H. apply Hnd. apply in_or_app. now left.
Qed.

Lemma requiredFields_NoDup (t : ExpectedType) : List.NoDup (getRequiredFields t).
Proof.
  destruct t; simpl;
    repeat (constructor; [simpl; intuition discriminate|]); constructor.
Qed.

Lemma generateMappings_generated (fields : list DetectedField) (t : ExpectedType) :
  generated fields t (getRequiredFields t)
    (fold_left (generateStep fields t) (getRequiredFields t) ([], [])).
Proof.
  apply (generated_fold fields t (getRequiredFields t) [] ([], [])).
  - apply requiredFields_NoDup.
  - split; [constructor | split; constructor].
Qed.

Lemma generateMappings_each (fields : list DetectedField) (t : ExpectedType)
    (m : ApiFieldMapping) :
  In m (generateMappings fields t) ->
  In (targetField m) (getRequiredFields t) /\ required m = true /\
  exists f c, In f fields /\ path f = sourceField m /\
              In c (possibleMappings f) /\ c_targetField c = targetField m /\
              5 # 10 < confidence c.
Proof.
  unfold generateMappings. intros Hm.
  destruct (generateMappings_generated fields t) as (Hall & _ & _).
  rewrite List.Forall_forall in Hall.
  destruct (Hall m Hm) as (H1 & H2 & _ & H4).
  split; [exact H1|]. split; [|exact H4].
  rewrite H2. unfold isFieldRequired. now apply mem_string_In.
Qed.

Lemma weights_sum (mappings : list ApiFieldMapping) (acc : Q) :
  List.Forall (fun m => required m = true) mappings ->
  fold_left (fun sum m => sum + weight m) mappings acc ==
  acc + inject_Z (Z.of_nat (List.length mappings)).
Proof.
  revert acc. induction mappings as [|m mappings IH]; intros acc Hall; simpl fold_left.
  - simpl. ring.
  - inversion Hall as [|? ? Hm Hrest]; subst. rewrite (IH _ Hrest).
    unfold weight. rewrite Hm.
    change (List.length (m :: mappings)) with (S (List.length mappings)).
    rewrite Nat2Z.inj_succ. unfold Z.succ. rewrite inject_Z_plus. ring.
Qed.

Lemma calculateConfidence_required (mappings : list ApiFieldMapping) :
  List.Forall (fun m => required m = true) mappings ->
  calculateConfidence mappings = match mappings with [] => Low | _ => High end.
Proof.
  intros Hall. destruct mappings as [|m mappings]; [reflexivity|].
  unfold calculateConfidence.
  set (n := inject_Z (Z.of_nat (List.length (m :: mappings)))).
  assert (0 < n) as Hpos.
  { subst n. change 0 with (inject_Z 0). rewrite <- Zlt_Qlt. simpl. lia. }
  assert (fold_left (fun sum m0 => sum + weight m0) (m :: mappings) 0 / n == 1) as E.
  { rewrite (weights_sum _ 0 Hall). fold n. field. intros H. rewrite H in Hpos.
    exact (Qlt_irrefl _ Hpos). }
  assert (Qltb (8 # 10) (fold_left (fun sum m0 => sum + weight m0) (m :: mappings) 0 / n)
          = true) as ->.
  { apply Qltb_true. rewrite E. reflexivity. }
  reflexivity.
Qed.

End DetectorExtProps.

Import FieldMapper Detector DetectorExt Order OrderProps DetectorExtProps.

(** [findPossibleMappings] returns at most three candidates, highest
    confidence first, each found from the field name or from the value and
    scored between 0.5 and 0.9; a candidate that was found but is not returned
    scores no higher than any returned one. *)
Theorem findPossibleMappings_top3 :
  forall (fieldName : string) (v : JS.jsval),
    let found := (nameCandidates fieldName ++ valueCandidates v)%list in
    let kept := findPossibleMappings fieldName v in
    (List.length kept <= 3)%nat /\
    descending confidence kept /\
    (forall c, In c kept ->
       In c found /\ (5 # 10 <= confidence c)%Q /\ (confidence c <= 9 # 10)%Q) /\
    (forall c, In c found ->
       In c kept \/ forall k, In k kept -> (confidence c <= confidence k)%Q).
Proof.
  intros fieldName v found kept. subst kept. unfold findPossibleMappings. fold found.
  split; [apply List.firstn_le_length|].
  split; [apply descending_firstn, sort_desc_descending|].
  split.
  - intros c Hc. apply firstn_In in Hc.
    apply (proj1 (sort_desc_In confidence c found)) in Hc. split; [exact Hc|].
    subst found. apply in_app_or in Hc as [Hc | Hc].
    + apply nameCandidates_confidence in Hc as [-> | ->]; split; discriminate.
    + apply valueCandidates_confidence in Hc as [-> | [-> | [-> | ->]]];
        split; discriminate.
  - intros c Hc. apply (proj2 (sort_desc_In confidence c found)) in Hc.
    rewrite <- (firstn_skipn 3 (sort_desc confidence found)) in Hc.
    apply in_app_or in Hc as [Hc | Hc]; [now left | right].
    intros k Hk.
    exact (descending_skipn confidence 3 _ k c (sort_desc_descending confidence found) Hk Hc).
Qed.

(** The mappings suggested by [generateMappings]: each targets a distinct
    required field of the expected kind and is marked required, no detected
    field is the source of two of them, and each comes from a candidate of its
    source field for that target with confidence above 0.5. *)
Theorem generateMappings_sound :
  forall (fields : list DetectedField) (t : ExpectedType),
    let suggested := generateMappings fields t in
    List.NoDup (List.map targetField suggested) /\
    List.NoDup (List.map sourceField suggested) /\
    (forall m, In m suggested ->
       In (targetField m) (getRequiredFields t) /\ required m = true /\
       exists f c, In f fields /\ path f = sourceField m /\
                   In c (possibleMappings f) /\ c_targetField c = targetField m /\
                   (5 # 10 < confidence c)%Q).
Proof.
  intros fields t suggested. subst suggested.
  destruct (generateMappings_generated fields t) as (_ & Ht & Hs).
  split; [exact Ht|]. split; [exact Hs|].
  apply generateMappings_each.
Qed.

(** The overall confidence reported by [detectStructure] is 'high' when at
    least one mapping is suggested and 'low' when none is: since every
    suggested mapping is required, the weighted average is 1, and 'medium' is
    never reported. *)
Theorem detectStructure_never_medium :
  forall (dateParse : string -> bool) (endpoint : string) (sampleResponse : JS.jsval)
         (expectedType : ExpectedType),
    let d := detectStructure dateParse endpoint sampleResponse expectedType in
    overall d = match suggestedMappings d with [] => Low | _ => High end /\
    overall d <> Medium.
Proof.
  intros dateParse endpoint sampleResponse expectedType d. subst d.
  unfold detectStructure. simpl.
  set (fields := extractFields dateParse sampleResponse).
  assert (List.Forall (fun m => required m = true) (generateMappings fields expectedType))
    as Hall.
  { apply List.Forall_forall. intros m Hm.
    apply (generateMappings_each fields expectedType m Hm). }
  rewrite (calculateConfidence_required _ Hall).
  split; [reflexivity|]. destruct (generateMappings fields expectedType); discriminate.
Qed.

(** Arrays are sampled: the elements of an array after the third never
    contribute a detected field, at any depth of the response. *)
Theorem extractFields_samples_arrays :
  forall (dateParse : string -> bool) (items extra : list JS.jsval) (currentPath : string),
    (3 <= List.length items)%nat ->
    traverse dateParse (JS.JArr (items ++ extra)) currentPath =
    traverse dateParse (JS.JArr items) currentPath.
Proof.
  intros dateParse items extra currentPath H.
  destruct items as [|a [|b [|c rest]]]; simpl in H; try lia.
  destruct rest as [|d rest]; [destruct extra|]; reflexivity.
Qed.

Lemma extractFields_samples_arrays_witness :
  extractFields (fun _ => false)
    (JS.JArr ([JS.JStr "AAPL"; JS.JStr "MSFT"; JS.JStr "TSLA"] ++ [JS.JStr "NFLX"])) =
  extractFields (fun _ => false)
    (JS.JArr [JS.JStr "AAPL"; JS.JStr "MSFT"; JS.JStr "TSLA"]).
Proof.
  apply (extractFields_samples_arrays (fun _ => false)
           [JS.JStr "AAPL"; JS.JStr "MSFT"; JS.JStr "TSLA"] [JS.JStr "NFLX"] "").
  simpl. lia.
Defined.

(** ** Custom adapter: transformation and quote operation *)

Module CustomProps.
Import JS FieldMapper FieldMapperSpec FieldMapperProps Adapters Registry RegistryProps Custom.

Lemma assign_other (target name : string) (v : Mapped) (result : Result) :
  target <> name -> field_of (assign target v result) name = field_of result name.
Proof.
  intros Hne. unfold assign, field_of.
  destruct (String.eqb target "__proto__"); [reflexivity | now apply map_get_set_ne].
Qed.

Lemma assign_target (target : string) (v : Mapped) (result : Result) :
  target <> "__proto__" -> field_of (assign target v result) target = Some v.
Proof.
  intros Hne. unfold assign, field_of.
  assert (String.eqb target "__proto__" = false) as -> by now apply String.eqb_neq.
  apply map_get_set.
Qed.

Lemma storeDefault_other (m : ApiFieldMapping) (result : Result) (name : string) :
  targetField m <> name -> field_of (storeDefault m result) name = field_of result name.
Proof.
  intros Hne. unfold storeDefault.
  destruct (definedDefault m); [now apply assign_other | reflexivity].
Qed.

Lemma storeDefault_target (m : ApiFieldMapping) (result : Result) :
  targetField m <> "__proto__" ->
  field_of (storeDefault m result) (targetField m) =
  match option_map Plain (definedDefault m) with
  | Some v => Some v
  | None => field_of result (targetField m)
  end.
Proof.
  intros Hne. unfold storeDefault.
  destruct (definedDefault m); simpl; [now apply assign_target | reflexivity].
Qed.

Lemma transformOne_other (raw : jsval) (result : Result) (m : ApiFieldMapping)
    (name : string) :
  targetField m <> name ->
  field_of (transformOne raw result m) name = field_of result name.
Proof.
  intros Hne. unfold transformOne.
  destruct (negb (is_nullish (extractValue raw (sourceField m))));
    [|now apply storeDefault_other].
  destruct (applyTransform _ _); [now apply assign_other | now apply storeDefault_other].
Qed.

Lemma transformOne_target (raw : jsval) (result : Result) (m : ApiFieldMapping) :
  targetField m <> "__proto__" ->
  field_of (transformOne raw result m) (targetField m) =
  match stored raw m with Some v => Some v | None => field_of result (targetField m) end.
Proof.
  intros Hne. unfold transformOne, stored.
  destruct (is_nullish (extractValue raw (sourceField m))); simpl;
    [now apply storeDefault_target|].
  destruct (applyTransform _ _); [now apply assign_target | now apply storeDefault_target].
Qed.

Lemma transformOne_defined (raw : jsval) (result : Result) (m : ApiFieldMapping)
    (name : string) :
  field_of result name <> None -> field_of (transformOne raw result m) name <> None.
Proof.
  intros Hdef. destruct (string_dec (targetField m) name) as [E | Hne].
  - destruct (string_dec (targetField m) "__proto__") as [Ep | Hp].
    + unfold transformOne, storeDefault, assign.
      assert (String.eqb (targetField m) "__proto__" = true) as ->
          by now apply String.eqb_eq.
      destruct (negb _); [destruct (applyTransform _ _)|];
        try destruct (definedDefault m); exact Hdef.
    + rewrite <- E, (transformOne_target raw result m Hp).
      destruct (stored raw m); [discriminate | now rewrite E].
  - now rewrite transformOne_other.
Qed.

Lemma transform_fold_other (raw : jsval) (ms : list ApiFieldMapping) (acc : Result)
    (name : string) :
  (forall m, In m ms -> targetField m <> name) ->
  field_of (fold_left (transformOne raw) ms acc) name = field_of acc name.
Proof.
  revert acc. induction ms as [|m ms IH]; intros acc Hne; simpl; [reflexivity|].
  rewrite IH by (intros m' Hm'; apply Hne; now right).
  apply transformOne_other. apply Hne. now left.
Qed.

Lemma transform_fold_defined (raw : jsval) (ms : list ApiFieldMapping) (acc : Result)
    (name : string) :
  field_of acc name <> None ->
  field_of (fold_left (transformOne raw) ms acc) name <> None.
Proof.
  revert acc. induction ms as [|m ms IH]; intros acc Hdef; simpl; [exact Hdef|].
  apply IH. now apply transformOne_defined.
Qed.

Lemma transform_fold_present (raw : jsval) (ms : list ApiFieldMapping) (acc : Result)
    (m : ApiFieldMapping) :
  In m ms -> targetField m <> "__proto__" -> stored raw m <> None ->
  field_of (fold_left (transformOne raw) ms acc) (targetField m) <> None.
Proof.
  revert acc. induction ms as [|m' ms IH]; intros acc Hin Hp Hv; [destruct Hin|].
  simpl. destruct Hin as [-> | Hin]; [|now apply IH].
  apply transform_fold_defined. rewrite transformOne_target by exact Hp.
  destruct (stored raw m); [discriminate | contradiction].
Qed.

(** [applyTransform] raises exactly for [parse_float] and [parse_date] on a
    value that cannot be converted to a primitive. *)
Lemma applyTransform_raises (value : jsval) (t : Transform) :
  applyTransform value t = None <->
  (t = TParseFloat \/ t = TParseDate) /\ raisesToPrimitive value = true.
Proof.
  destruct t; simpl; try (split; [discriminate | intros [[H | H] _]; discriminate H]);
    destruct (raisesToPrimitive value); split; try discriminate; auto;
    intros [_ H]; discriminate H.
Qed.

Lemma transform_fold_unique (raw : jsval) (ms : list ApiFieldMapping) (acc : Result)
    (m : ApiFieldMapping) :
  List.NoDup (List.map targetField ms) -> In m ms -> targetField m <> "__proto__" ->
  field_of (fold_left (transformOne raw) ms acc) (targetField m) =
  match stored raw m with Some v => Some v | None => field_of acc (targetField m) end.
Proof.
  revert acc. induction ms as [|m' ms IH]; intros acc Hnd Hin Hp; [destruct Hin|].
  simpl in Hnd. inversion Hnd as [|? ? Hfresh Hrest]; subst. simpl.
  destruct Hin as [-> | Hin].
  - rewrite transform_fold_other; [now apply transformOne_target|].
    intros m' Hm' E. apply Hfresh. rewrite <- E. now apply in_map.
  - rewrite (IH _ Hrest Hin Hp). destruct (stored raw m); [reflexivity|].
    apply transformOne_other. intros E. apply Hfresh. rewrite E. now apply in_map.
Qed.

Lemma validated_not_missing (raw : jsval) (ms : list ApiFieldMapping) (m : ApiFieldMapping) :
  validateResponse raw ms = [] -> In m ms -> required m = true ->
  is_nullish (extractValue raw (sourceField m)) = false.
Proof.
  unfold validateResponse. rewrite validate_fold. simpl. intros E Hin Hreq.
  destruct (is_nullish (extractValue raw (sourceField m))) eqn:Hv; [|reflexivity].
  assert (In m (List.filter (is_missing raw) ms)) as Hm.
  { apply filter_In. split; [exact Hin|]. unfold is_missing. now rewrite Hreq, Hv. }
  apply (in_map (fun m => missingRequiredField (sourceField m))) in Hm.
  rewrite E in Hm. destruct Hm.
Qed.

Lemma validated_first_missing (raw : jsval) (ms : list ApiFieldMapping)
    (e : ValidationError) (rest : list ValidationError) :
  validateResponse raw ms = e :: rest ->
  exists pre m post,
    ms = (pre ++ m :: post)%list /\ is_missing raw m = true /\
    (forall m', In m' pre -> is_missing raw m' = false) /\
    e = missingRequiredField (sourceField m).
Proof.
  unfold validateResponse. rewrite validate_fold. simpl.
  induction ms as [|m ms IH]; simpl; [discriminate|].
  destruct (is_missing raw m) eqn:Hm; simpl.
  - intros [= <- _]. exists [], m, ms. repeat split; [exact Hm | intros m' []].
  - intros H. destruct (IH H) as (pre & m0 & post & -> & Hm0 & Hpre & ->).
    exists (m :: pre), m0, post. repeat split; [exact Hm0|].
    intros m' [<- | Hin]; [exact Hm | now apply Hpre].
Qed.

(** The response and the mapping on which validation and transformation
    disagree: the value of [p] is there, but [parseFloat] raises on it. *)
Example validated_yet_absent :
  let body := JObj [("p", JObj [("toString", JNum 1)])] in
  let m := {| sourceField := "p"; targetField := "price"; dataType := DNumber;
              FieldMapper.transform := TParseFloat; defaultValue := None;
              required := true |} in
  validateResponse body [m] = [] /\ field_of (transform body [m]) "price" = None.
Proof. split; reflexivity. Qed.

(** *** Query parameters *)

Lemma params_set_get (key : string) (v : QueryValue) (q : list (string * QueryValue)) :
  map_get key (params_set key v q) = Some v.
Proof.
  induction q as [|[k v'] q IH]; simpl.
  - now rewrite String.eqb_refl.
  - destruct (String.eqb k key) eqn:E; simpl; rewrite E; [reflexivity | exact IH].
Qed.

Lemma filter_get_ne (key key' : string) (q : list (string * QueryValue)) :
  key <> key' ->
  map_get key' (List.filter (fun e => negb (String.eqb (fst e) key)) q) = map_get key' q.
Proof.
  intros Hne. induction q as [|[k v] q IH]; simpl; [reflexivity|].
  destruct (String.eqb k key) eqn:E; simpl.
  - apply String.eqb_eq in E. subst k.
    destruct (String.eqb key key') eqn:E'; [|exact IH].
    apply String.eqb_eq in E'. contradiction.
  - destruct (String.eqb k key'); [reflexivity | exact IH].
Qed.

Lemma params_set_get_ne (key key' : string) (v : QueryValue) (q : list (string * QueryValue)) :
  key <> key' -> map_get key' (params_set key v q) = map_get key' q.
Proof.
  intros Hne. induction q as [|[k v'] q IH]; simpl.
  - destruct (String.eqb key key') eqn:E; [|reflexivity].
    apply String.eqb_eq in E. contradiction.
  - destruct (String.eqb k key) eqn:E; simpl.
    + apply String.eqb_eq in E. subst k.
      destruct (String.eqb key key') eqn:E'.
      * apply String.eqb_eq in E'. contradiction.
      * now apply filter_get_ne.
    + destruct (String.eqb k key'); [reflexivity | exact IH].
Qed.

Lemma params_fold_get_ne (key : string) (ps : list (string * string))
    (q : list (string * QueryValue)) :
  (forall e, In e ps -> fst e <> key) ->
  map_get key (fold_left (fun q e => params_set (fst e) (QStr (snd e)) q) ps q) =
  map_get key q.
Proof.
  revert q. induction ps as [|e ps IH]; intros q Hne; simpl; [reflexivity|].
  rewrite IH by (intros e' He'; apply Hne; now right).
  apply params_set_get_ne. apply Hne. now left.
Qed.

End CustomProps.

Import FieldMapper FieldMapperSpec Custom CustomProps.

(** With pairwise distinct target fields, the object built by [transform]
    has, as the own property named by the target of each mapping, the
    transformed value extracted from the response; or the mapping's default
    when that value is null or undefined, or when the transformation raises;
    and no such property when there is no default either.  The
    transformation raises exactly for [parse_float] and [parse_date] on a
    value that cannot be converted to a primitive.  Own properties that are
    the target of no mapping are absent.  (The target is not [__proto__],
    which names no own property, and the extracted value is data or a member
    inherited by data.) *)
Theorem transform_fields :
  forall (rawResponse : JS.jsval) (mappings : list ApiFieldMapping),
    List.NoDup (List.map targetField mappings) ->
    (forall m, In m mappings -> targetField m <> "__proto__" ->
       JS.determined (extractValue rawResponse (sourceField m)) = true ->
       field_of (transform rawResponse mappings) (targetField m) =
       let value := extractValue rawResponse (sourceField m) in
       if JS.is_nullish value then option_map Plain (definedDefault m)
       else match applyTransform value (FieldMapper.transform m) with
            | Some v => Some v
            | None => option_map Plain (definedDefault m)
            end) /\
    (forall value t,
       applyTransform value t = None <->
       (t = TParseFloat \/ t = TParseDate) /\ JS.raisesToPrimitive value = true) /\
    (forall name, (forall m, In m mappings -> targetField m <> name) ->
       field_of (transform rawResponse mappings) name = None).
Proof.
  intros rawResponse mappings Hnd. split; [|split].
  - intros m Hm Hp _. unfold transform.
    rewrite (transform_fold_unique rawResponse mappings [] m Hnd Hm Hp).
    unfold stored. simpl.
    destruct (JS.is_nullish (extractValue rawResponse (sourceField m)));
      [destruct (definedDefault m); reflexivity|].
    destruct (applyTransform _ _); [reflexivity|].
    destruct (definedDefault m); reflexivity.
  - apply applyTransform_raises.
  - intros name Hname. unfold transform.
    now rewrite transform_fold_other.
Qed.

Lemma transform_fields_witness :
  field_of
    (transform (JS.JObj [("data", JS.JObj [("sym", JS.JStr "aapl");
                                           ("px", JS.JObj [("toString", JS.JNum 1)])])])
       [ {| sourceField := "data.sym"; targetField := "symbol"; dataType := DString;
            FieldMapper.transform := TUppercase; defaultValue := None; required := true |};
         {| sourceField := "data.px"; targetField := "price"; dataType := DNumber;
            FieldMapper.transform := TParseFloat; defaultValue := Some (JS.JNum 0);
            required := false |} ])
    "price"
  = Some (Plain (JS.JNum 0)).
Proof.
  apply (proj1 (transform_fields
           (JS.JObj [("data", JS.JObj [("sym", JS.JStr "aapl");
                                       ("px", JS.JObj [("toString", JS.JNum 1)])])])
           [ {| sourceField := "data.sym"; targetField := "symbol"; dataType := DString;
                FieldMapper.transform := TUppercase; defaultValue := None;
                required := true |};
             {| sourceField := "data.px"; targetField := "price"; dataType := DNumber;
                FieldMapper.transform := TParseFloat; defaultValue := Some (JS.JNum 0);
                required := false |} ]
           ltac:(repeat constructor; simpl; intuition discriminate))
         {| sourceField := "data.px"; targetField := "price"; dataType := DNumber;
            FieldMapper.transform := TParseFloat; defaultValue := Some (JS.JNum 0);
            required := false |}).
  - right. left. reflexivity.
  - discriminate.
  - reflexivity.
Defined.

(** A response that [validateResponse] accepts can still be transformed into
    an object that lacks the target of a required mapping: the value is
    there, but its transformation raises and the mapping has no default (as
    for the body [{p: {toString: 1}}] with a required [parse_float] mapping of
    [p]).  In every other case the target of a required mapping is present:
    when the mapping has a default, when its transformation is neither
    [parse_float] nor [parse_date], or when the extracted value can be
    converted to a primitive.  (The target is not [__proto__], which names no
    own property, and the extracted value is data or a member inherited by
    data.) *)
Theorem validated_transform_complete :
  forall (rawResponse : JS.jsval) (mappings : list ApiFieldMapping),
    validateResponse rawResponse mappings = [] ->
    forall m, In m mappings -> required m = true ->
      targetField m <> "__proto__" ->
      JS.determined (extractValue rawResponse (sourceField m)) = true ->
      (definedDefault m <> None \/
       (FieldMapper.transform m <> TParseFloat /\ FieldMapper.transform m <> TParseDate) \/
       JS.raisesToPrimitive (extractValue rawResponse (sourceField m)) = false) ->
      field_of (transform rawResponse mappings) (targetField m) <> None.
Proof.
  intros raw ms Hvalid m Hm Hreq Hproto _ Hok. unfold transform.
  apply transform_fold_present; [exact Hm | exact Hproto |].
  unfold stored. rewrite (validated_not_missing raw ms m Hvalid Hm Hreq).
  destruct (applyTransform (extractValue raw (sourceField m)) (FieldMapper.transform m))
    eqn:E; [discriminate|].
  apply applyTransform_raises in E as [Ht Hr].
  destruct Hok as [Hd | [[Hf Hdte] | Hp]].
  - destruct (definedDefault m); [discriminate | contradiction].
  - destruct Ht; contradiction.
  - rewrite Hp in Hr. discriminate Hr.
Qed.

Lemma validated_transform_complete_witness :
  field_of
    (transform (JS.JObj [("price", JS.JStr "187.32")])
       [ {| sourceField := "price"; targetField := "price"; dataType := DNumber;
            FieldMapper.transform := TParseFloat; defaultValue := None;
            required := true |} ])
    "price" <> None.
Proof.
  apply (validated_transform_complete (JS.JObj [("price", JS.JStr "187.32")])
           [ {| sourceField := "price"; targetField := "price"; dataType := DNumber;
                FieldMapper.transform := TParseFloat; defaultValue := None;
                required := true |} ]
           eq_refl
           {| sourceField := "price"; targetField := "price"; dataType := DNumber;
              FieldMapper.transform := TParseFloat; defaultValue := None;
              required := true |}).
  - left. reflexivity.
  - reflexivity.
  - discriminate.
  - reflexivity.
  - right. right. reflexivity.
Defined.

(** The quote operation of the custom adapter issues at most one network
    call, and none when no quote endpoint is configured.  It rejects only
    with HTTP_ERROR, carrying a status outside 200..299, or with
    INVALID_RESPONSE, whose message names the source field of the first
    required mapping missing from the body received.  A successful result
    carries the object that [transform] builds from the body received, a
    body with a status in 200..299 that [validateResponse] accepted. *)
Theorem custom_getQuote_outcome :
  forall (btoa encodeURIComponent : string -> string)
         (parseUrl : string -> option Adapters.Url)
         (config : CustomApiConfiguration) (request : Adapters.QuoteRequest)
         (credentials : Adapters.ApiCredentials)
         (network : Adapters.Url -> Adapters.FetchResult),
    let p := getQuote btoa encodeURIComponent parseUrl config request credentials in
    let o := fst (Adapters.run network p) in
    let issued := snd (Adapters.run network p) in
    (List.length issued <= 1)%nat /\
    (quoteEndpoint config = None ->
       issued = [] /\
       o = Adapters.Resolved (Adapters.failed
             (Adapters.Text "Quote endpoint not configured for this custom API"))) /\
    (forall e, o = Adapters.Rejected e ->
       (Adapters.err_code e = "HTTP_ERROR" /\
        exists status, Adapters.err_statusCode e = Some status /\
                       ((status < 200)%nat \/ (300 <= status)%nat)) \/
       (Adapters.err_code e = "INVALID_RESPONSE" /\
        exists url resp body pre m post,
          issued = [url] /\ network url = Adapters.Responded resp /\
          Adapters.json resp = Some body /\
          quoteMappings config = (pre ++ m :: post)%list /\
          is_missing body m = true /\
          (forall m', In m' pre -> is_missing body m' = false) /\
          Adapters.err_message e =
            JS.JStr ("Invalid response structure: Required field '"
                     ++ sourceField m ++ "' is missing"))) /\
    (forall r, o = Adapters.Resolved r -> Adapters.success r = true ->
       exists url resp body,
         issued = [url] /\ network url = Adapters.Responded resp /\
         Adapters.ok resp = true /\ Adapters.json resp = Some body /\
         validateResponse body (quoteMappings config) = [] /\
         Adapters.data r = Some (transform body (quoteMappings config))).
Proof.
  intros btoa encodeURIComponent parseUrl config request credentials network p o issued.
  subst o issued p. unfold getQuote.
  destruct (quoteEndpoint config) as [endpoint|]; simpl.
  - destruct (buildCustomUrl encodeURIComponent parseUrl config endpoint
                [("symbol", Adapters.q_symbol request)]) as [url|]; simpl.
    + split; [lia|]. split; [discriminate|].
      destruct (network url) as [|resp] eqn:Hnet; simpl.
      { split; [discriminate|]. intros r [= <-]. discriminate. }
      unfold quoteOf, Adapters.jsonOf, Adapters.throwIf. simpl.
      destruct (Adapters.ok resp) eqn:Hok; simpl.
      * destruct (Adapters.json resp) as [body|] eqn:Hjson; simpl.
        -- destruct (validateResponse body (quoteMappings config)) as [|e0 rest] eqn:Hv;
             simpl.
           ++ split; [discriminate|]. intros r [= <-] _.
              exists url, resp, body. repeat split; assumption.
           ++ split; [|discriminate]. intros e [= <-]. right. split; [reflexivity|].
              destruct (validated_first_missing _ _ _ _ Hv)
                as (pre & m & post & Hms & Hm & Hpre & ->).
              exists url, resp, body, pre, m, post. repeat split; assumption.
        -- split; [discriminate|]. intros r [= <-]. discriminate.
      * split; [|discriminate]. intros e [= <-]. left. split; [reflexivity|].
        exists (Adapters.status resp). split; [reflexivity|].
        unfold Adapters.ok in Hok. apply andb_false_iff in Hok as [H | H].
        -- left. apply Nat.leb_gt in H. exact H.
        -- right. apply Nat.ltb_ge in H. exact H.
    + split; [lia|]. split; [discriminate|]. split; [discriminate|].
      intros r [= <-]. discriminate.
  - split; [lia|]. split; [now split|]. split; [discriminate|].
    intros r [= <-]. discriminate.
Qed.

(** With the 'api_key' scheme the key of the credentials is never
    transmitted by the quote operation: the request does not depend on the
    credentials, no authentication header is added, and the query parameter
    named by [apiKeyParam] is set to the empty text (unless the endpoint's
    own query parameters redefine it). *)
Theorem api_key_scheme_sends_no_key :
  forall (btoa encodeURIComponent : string -> string)
         (parseUrl : string -> option Adapters.Url)
         (config : CustomApiConfiguration) (request : Adapters.QuoteRequest),
    authType config = ApiKey ->
    (forall c1 c2,
       getQuote btoa encodeURIComponent parseUrl config request c1 =
       getQuote btoa encodeURIComponent parseUrl config request c2) /\
    (forall credentials endpoint name url headers,
       quoteEndpoint config = Some endpoint ->
       apiKeyParam (authConfig config) = Some name -> name <> "" ->
       (forall e, In e (ep_queryParams endpoint) -> fst e <> name) ->
       firstRequest (getQuote btoa encodeURIComponent parseUrl config request credentials)
         = Some (url, headers) ->
       Registry.map_get name (Adapters.query url) = Some (Adapters.QStr "") /\
       headers = spread [] (ep_headers endpoint)).
Proof.
  intros btoa encodeURIComponent parseUrl config request Hauth. split.
  - intros c1 c2. unfold getQuote, getAuthHeaders. rewrite Hauth. reflexivity.
  - intros credentials endpoint name url headers Hep Hname Hne Hother.
    unfold getQuote, getAuthHeaders. rewrite Hep, Hauth.
    unfold buildCustomUrl. rewrite Hauth, Hname.
    assert (String.eqb name "" = false) as -> by now apply String.eqb_neq.
    destruct (parseUrl _) as [urlObj|]; simpl; [|discriminate].
    intros [= <- <-]. simpl. split; [|reflexivity].
    rewrite params_fold_get_ne by exact Hother.
    apply params_set_get.
Qed.

Lemma api_key_scheme_sends_no_key_witness :
  getQuote (fun s => s) (fun s => s)
    (fun text => Some {| Adapters.endpoint := text; Adapters.query := [] |})
    {| authType := ApiKey;
       authConfig := {| apiKeyParam := Some "token"; headerName := None;
                        headerPrefix := None; username := None |};
       quoteEndpoint := Some {| ep_url := "https://example.test/q/{symbol}";
                                ep_headers := []; ep_queryParams := [] |};
       quoteMappings := [] |}
    {| Adapters.q_symbol := "AAPL" |} {| Adapters.apiKey := "secret" |}
  =
  getQuote (fun s => s) (fun s => s)
    (fun text => Some {| Adapters.endpoint := text; Adapters.query := [] |})
    {| authType := ApiKey;
       authConfig := {| apiKeyParam := Some "token"; headerName := None;
                        headerPrefix := None; username := None |};
       quoteEndpoint := Some {| ep_url := "https://example.test/q/{symbol}";
                                ep_headers := []; ep_queryParams := [] |};
       quoteMappings := [] |}
    {| Adapters.q_symbol := "AAPL" |} {| Adapters.apiKey := "" |}.
Proof.
  apply (proj1 (api_key_scheme_sends_no_key (fun s => s) (fun s => s)
           (fun text => Some {| Adapters.endpoint := text; Adapters.query := [] |})
           {| authType := ApiKey;
              authConfig := {| apiKeyParam := Some "token"; headerName := None;
                               headerPrefix := None; username := None |};
              quoteEndpoint := Some {| ep_url := "https://example.test/q/{symbol}";
                                       ep_headers := []; ep_queryParams := [] |};
              quoteMappings := [] |}
           {| Adapters.q_symbol := "AAPL" |} eq_refl)).
Defined.

(** ** Built-in adapters: further properties *)

Module AdaptersExtProps.
Import JS Adapters AdaptersExt.

Lemma get_Value (d v : jsval) (key : string) : get d key = Value v <-> member d key = Some v.
Proof.
  unfold get. destruct (member d key); split; intros H; try discriminate; congruence.
Qed.

Lemma ok_false (resp : Response) :
  ok resp = false -> (status resp < 200)%nat \/ (300 <= status resp)%nat.
Proof.
  unfold ok. intros H. apply andb_false_iff in H as [H | H].
  - left. now apply Nat.leb_gt in H.
  - right. now apply Nat.ltb_ge in H.
Qed.

(** Case analysis on the scrutinee of the first [match] or [if] of the goal. *)
Ltac step_match :=
  match goal with
  | |- context [match ?x with _ => _ end] =>
      lazymatch x with
      | context [match _ with _ => _ end] => fail
      | _ => destruct x eqn:?
      end
  end.


Lemma alphaVantage_rejections (r : FetchResult) (e : ApiError) :
  catchAll (AlphaVantage.quoteOf r) = Rejected e ->
  In (err_code e) ["INVALID_SYMBOL"; "RATE_LIMIT_EXCEEDED"; "NO_DATA"].
Proof.
  unfold AlphaVantage.quoteOf, bodyOf, get, throwIf. simpl.
  repeat (step_match; simpl; try discriminate);
    intros [= <-]; simpl; tauto.
Qed.

Lemma finnhub_rejections (request : QuoteRequest) (r : FetchResult) (e : ApiError) :
  catchAll (Finnhub.quoteOf request r) = Rejected e ->
  In (err_code e) ["HTTP_ERROR"; "API_ERROR"; "NO_DATA"].
Proof.
  unfold Finnhub.quoteOf, responseOf, jsonOf, get, throwIf. simpl.
  repeat (step_match; simpl; try discriminate);
    intros [= <-]; simpl; tauto.
Qed.

Lemma indianApi_rejections (request : QuoteRequest) (r : FetchResult) (e : ApiError) :
  catchAll (IndianApi.quoteOf request r) = Rejected e ->
  In (err_code e) ["INVALID_SYMBOL"; "HTTP_ERROR"; "NO_DATA"].
Proof.
  unfold IndianApi.quoteOf, responseOf, jsonOf, get, throwIf. simpl.
  repeat (step_match; simpl; try discriminate);
    intros [= <-]; simpl; tauto.
Qed.

Lemma alphaVantage_success (r : FetchResult) (a : ApiResponse StockQuote) :
  catchAll (AlphaVantage.quoteOf r) = Resolved a -> success a = true ->
  exists q, data a = Some q /\ currency q = "USD" /\ exchange q = None.
Proof.
  unfold AlphaVantage.quoteOf, bodyOf, get, throwIf. simpl.
  repeat (step_match; simpl; try discriminate);
    intros [= <-]; simpl; try discriminate; intros _; eexists; repeat split.
Qed.

Lemma finnhub_success (request : QuoteRequest) (r : FetchResult) (a : ApiResponse StockQuote) :
  catchAll (Finnhub.quoteOf request r) = Resolved a -> success a = true ->
  exists q, data a = Some q /\ currency q = "USD" /\
            symbol q = JStr (toUpperCase (q_symbol request)).
Proof.
  unfold Finnhub.quoteOf, responseOf, jsonOf, get, throwIf. simpl.
  repeat (step_match; simpl; try discriminate);
    intros [= <-]; simpl; try discriminate; intros _; eexists; repeat split.
Qed.

Lemma indianApi_success (request : QuoteRequest) (r : FetchResult) (a : ApiResponse StockQuote) :
  catchAll (IndianApi.quoteOf request r) = Resolved a -> success a = true ->
  exists q, data a = Some q /\ currency q = "INR" /\
            (exchange q = Some "NSE" \/ exchange q = Some "BSE") /\
            truthy (symbol q) = true.
Proof.
  unfold IndianApi.quoteOf, responseOf, jsonOf, get, throwIf. simpl.
  repeat (step_match; simpl; try discriminate);
    intros [= <-]; simpl; try discriminate; intros _; eexists;
    (split; [reflexivity|]); (split; [reflexivity|]); (split; [tauto|]);
    unfold js_or;
    match goal with
    | H : negb (truthy ?t) = false |- context [truthy ?t] =>
        apply negb_false_iff in H; rewrite H; exact H
    end.
Qed.

End AdaptersExtProps.

Import Adapters AdaptersExt AdaptersExtProps.

(** The quote operation of each built-in adapter issues exactly one network
    call and rejects only with the error codes of its own list; a successful
    quote is in USD (Alpha Vantage, Finnhub) or in INR on NSE or BSE (Indian
    API); and when the network fails all three resolve with a failure instead
    of rejecting. *)
Theorem builtin_quote_outcomes :
  forall (request : QuoteRequest) (credentials : ApiCredentials)
         (network : Url -> FetchResult),
    let av := run network (AlphaVantage.getQuote request credentials) in
    let fh := run network (Finnhub.getQuote request credentials) in
    let ia := run network (IndianApi.getQuote request credentials) in
    (List.length (snd av) = 1%nat /\ List.length (snd fh) = 1%nat /\
     List.length (snd ia) = 1%nat) /\
    (forall e, fst av = Rejected e ->
       In (err_code e) ["INVALID_SYMBOL"; "RATE_LIMIT_EXCEEDED"; "NO_DATA"]) /\
    (forall e, fst fh = Rejected e ->
       In (err_code e) ["HTTP_ERROR"; "API_ERROR"; "NO_DATA"]) /\
    (forall e, fst ia = Rejected e ->
       In (err_code e) ["INVALID_SYMBOL"; "HTTP_ERROR"; "NO_DATA"]) /\
    (forall a, fst av = Resolved a -> success a = true ->
       exists q, data a = Some q /\ currency q = "USD" /\ exchange q = None) /\
    (forall a, fst fh = Resolved a -> success a = true ->
       exists q, data a = Some q /\ currency q = "USD" /\
                 symbol q = JS.JStr (JS.toUpperCase (q_symbol request))) /\
    (forall a, fst ia = Resolved a -> success a = true ->
       exists q, data a = Some q /\ currency q = "INR" /\
                 (exchange q = Some "NSE" \/ exchange q = Some "BSE") /\
                 JS.truthy (symbol q) = true) /\
    ((forall url, network url = NetworkFailure) ->
       fst av = Resolved (failed RuntimeMessage) /\
       fst fh = Resolved (failed RuntimeMessage) /\
       fst ia = Resolved (failed RuntimeMessage)).
Proof.
  intros request credentials network av fh ia. subst av fh ia. simpl.
  split; [repeat split|].
  split; [apply alphaVantage_rejections|].
  split; [apply finnhub_rejections|].
  split; [apply indianApi_rejections|].
  split; [apply alphaVantage_success|].
  split; [apply finnhub_success|].
  split; [apply indianApi_success|].
  intros Hfail. rewrite !Hfail. repeat split.
Qed.

(** HTTP status handling of the quote operations.  The Alpha Vantage adapter
    never looks at the status: its outcome is determined by the body alone.
    The Finnhub adapter rejects every status outside 200..299 with HTTP_ERROR
    carrying that status, and the Indian API adapter does the same except
    for 404, which it rejects with INVALID_SYMBOL; neither reads the body
    then. *)
Theorem quote_status_handling :
  forall (request : QuoteRequest) (resp : Response),
    (forall resp', json resp' = json resp ->
       AlphaVantage.quoteOf (Responded resp') = AlphaVantage.quoteOf (Responded resp)) /\
    (ok resp = false ->
       catchAll (Finnhub.quoteOf request (Responded resp)) =
         Rejected (httpError (status resp)) /\
       catchAll (IndianApi.quoteOf request (Responded resp)) =
         Rejected (if (status resp =? 404)%nat
                   then apiError (JS.JStr "Stock not found") "INVALID_SYMBOL"
                   else httpError (status resp))).
Proof.
  intros request resp. split.
  - intros resp' Hjson. unfold AlphaVantage.quoteOf, bodyOf. rewrite Hjson.
    destruct (json resp); reflexivity.
  - intros Hok. unfold Finnhub.quoteOf, IndianApi.quoteOf, throwIf. simpl.
    rewrite Hok. simpl. split; reflexivity.
Qed.

Lemma quote_status_handling_witness :
  catchAll (Finnhub.quoteOf {| q_symbol := "aapl" |}
              (Responded {| status := 500; json := Some (JS.JObj [("c", JS.JNum 1)]) |}))
  = Rejected (httpError 500).
Proof.
  apply (proj1 (proj2 (quote_status_handling {| q_symbol := "aapl" |}
           {| status := 500; json := Some (JS.JObj [("c", JS.JNum 1)]) |}) eq_refl)).
Defined.


(** [getSupportedSymbols] never fails: the Alpha Vantage and Finnhub adapters
    answer with an empty list without any network call, and the Indian API
    adapter issues one call and reports success whatever comes back, with an
    empty list when the network fails, the status is outside 200..299 or the
    body is not JSON. *)
Theorem getSupportedSymbols_always_succeeds :
  forall (credentials : ApiCredentials) (network : Url -> FetchResult),
    run network (noSupportedSymbols credentials) = (ok_response [], []) /\
    let ia := run network (indianApiSupportedSymbols credentials) in
    success (fst ia) = true /\ error (fst ia) = None /\
    (exists symbols, data (fst ia) = Some symbols) /\
    List.length (snd ia) = 1%nat /\
    (forall url, snd ia = [url] ->
       match network url with
       | NetworkFailure => data (fst ia) = Some []
       | Responded resp =>
           (ok resp = false \/ json resp = None) -> data (fst ia) = Some []
       end).
Proof.
  intros credentials network. split; [reflexivity|]. simpl.
  set (url := {| endpoint := _; query := [] |}).
  assert (forall t, success (orEmpty t) = true /\ error (orEmpty t) = None /\
                    exists symbols, data (orEmpty t) = Some symbols) as Hor.
  { intros [l | e |]; simpl; repeat split; eexists; reflexivity. }
  split; [apply Hor|]. split; [apply Hor|]. split; [apply Hor|].
  split; [reflexivity|].
  intros url' [= <-]. unfold responseOf, jsonOf.
  destruct (network url) as [|resp]; simpl; [reflexivity|].
  intros [Hok | Hjson].
  - rewrite Hok. reflexivity.
  - destruct (ok resp); simpl; [|reflexivity]. rewrite Hjson. reflexivity.
Qed.

(** ** The API client *)

Module ClientProps.
Import JS Adapters Registry RegistryProps RegistryExt RegistryExtProps Client.

Lemma map_set_keys {V : Type} (key : string) (v : V) (m : list (string * V)) (k : string) :
  In k (List.map fst (map_set key v m)) <-> k = key \/ In k (List.map fst m).
Proof.
  induction m as [|[k' v'] m IH]; simpl.
  - intuition.
  - destruct (String.eqb k' key) eqn:E; simpl.
    + apply String.eqb_eq in E. subst k'. intuition.
    + rewrite IH. intuition.
Qed.

Lemma map_set_NoDup {V : Type} (key : string) (v : V) (m : list (string * V)) :
  List.NoDup (List.map fst m) -> List.NoDup (List.map fst (map_set key v m)).
Proof.
  induction m as [|[k' v'] m IH]; simpl; intros Hnd.
  - constructor; [intros [] | constructor].
  - inversion Hnd as [|? ? Hfresh Hrest]; subst.
    destruct (String.eqb k' key) eqn:E; simpl.
    + constructor; assumption.
    + constructor; [|now apply IH].
      rewrite map_set_keys. intros [-> | H]; [|contradiction].
      rewrite String.eqb_refl in E. discriminate E.
Qed.

Lemma load_snoc (configs : list ClientConfig) (c : ClientConfig) :
  loadConfigurations (configs ++ [c]) =
  if isActive c then map_set (providerId (cfg c)) c (loadConfigurations configs)
  else loadConfigurations configs.
Proof. unfold loadConfigurations. now rewrite fold_left_app. Qed.

Lemma find_last_snoc {A : Type} (p : A -> bool) (l : list A) (x : A) :
  find_last p (l ++ [x]) = if p x then Some x else find_last p l.
Proof. unfold find_last. rewrite rev_app_distr. reflexivity. Qed.

Lemma load_get (configs : list ClientConfig) (p : string) :
  getConfiguration p (loadConfigurations configs) =
  find_last (fun c => isActive c && String.eqb (providerId (cfg c)) p) configs.
Proof.
  induction configs as [|c configs IH] using rev_ind; [reflexivity|].
  rewrite load_snoc, find_last_snoc. unfold getConfiguration in *.
  destruct (isActive c); simpl; [|exact IH].
  destruct (String.eqb (providerId (cfg c)) p) eqn:E.
  - apply String.eqb_eq in E. subst p. apply map_get_set.
  - rewrite map_get_set_ne; [exact IH|]. intros H. rewrite H, String.eqb_refl in E.
    discriminate E.
Qed.

Lemma load_keys (configs : list ClientConfig) (p : string) :
  In p (getAvailableProviders (loadConfigurations configs)) <->
  exists c, In c configs /\ isActive c = true /\ providerId (cfg c) = p.
Proof.
  unfold getAvailableProviders.
  induction configs as [|c configs IH] using rev_ind.
  - simpl. split; [intros [] | intros (c & [] & _)].
  - rewrite load_snoc. destruct (isActive c) eqn:Ha.
    + rewrite map_set_keys, IH. split.
      * intros [-> | (c' & Hc' & H)].
        -- exists c. split; [apply in_or_app; right; now left | now split].
        -- exists c'. split; [apply in_or_app; now left | exact H].
      * intros (c' & Hc' & Ha' & Hp). apply in_app_or in Hc' as [Hc' | [<- | []]].
        -- right. exists c'. now repeat split.
        -- left. now symmetry.
    + rewrite IH. split.
      * intros (c' & Hc' & H). exists c'. split; [apply in_or_app; now left | exact H].
      * intros (c' & Hc' & Ha' & Hp). apply in_app_or in Hc' as [Hc' | [<- | []]].
        -- exists c'. now repeat split.
        -- congruence.
Qed.

Lemma load_NoDup (configs : list ClientConfig) :
  List.NoDup (getAvailableProviders (loadConfigurations configs)).
Proof.
  unfold getAvailableProviders.
  induction configs as [|c configs IH] using rev_ind; [constructor|].
  rewrite load_snoc. destruct (isActive c); [now apply map_set_NoDup | exact IH].
Qed.

Lemma find_last_Some {A : Type} (p : A -> bool) (l : list A) (x : A) :
  find_last p l = Some x -> In x l /\ p x = true.
Proof.
  unfold find_last. intros H. apply find_some in H as [Hin Hp].
  split; [now apply in_rev | exact Hp].
Qed.

Lemma load_get_Some (configs : list ClientConfig) (p : string) (c : ClientConfig) :
  getConfiguration p (loadConfigurations configs) = Some c ->
  In c configs /\ isActive c = true /\ providerId (cfg c) = p.
Proof.
  rewrite load_get. intros H. apply find_last_Some in H as [Hin Hp].
  apply andb_true_iff in Hp as [Ha He]. apply String.eqb_eq in He. now repeat split.
Qed.

End ClientProps.

Import Registry RegistryExt Client ClientProps.

(** [loadConfigurations] keeps the active configurations only, one per
    provider: the configuration kept for a provider is the last active one of
    the list for it, and [getAvailableProviders] lists each provider that has
    an active configuration exactly once. *)
Theorem loadConfigurations_last_active :
  forall (configs : list ClientConfig) (p : string),
    let m := loadConfigurations configs in
    getConfiguration p m =
      find_last (fun c => isActive c && String.eqb (providerId (cfg c)) p) configs /\
    (forall c, getConfiguration p m = Some c ->
       In c configs /\ isActive c = true /\ providerId (cfg c) = p) /\
    List.NoDup (getAvailableProviders m) /\
    (In p (getAvailableProviders m) <->
     exists c, In c configs /\ isActive c = true /\ providerId (cfg c) = p).
Proof.
  intros configs p m. subst m.
  split; [apply load_get|]. split; [apply load_get_Some|].
  split; [apply load_NoDup | apply load_keys].
Qed.

(** [getStockQuote] with a preferred provider, in a world reached through the
    factory.  When the provider has no active configuration the call fails
    without any network call.  When it has one and the provider is built in,
    exactly one network call is issued: the quote request of that provider's
    adapter for the upper-cased symbol, with the credentials of the
    configuration; the call never rejects, a rejection of the adapter being
    reported as a failure, and the last-used stamp of the configuration is
    refreshed exactly when the quote succeeded. *)
Theorem getStockQuote_preferred :
  forall (otherProvider : string -> ApiProvider)
         (otherQuote : string -> Adapters.QuoteRequest -> Adapters.ApiCredentials ->
                       Adapters.Eff (Adapters.Outcome Adapters.StockQuote))
         (cs : list Call) (configs : list ClientConfig) (symbol p : string)
         (network : Adapters.Url -> Adapters.FetchResult),
    p <> "" ->
    let m := loadConfigurations configs in
    let w := calls cs Registry.initial in
    let r := Adapters.run network
               (fst (getStockQuote otherProvider otherQuote symbol (Some p) m w)) in
    (getConfiguration p m = None -> r = (failure (NotConfigured p), [])) /\
    (forall config f,
       getConfiguration p m = Some config ->
       adapters Registry.initial !! p = Some f ->
       let quote := Adapters.run network
                      (getQuoteOf otherQuote f
                         {| Adapters.q_symbol := JS.toUpperCase symbol |}
                         (credentials config)) in
       snd r = snd quote /\ List.length (snd r) = 1%nat /\
       fst r = quoteResult config (fst quote) /\
       (r_success (fst r) = true <->
        exists a, fst quote = Adapters.Resolved a /\ Adapters.success a = true) /\
       (r_touched (fst r) = Some (id (cfg config)) <-> r_success (fst r) = true)).
Proof.
  intros otherProvider otherQuote cs configs symbol p network Hp m w r.
  subst r. unfold getStockQuote.
  assert (String.eqb p "" = false) as Hpe by now apply String.eqb_neq.
  rewrite Hpe. cbv beta iota. rewrite Hpe.
  split.
  - unfold getConfiguration. intros ->. reflexivity.
  - intros config f Hconfig Hf.
    set (quote := Adapters.run network
                    (getQuoteOf otherQuote f
                       {| Adapters.q_symbol := JS.toUpperCase symbol |}
                       (credentials config))).
    unfold getConfiguration in Hconfig. rewrite Hconfig.
    destruct (load_get_Some configs p config Hconfig) as (_ & _ & Hpid).
    rewrite <- Hpid in Hf.
    destruct (getAdapter_class cs (cfg config) f Hf) as [a [Ha Hh]]. fold w in Ha, Hh.
    destruct (getAdapter (cfg config) w) as [o w2]. simpl in Ha, Hh. subst o.
    rewrite Hh. simpl. rewrite run_mapEff. fold quote. simpl.
    split; [reflexivity|]. split.
    + subst quote.
      apply adapters_initial in Hf as [[_ ->] | [[_ ->] | [_ ->]]]; reflexivity.
    + split; [reflexivity|].
      destruct (fst quote) as [a0|e]; simpl.
      * split.
        -- split; [intros H; now exists a0 | intros [a' [[= <-] H]]; exact H].
        -- destruct (Adapters.success a0); split; intros H; try reflexivity;
             discriminate H.
      * split; split; try discriminate. intros [a' [[=] _]].
Qed.

Lemma getStockQuote_preferred_witness :
  Adapters.run (fun _ => Adapters.NetworkFailure)
    (fst (getStockQuote (fun _ => finnhubProvider)
            (fun _ _ _ => Adapters.Ret (Adapters.Resolved
                            (Adapters.failed Adapters.RuntimeMessage)))
            "aapl" (Some "finnhub") (loadConfigurations []) (calls [] Registry.initial)))
  = (failure (NotConfigured "finnhub"), []).
Proof.
  apply (proj1 (getStockQuote_preferred (fun _ => finnhubProvider)
           (fun _ _ _ => Adapters.Ret (Adapters.Resolved
                           (Adapters.failed Adapters.RuntimeMessage)))
           [] [] "aapl" "finnhub" (fun _ => Adapters.NetworkFailure)
           ltac:(discriminate))).
  reflexivity.
Defined.

(** ** Store middleware *)

Module MiddlewareProps.
Import JS WS WSSpec WSProps WSExt WSExtProps Middleware.

Lemma initStep_other (validUrl : string -> bool) (st : Manager) (c : ApiConfig) :
  a_providerId c <> "finnhub" -> isInherited KObject (a_providerId c) = false ->
  initStep validUrl st c = st.
Proof.
  intros Hne Hinh. unfold initStep, webSocketConfigs.
  assert (String.eqb (a_providerId c) "finnhub" = false) as ->
      by now apply String.eqb_neq.
  now rewrite Hinh.
Qed.

Lemma initStep_finnhub (validUrl : string -> bool) (st : Manager) (c : ApiConfig) :
  a_providerId c = "finnhub" ->
  initStep validUrl st c =
  snd (connect validUrl "finnhub" finnhubSocketConfig (a_apiKey c) st).
Proof. intros E. unfold initStep, webSocketConfigs. rewrite E. reflexivity. Qed.

Lemma initStep_inherited (validUrl : string -> bool) (st : Manager) (c : ApiConfig) :
  isInherited KObject (a_providerId c) = true ->
  initStep validUrl st c =
  snd (connect validUrl (a_providerId c) inheritedSocketConfig (a_apiKey c) st).
Proof.
  intros Hinh. unfold initStep, webSocketConfigs. rewrite Hinh.
  destruct (String.eqb_spec (a_providerId c) "finnhub") as [E|_]; [|reflexivity].
  rewrite E in Hinh. discriminate Hinh.
Qed.

Lemma connect_shape (validUrl : string -> bool) (p : string) (config : WebSocketConfig)
    (key : string) (st : Manager) :
  validUrl (url config) = true ->
  let st' := snd (connect validUrl p config key st) in
  sockets st' = retired p st ++
    [ {| s_provider := p; s_config := config; s_apiKey := key;
         readyState := CONNECTING; sent := [] |} ] /\
  connections st' !! p = Some (List.length (sockets st)) /\
  (forall q, q <> p -> connections st' !! q = connections st !! q) /\
  subscriptions st' = subscriptions st.
Proof.
  intros Hv. unfold connect, retired. rewrite Hv.
  destruct (connections st !! p) as [ws|] eqn:E.
  - generalize (disconnect_fields p st) (length_disconnect p st).
    rewrite E. generalize (disconnect p st) as st1.
    intros st1 (Hsub & _ & _ & Hc & _ & Hs) Hlen. simpl.
    rewrite Hsub, Hc. repeat split.
    + now rewrite Hs.
    + rewrite lookup_insert_eq. now rewrite Hlen.
    + intros q Hne. rewrite lookup_insert_ne by congruence.
      now rewrite lookup_delete_ne by congruence.
  - simpl. repeat split.
    + apply lookup_insert_eq.
    + intros q Hne. now rewrite lookup_insert_ne by congruence.
Qed.

Lemma retired_length (p : string) (st : Manager) :
  List.length (retired p st) = List.length (sockets st).
Proof.
  unfold retired. destruct (connections st !! p); [apply length_close_socket | reflexivity].
Qed.

Lemma retired_other (p : string) (st : Manager) (ws : nat) :
  connections st !! p <> Some ws -> retired p st !! ws = sockets st !! ws.
Proof.
  unfold retired. intros Hne. destruct (connections st !! p) as [ws0|]; [|reflexivity].
  simpl. apply list_lookup_alter_ne. congruence.
Qed.

Lemma retired_recorded (p : string) (st : Manager) (ws : nat) (s : Socket) :
  connections st !! p = Some ws -> sockets st !! ws = Some s ->
  readyState s <> CLOSED ->
  exists s', retired p st !! ws = Some s' /\ s_provider s' = s_provider s /\
             s_apiKey s' = s_apiKey s /\ readyState s' = CLOSING.
Proof.
  unfold retired. intros -> Hs Hr. simpl. rewrite list_lookup_alter_eq, Hs. simpl.
  eexists. split; [reflexivity|]. simpl. repeat split.
  destruct (readyState s); try reflexivity. contradiction.
Qed.

Lemma finnhubKeys_snoc (l : list ApiConfig) (c : ApiConfig) :
  finnhubKeys (l ++ [c]) =
  (finnhubKeys l ++
   if String.eqb (a_providerId c) "finnhub" then [a_apiKey c] else [])%list.
Proof.
  unfold finnhubKeys. rewrite List.filter_app, List.map_app. simpl.
  destruct (String.eqb (a_providerId c) "finnhub"); reflexivity.
Qed.

Lemma initialized_connect (validUrl : string -> bool) (st st' : Manager)
    (keys : list string) (key : string) :
  validUrl "wss://ws.finnhub.io" = true -> connectionsLive st ->
  initialized st st' keys ->
  initialized st (snd (connect validUrl "finnhub" finnhubSocketConfig key st'))
    (keys ++ [key]).
Proof.
  intros Hv Hlive (Hl & Hsub & Hc & Hs & Hlen & Hidx & Hlast).
  destruct (connect_shape validUrl "finnhub" finnhubSocketConfig key st' Hv)
    as (S2 & C2 & O2 & Sub2).
  set (st2 := snd (connect validUrl "finnhub" finnhubSocketConfig key st')) in *.
  pose proof (retired_length "finnhub" st') as Hrl.
  split; [now apply live_connect|].
  split; [now rewrite Sub2|].
  split; [intros p Hne; rewrite O2 by exact Hne; now apply Hc|].
  split.
  { intros p ws Hne Hp. rewrite S2.
    assert (ws < List.length (sockets st)) as Hlt by (eapply live_lt; eassumption).
    rewrite lookup_app_l by (rewrite Hrl, Hlen; lia).
    rewrite retired_other; [now apply (Hs p)|].
    intros Hf. destruct (Hl _ _ Hf) as [s [Hsw [Hprov _]]].
    rewrite (Hs p ws Hne Hp) in Hsw.
    destruct (Hlive p ws Hp) as [s0 [Hs0 [Hp0 _]]]. congruence. }
  split; [rewrite S2, !length_app, Hrl, Hlen; simpl; lia|].
  split.
  - intros i k Hk. rewrite length_app. simpl.
    destruct (decide (i < List.length keys)) as [Hi | Hi].
    + rewrite lookup_app_l in Hk by exact Hi.
      destruct (Hidx i k Hk) as [s [Hsi [Hp [Hkey Hr]]]].
      assert (keys <> []) as Hne by (intros ->; simpl in Hi; lia).
      assert (connections st' !! "finnhub" = Some (List.length (sockets st') - 1)) as Hrec
          by (destruct keys; [contradiction | exact Hlast]).
      rewrite S2, lookup_app_l by (rewrite Hrl, Hlen; lia).
      destruct (decide (S i = List.length keys)) as [Hlast_i | Hnot].
      * assert (List.length (sockets st') - 1 = List.length (sockets st) + i) as Hix
            by (rewrite Hlen; lia).
        rewrite Hix in Hrec.
        assert (readyState s <> CLOSED) as Hopen by (rewrite Hr; discriminate).
        destruct (retired_recorded "finnhub" st' _ s Hrec Hsi Hopen)
          as [s' [Hs' [Hp' [Hk' Hr']]]].
        exists s'. split; [exact Hs'|]. split; [congruence|]. split; [congruence|].
        destruct (decide (S i = List.length keys + 1)); [lia | exact Hr'].
      * rewrite retired_other by (rewrite Hrec; intros [= E]; rewrite Hlen in E; lia).
        exists s. split; [exact Hsi|]. split; [exact Hp|]. split; [exact Hkey|].
        destruct (decide (S i = List.length keys + 1)); [lia | exact Hr].
    + assert (i = List.length keys) as ->.
      { apply lookup_lt_Some in Hk. rewrite length_app in Hk. simpl in Hk. lia. }
      rewrite list_lookup_middle in Hk by reflexivity. injection Hk as <-.
      rewrite S2, list_lookup_middle by (rewrite Hrl, Hlen; reflexivity).
      eexists. split; [reflexivity|]. simpl. repeat split.
      destruct (decide (S (List.length keys) = List.length keys + 1)); [reflexivity | lia].
  - assert (connections st2 !! "finnhub" = Some (List.length (sockets st2) - 1)) as Hrec.
    { rewrite C2, S2, length_app, Hrl. simpl. f_equal. lia. }
    destruct keys; exact Hrec.
Qed.

Lemma initialized_loop (validUrl : string -> bool) (apiConfigs : list ApiConfig)
    (st : Manager) :
  validUrl "wss://ws.finnhub.io" = true -> connectionsLive st ->
  ordinaryProviders apiConfigs ->
  initialized st (initializeWebSocketConnections validUrl apiConfigs st)
    (finnhubKeys apiConfigs).
Proof.
  intros Hv Hlive Hord. unfold initializeWebSocketConnections.
  induction apiConfigs as [|c l IH] using rev_ind.
  - simpl. split; [exact Hlive|]. repeat split; try (simpl; lia).
    intros i key Hk. simpl in Hk. discriminate Hk.
  - unfold ordinaryProviders in Hord. apply Forall_app in Hord as [Hl Hc].
    specialize (IH Hl). apply Forall_inv in Hc.
    rewrite fold_left_app, finnhubKeys_snoc. simpl.
    destruct (String.eqb (a_providerId c) "finnhub") eqn:E.
    + apply String.eqb_eq in E. rewrite (initStep_finnhub validUrl _ c E).
      now apply initialized_connect.
    + rewrite app_nil_r, initStep_other; [exact IH | | exact Hc].
      intros H. rewrite H in E. discriminate E.
Qed.

End MiddlewareProps.

Import WS WSSpec WSProps WSExt WSExtProps Middleware MiddlewareProps.

(** When no configuration names its provider by a member that object
    literals inherit, [initializeWebSocketConnections] opens one transport
    per Finnhub configuration, in order, each [connect] retiring the
    transport of the previous one: afterwards only the transport of the last
    Finnhub configuration is connecting, with that configuration's key, and
    the earlier ones are closing; configurations of other providers open
    nothing, and the connections, the status and the subscriptions of other
    providers are left as they were.  For a configuration whose provider id
    is such an inherited name ("constructor", "toString", ...) the table
    lookup is truthy and [connect] is called with the address "undefined":
    where the browser accepts it, a transport is created and the provider is
    'connecting'. *)
Theorem initialize_keeps_last_finnhub :
  forall (validUrl : string -> bool) (events : list Event) (apiConfigs : list ApiConfig),
    let st := run validUrl events WS.initial in
    (validUrl "wss://ws.finnhub.io" = true -> ordinaryProviders apiConfigs ->
     let st' := initializeWebSocketConnections validUrl apiConfigs st in
     let keys := finnhubKeys apiConfigs in
     List.length (sockets st') = (List.length (sockets st) + List.length keys)%nat /\
     (forall i key, keys !! i = Some key ->
        exists s, sockets st' !! (List.length (sockets st) + i)%nat = Some s /\
                  s_provider s = "finnhub" /\ s_apiKey s = key /\
                  readyState s = if decide (S i = List.length keys) then CONNECTING
                                 else CLOSING) /\
     (keys <> [] -> getConnectionStatus "finnhub" st' = StatusConnecting) /\
     (keys = [] -> st' = st) /\
     subscriptions st' = subscriptions st /\
     (forall p, p <> "finnhub" ->
        connections st' !! p = connections st !! p /\
        getConnectionStatus p st' = getConnectionStatus p st)) /\
    (forall c, isInherited KObject (a_providerId c) = true ->
       let st' := initializeWebSocketConnections validUrl [c] st in
       st' = snd (connect validUrl (a_providerId c) inheritedSocketConfig (a_apiKey c) st) /\
       (validUrl "undefined" = true ->
        List.length (sockets st') = S (List.length (sockets st)) /\
        getConnectionStatus (a_providerId c) st' = StatusConnecting)).
Proof.
  intros validUrl events apiConfigs st.
  assert (connectionsLive st) as Hlive
      by apply connectionsLive_run, connectionsLive_initial.
  split.
  - intros Hv Hord st' keys.
    destruct (initialized_loop validUrl apiConfigs st Hv Hlive Hord)
      as (Hl & Hsub & Hc & Hs & Hlen & Hidx & Hlast).
    fold st' keys in Hl, Hsub, Hc, Hs, Hlen, Hidx, Hlast.
    split; [exact Hlen|]. split; [exact Hidx|].
    split; [|split; [|split; [exact Hsub|]]].
    + intros Hne. destruct keys as [|k0 keys0] eqn:Hk; [contradiction|].
      assert (exists k, (k0 :: keys0) !! (List.length keys0) = Some k) as [k Hlk].
      { apply lookup_lt_is_Some. simpl. lia. }
      destruct (Hidx _ _ Hlk) as [s [Hs' [_ [_ Hr]]]].
      rewrite (status_of_socket "finnhub" _ s st' Hlast).
      * destruct (decide (S (List.length keys0) = List.length (k0 :: keys0)));
          [now rewrite Hr | simpl in *; lia].
      * rewrite Hlen. simpl List.length.
        replace (List.length (sockets st) + S (List.length keys0) - 1)
          with (List.length (sockets st) + List.length keys0) by lia.
        exact Hs'.
    + intros ->. exact Hlast.
    + intros p Hne. split; [now apply Hc|].
      unfold getConnectionStatus. rewrite (Hc p Hne).
      destruct (connections st !! p) as [ws|] eqn:E; [|reflexivity].
      now rewrite (Hs p ws Hne E).
  - intros c Hinh st'. subst st'. unfold initializeWebSocketConnections. simpl.
    rewrite (initStep_inherited validUrl st c Hinh). split; [reflexivity|].
    intros Hv.
    destruct (connect_shape validUrl (a_providerId c) inheritedSocketConfig
                (a_apiKey c) st Hv) as (S2 & C2 & _).
    split.
    + rewrite S2, length_app, retired_length. simpl. lia.
    + erewrite status_of_socket; [| exact C2 |
        rewrite S2; apply list_lookup_middle; now rewrite retired_length].
      reflexivity.
Qed.

Lemma initialize_keeps_last_finnhub_witness :
  getConnectionStatus "finnhub"
    (initializeWebSocketConnections anyUrl
       [ {| a_providerId := "finnhub"; a_apiKey := "first" |};
         {| a_providerId := "alpha-vantage"; a_apiKey := "other" |};
         {| a_providerId := "finnhub"; a_apiKey := "second" |} ]
       (run anyUrl [] WS.initial))
  = StatusConnecting.
Proof.
  apply (proj1 (proj2 (proj2 (proj1 (initialize_keeps_last_finnhub anyUrl []
           [ {| a_providerId := "finnhub"; a_apiKey := "first" |};
             {| a_providerId := "alpha-vantage"; a_apiKey := "other" |};
             {| a_providerId := "finnhub"; a_apiKey := "second" |} ])
           eq_refl ltac:(repeat constructor))))).
  discriminate.
Defined.

(** When a quote request is fulfilled the middleware subscribes its symbols
    only if the provider's transport is open: the upper-cased symbols then
    join the provider's set and a subscribe message for them is written to
    that transport alone.  In every other case the manager is left as it is,
    so the symbols are not recorded for a later connection either. *)
Theorem fulfilled_quotes_subscribe_when_open :
  forall (validUrl : string -> bool) (events : list Event) (p : string)
         (symbols : list string),
    let st := run validUrl events WS.initial in
    let st' := onQuotesFulfilled (Some p) symbols st in
    (p <> "" -> getConnectionStatus p st = StatusOpen ->
       exists ws, connections st !! p = Some ws /\
         sentOn ws st' =
           sentOn ws st ++ subscriptionFrames p Subscribe (List.map JS.toUpperCase symbols) /\
         (forall ws', ws' <> ws -> sentOn ws' st' = sentOn ws' st) /\
         (forall s, In s symbols -> In (JS.toUpperCase s) (getSubscriptions p st'))) /\
    (getConnectionStatus p st <> StatusOpen -> st' = st) /\
    onQuotesFulfilled None symbols st = st.
Proof.
  intros validUrl events p symbols st st'. subst st'. split; [|split; [|reflexivity]].
  - intros Hp Hopen. unfold onQuotesFulfilled.
    assert (String.eqb p "" = false) as -> by now apply String.eqb_neq.
    rewrite Hopen. unfold getConnectionStatus in Hopen.
    destruct (connections st !! p) as [ws|] eqn:Hc; [|discriminate Hopen].
    destruct (sockets st !! ws) as [s|] eqn:Hs; [|discriminate Hopen].
    destruct (readyState s) eqn:Hr; try discriminate Hopen.
    exists ws. split; [reflexivity|].
    assert (ws < List.length (sockets st)) as Hlt by (eapply lookup_lt_Some; exact Hs).
    split; [|split].
    + unfold subscribe. simpl. rewrite Hc, Hs, Hr.
      match goal with
      | |- sentOn ws (sendSubscriptionMessage ws p Subscribe ?l ?st1) = _ =>
          destruct (sendSubscriptionMessage_frames ws p Subscribe l st1 Hlt)
            as (_ & -> & _)
      end.
      reflexivity.
    + intros ws' Hne. unfold subscribe. simpl. rewrite Hc, Hs, Hr.
      match goal with
      | |- sentOn ws' (sendSubscriptionMessage ws p Subscribe ?l ?st1) = _ =>
          destruct (sendSubscriptionMessage_frames ws p Subscribe l st1 Hlt)
            as (_ & _ & Hother & _); rewrite (Hother ws' Hne)
      end.
      reflexivity.
    + intros x Hin. unfold getSubscriptions.
      rewrite subscribe_subscriptions, lookup_insert_eq. simpl.
      apply add_fold. right. now exists x.
  - intros Hclosed. unfold onQuotesFulfilled.
    destruct (String.eqb p ""); [reflexivity|].
    destruct (getConnectionStatus p st); try reflexivity. contradiction.
Qed.

Lemma fulfilled_quotes_subscribe_when_open_witness :
  exists ws,
    connections (run anyUrl [Connect "finnhub" (finnhubConfig None) "key"; SocketOpen 0]
                   WS.initial) !! "finnhub" = Some ws /\
    sentOn ws
      (onQuotesFulfilled (Some "finnhub") ["aapl"]
         (run anyUrl [Connect "finnhub" (finnhubConfig None) "key"; SocketOpen 0]
            WS.initial))
    = [JS.JObj [("type", JS.JStr "auth"); ("token", JS.JStr "key")];
       JS.JObj [("type", JS.JStr "subscribe"); ("symbol", JS.JStr "AAPL")]].
Proof.
  destruct (proj1 (fulfilled_quotes_subscribe_when_open anyUrl
              [Connect "finnhub" (finnhubConfig None) "key"; SocketOpen 0]
              "finnhub" ["aapl"]) ltac:(discriminate) eq_refl)
    as (ws & Hc & Hsent & _).
  exists ws. split; [exact Hc|]. rewrite Hsent.
  vm_compute in Hc. injection Hc as <-. reflexivity.
Defined.

(** ** Detected paths and the field mapper *)

Module PathProps.
Import JS FieldMapper FieldMapperSpec FieldMapperProps Detector DetectorExt.

Lemma chars_unchars (l : list ascii) : chars (unchars l) = l.
Proof. apply list_ascii_of_string_of_list_ascii. Qed.

Lemma unchars_chars (s : string) : unchars (chars s) = s.
Proof. apply string_of_list_ascii_of_string. Qed.

Lemma chars_append (a b : string) : chars (a ++ b) = (chars a ++ chars b)%list.
Proof.
  unfold chars. induction a as [|c a IH]; simpl; [reflexivity | now rewrite IH].
Qed.

Lemma string_app_assoc (a b c : string) : ((a ++ b) ++ c = a ++ b ++ c)%string.
Proof.
  induction a as [|x a IH]; [reflexivity|].
  change (String x ((a ++ b) ++ c) = String x (a ++ b ++ c))%string. now rewrite IH.
Qed.

(** *** Splitting a path *)

Lemma split_chars_sep (sep : ascii) (cur l1 l2 : list ascii) :
  split_chars sep cur (l1 ++ sep :: l2) =
  (split_chars sep cur l1 ++ split_chars sep [] l2)%list.
Proof.
  revert cur. induction l1 as [|c l1 IH]; intros cur; simpl.
  - now rewrite Ascii.eqb_refl.
  - destruct (Ascii.eqb c sep); simpl; now rewrite IH.
Qed.

Lemma split_chars_plain (sep : ascii) (cur l : list ascii) :
  forallb (fun c => negb (Ascii.eqb c sep)) l = true ->
  split_chars sep cur l = [unchars (rev cur ++ l)].
Proof.
  revert cur. induction l as [|c l IH]; intros cur H; simpl.
  - now rewrite app_nil_r.
  - simpl in H. apply andb_true_iff in H as [Hc Hl].
    apply negb_true_iff in Hc. rewrite Hc, (IH _ Hl). simpl.
    now rewrite <- app_assoc.
Qed.

Lemma split_plain (k : string) : nodot k -> split "." k = [k].
Proof.
  intros H. unfold split. rewrite split_chars_plain by exact H. simpl.
  now rewrite unchars_chars.
Qed.

Lemma split_snoc (p k : string) :
  nodot k -> split "." (p ++ "." ++ k) = (split "." p ++ [k])%list.
Proof.
  intros H. unfold split. rewrite !chars_append.
  change (chars ".") with ["."%char]. simpl app.
  rewrite split_chars_sep. f_equal.
  rewrite split_chars_plain by exact H. simpl. now rewrite unchars_chars.
Qed.

(** *** Plain keys and indexed segments *)

Lemma plain_nodot (k : string) : plainKey k -> nodot k.
Proof.
  intros [_ H]. unfold nodot. rewrite forallb_forall in H |- *.
  intros c Hc. specialize (H c Hc). unfold plain_char in H.
  apply negb_true_iff in H. apply negb_true_iff.
  destruct (Ascii.eqb c "."); [discriminate H | reflexivity].
Qed.

Lemma plain_arrayMatch (k : string) : plainKey k -> arrayMatch k = None.
Proof.
  intros [_ H]. unfold arrayMatch.
  destruct (rev (chars k)) as [|c rest] eqn:E; [reflexivity|].
  assert (In c (chars k)) as Hc by (apply in_rev; rewrite E; now left).
  rewrite forallb_forall in H. specialize (H c Hc). unfold plain_char in H.
  apply negb_true_iff in H.
  destruct (Ascii.eqb c "]") eqn:Eb; [|reflexivity].
  rewrite orb_true_r in H. discriminate H.
Qed.

Lemma digits_of_uint (d : Decimal.uint) :
  forallb is_digit (chars (NilEmpty.string_of_uint d)) = true.
Proof. induction d; simpl; try exact IHd; reflexivity. Qed.

Lemma string_of_nat_uint (n : nat) :
  string_of_nat n = NilEmpty.string_of_uint (Nat.to_uint n).
Proof.
  unfold string_of_nat. pose proof (to_uint_nonnil n) as H.
  destruct (Nat.to_uint n); [contradiction | reflexivity..].
Qed.

Lemma digits_of_nat (n : nat) : forallb is_digit (chars (string_of_nat n)) = true.
Proof. rewrite string_of_nat_uint. apply digits_of_uint. Qed.

Lemma digits_nonempty (n : nat) : chars (string_of_nat n) <> [].
Proof.
  rewrite string_of_nat_uint. pose proof (to_uint_nonnil n) as H.
  destruct (Nat.to_uint n); [contradiction | discriminate..].
Qed.

Lemma parseInt_of_nat (n : nat) : parseIntDigits (chars (string_of_nat n)) = n.
Proof.
  unfold parseIntDigits. rewrite unchars_chars, string_of_nat_uint, NilEmpty.usu.
  apply Unsigned.of_to.
Qed.

Lemma span_digits_app (ds : list ascii) (c : ascii) (rest : list ascii) :
  forallb is_digit ds = true -> is_digit c = false ->
  span_digits (ds ++ c :: rest) = (ds, c :: rest).
Proof.
  intros Hds Hc. induction ds as [|d ds IH]; simpl.
  - now rewrite Hc.
  - simpl in Hds. apply andb_true_iff in Hds as [Hd Hds].
    rewrite Hd, (IH Hds). reflexivity.
Qed.

Lemma forallb_rev {A : Type} (p : A -> bool) (l : list A) :
  forallb p (rev l) = forallb p l.
Proof.
  destruct (forallb p l) eqn:E.
  - rewrite forallb_forall in E |- *. intros x Hx. apply E. now apply in_rev.
  - destruct (forallb p (rev l)) eqn:E'; [|reflexivity].
    rewrite forallb_forall in E'. rewrite <- E. symmetry. apply forallb_forall.
    intros x Hx. apply E'. now apply in_rev in Hx.
Qed.

Lemma chars_indexed (k : string) (i : nat) :
  chars (indexed k i) = (chars k ++ "["%char :: chars (string_of_nat i) ++ ["]"%char])%list.
Proof. unfold indexed. rewrite !chars_append. reflexivity. Qed.

Lemma indexed_arrayMatch (k : string) (i : nat) :
  plainKey k -> arrayMatch (indexed k i) = Some (k, i).
Proof.
  intros [Hne Hplain]. unfold arrayMatch. rewrite chars_indexed.
  rewrite rev_app_distr. simpl rev. rewrite rev_app_distr. simpl.
  rewrite <- app_assoc. simpl.
  rewrite span_digits_app;
    [| rewrite forallb_rev; apply digits_of_nat | reflexivity].
  destruct (rev (chars (string_of_nat i))) as [|d ds] eqn:Ed.
  { exfalso. apply (digits_nonempty i). rewrite <- (rev_involutive (chars _)), Ed.
    reflexivity. }
  rewrite <- Ed. simpl.
  destruct (rev (chars k)) as [|c cs] eqn:Ek.
  { exfalso. apply Hne. rewrite <- (unchars_chars k), <- (rev_involutive (chars k)), Ek.
    reflexivity. }
  rewrite <- Ek.
  assert (forallb (fun x => negb (is_line_terminator x)) (rev (chars k)) = true) as ->.
  { rewrite forallb_rev. rewrite forallb_forall in Hplain |- *.
    intros x Hx. specialize (Hplain x Hx). unfold plain_char in Hplain.
    apply negb_true_iff in Hplain. apply negb_true_iff.
    destruct (is_line_terminator x) eqn:El; [|reflexivity].
    rewrite !orb_true_r in Hplain. discriminate Hplain. }
  rewrite !rev_involutive, unchars_chars, parseInt_of_nat. reflexivity.
Qed.

Lemma indexed_nodot (k : string) (i : nat) : plainKey k -> nodot (indexed k i).
Proof.
  intros Hk. unfold nodot. rewrite chars_indexed, forallb_app. simpl.
  rewrite forallb_app. simpl.
  apply andb_true_iff. split; [apply (plain_nodot k Hk)|].
  apply andb_true_iff. split; [|reflexivity].
  pose proof (digits_of_nat i) as H. rewrite forallb_forall in H |- *.
  intros c Hc. specialize (H c Hc). apply negb_true_iff.
  destruct (Ascii.eqb_spec c "."); [subst c; discriminate H | reflexivity].
Qed.

(** *** Following one segment *)

Lemma lookup_prop_In (k : string) (v : jsval) (props : list (string * jsval)) :
  List.NoDup (List.map fst props) -> In (k, v) props -> lookup_prop k props = Some v.
Proof.
  induction props as [|[k' v'] props IH]; simpl; [tauto|].
  intros Hnd Hin. inversion Hnd as [|? ? Hfresh Hrest]; subst.
  destruct Hin as [[= -> ->] | Hin].
  - now rewrite String.eqb_refl.
  - destruct (String.eqb k' k) eqn:E; [|now apply IH].
    apply String.eqb_eq in E. subst k'. exfalso. apply Hfresh.
    change k with (fst (k, v)). now apply in_map.
Qed.

Lemma step_key (props : list (string * jsval)) (k : string) (v : jsval) :
  plainKey k -> List.NoDup (List.map fst props) -> In (k, v) props ->
  step (JObj props) k = Some v.
Proof.
  intros Hk Hnd Hin. unfold step. rewrite (plain_arrayMatch k Hk).
  unfold opt_member. simpl. now rewrite (lookup_prop_In k v props Hnd Hin).
Qed.

Lemma not_length (n : nat) : String.eqb (string_of_nat n) "length" = false.
Proof.
  destruct (String.eqb (string_of_nat n) "length") eqn:E; [|reflexivity].
  apply String.eqb_eq in E. pose proof (digits_of_nat n) as H.
  rewrite E in H. discriminate H.
Qed.

Lemma opt_index_arr (items : list jsval) (i : nat) :
  opt_index (JArr items) i = of_option (nth_error items i).
Proof.
  unfold opt_index, opt_member. simpl.
  now rewrite not_length, array_index_of_string_of_nat.
Qed.

Lemma step_indexed (props : list (string * jsval)) (k : string) (items : list jsval)
    (i : nat) (item : jsval) :
  plainKey k -> List.NoDup (List.map fst props) -> In (k, JArr items) props ->
  nth_error items i = Some item ->
  step (JObj props) (indexed k i) = Some item.
Proof.
  intros Hk Hnd Hin Hi. unfold step. rewrite (indexed_arrayMatch k i Hk).
  simpl. rewrite (lookup_prop_In k _ props Hnd Hin). simpl.
  now rewrite opt_index_arr, Hi.
Qed.

(** *** Paths of members and of elements *)

Lemma located_child (segs : list string) (p k : string) :
  located segs p -> nodot k -> k <> "" ->
  located (segs ++ [k]) (childPath p k).
Proof.
  intros [[-> ->] | [Hp Hsplit]] Hk Hne; right; unfold childPath; simpl.
  - split; [exact Hne | now apply split_plain].
  - assert (String.eqb p "" = false) as -> by now apply String.eqb_neq.
    split; [destruct p; [contradiction | discriminate]|].
    now rewrite split_snoc, Hsplit.
Qed.

Lemma childPath_indexed (p k : string) (i : nat) :
  (childPath p k ++ "[" ++ string_of_nat i ++ "]")%string = childPath p (indexed k i).
Proof.
  unfold childPath, indexed. destruct (String.eqb p ""); [reflexivity|].
  now rewrite !string_app_assoc.
Qed.

Lemma indexed_nonempty (k : string) (i : nat) : indexed k i <> "".
Proof.
  unfold indexed. intros H. apply (f_equal chars) in H.
  rewrite !chars_append in H. destruct (chars k); discriminate H.
Qed.

(** *** The shape of the traversal *)

Section Traversal.
Variable dateParse : string -> bool.

Lemma traverse_obj_cons (k : string) (v : jsval) (rest : list (string * jsval))
    (p : string) :
  traverse dateParse (JObj ((k, v) :: rest)) p =
  (match v with
   | JArr _ | JObj _ => traverse dateParse v (childPath p k)
   | _ => [mkField dateParse (childPath p k) k v]
   end ++ traverse dateParse (JObj rest) p)%list.
Proof. reflexivity. Qed.

Lemma traverse_arr (items : list jsval) (p : string) (f : DetectedField) :
  In f (traverse dateParse (JArr items) p) ->
  exists i item, nth_error items i = Some item /\ In f (ofItem dateParse p i item).
Proof.
  destruct items as [|a [|b [|c rest]]].
  - intros [].
  - change (traverse dateParse (JArr [a]) p)
      with (ofItem dateParse p 0 a ++ [])%list.
    rewrite app_nil_r. intros H. now exists 0%nat, a.
  - change (traverse dateParse (JArr [a; b]) p)
      with (ofItem dateParse p 0 a ++ ofItem dateParse p 1 b ++ [])%list.
    rewrite app_nil_r. intros H. apply in_app_or in H as [H | H];
      [now exists 0%nat, a | now exists 1%nat, b].
  - assert (traverse dateParse (JArr (a :: b :: c :: rest)) p =
            (ofItem dateParse p 0 a ++ ofItem dateParse p 1 b ++
             ofItem dateParse p 2 c)%list) as ->.
    { destruct rest; simpl; now rewrite app_nil_r. }
    intros H. apply in_app_or in H as [H | H]; [now exists 0%nat, a|].
    apply in_app_or in H as [H | H]; [now exists 1%nat, b | now exists 2%nat, c].
Qed.

End Traversal.

(** *** Regular values and their size *)

Lemma regular_item_fold (k : string) (items : list jsval) :
  regular (JObj [(k, JArr items)]) -> List.Forall regularItem items.
Proof.
  induction items as [|a items IH]; [constructor|].
  intros (Hnd & Hk & (Ha & Hrest) & _). constructor; [exact Ha|].
  apply IH. split; [exact Hnd|]. split; [exact Hk|]. split; [exact Hrest | exact I].
Qed.

Lemma regular_member (k : string) (x : jsval) :
  regular (JObj [(k, x)]) -> regularMember x.
Proof.
  destruct x; try (intros (_ & _ & H & _); exact H).
  apply regular_item_fold.
Qed.

Lemma regular_cons (k : string) (x : jsval) (rest : list (string * jsval)) :
  regular (JObj ((k, x) :: rest)) ->
  plainKey k /\ regularMember x /\ regular (JObj rest).
Proof.
  intros (Hnd & Hk & Hx & Hrest). inversion Hnd as [|? ? _ Hnd']; subst.
  split; [exact Hk|]. split; [|split; assumption].
  apply (regular_member k). split; [constructor; [intros [] | constructor]|].
  split; [exact Hk|]. split; [exact Hx | exact I].
Qed.

Lemma regular_entries (props : list (string * jsval)) (k : string) (x : jsval) :
  regular (JObj props) -> In (k, x) props -> plainKey k /\ regularMember x.
Proof.
  induction props as [|[k' x'] props IH]; intros H Hin; [destruct Hin|].
  apply regular_cons in H as (Hk & Hx & Hrest).
  destruct Hin as [[= -> ->] | Hin]; [now split | now apply IH].
Qed.

Lemma size_obj_cons (k : string) (x : jsval) (rest : list (string * jsval)) :
  size (JObj ((k, x) :: rest)) = (size x + size (JObj rest))%nat.
Proof. simpl. lia. Qed.

Lemma size_arr_cons (a : jsval) (rest : list jsval) :
  size (JArr (a :: rest)) = (size a + size (JArr rest))%nat.
Proof. simpl. lia. Qed.

Lemma size_entry (props : list (string * jsval)) (k : string) (x : jsval) :
  In (k, x) props -> (size x < size (JObj props))%nat.
Proof.
  induction props as [|[k' x'] props IH]; intros Hin; [destruct Hin|].
  rewrite size_obj_cons. destruct Hin as [[= -> ->] | Hin].
  - destruct props; simpl; lia.
  - specialize (IH Hin). lia.
Qed.

Lemma size_item (items : list jsval) (i : nat) (item : jsval) :
  nth_error items i = Some item -> (size item < size (JArr items))%nat.
Proof.
  revert i. induction items as [|a items IH]; intros [|i] Hi; try discriminate.
  - injection Hi as ->. rewrite size_arr_cons. destruct items; simpl; lia.
  - rewrite size_arr_cons. specialize (IH i Hi). lia.
Qed.

Lemma regular_NoDup (props : list (string * jsval)) :
  regular (JObj props) -> List.NoDup (List.map fst props).
Proof. intros [H _]. exact H. Qed.

Lemma located_split (segs : list string) (k p : string) :
  located (segs ++ [k]) p -> split "." p = (segs ++ [k])%list.
Proof.
  intros [[H _] | [_ H]]; [|exact H]. destruct segs; discriminate H.
Qed.

(** *** Every detected path leads back to its value *)

Section Sound.
Variable dateParse : string -> bool.
Variable obj : jsval.

Lemma traverse_resolves (n : nat) :
  forall (cur : jsval) (segs : list string) (p : string),
    (size cur < n)%nat -> (exists props, cur = JObj props) -> regular cur ->
    reduce segs obj = Some cur -> located segs p ->
    forall f, In f (traverse dateParse cur p) ->
      reduce (split "." (path f)) obj = Some (value f).
Proof.
  induction n as [|n IH]; intros cur segs p Hsize [full ->] Hreg Hred Hloc; [lia|].
  pose proof (regular_NoDup full Hreg) as Hnd.
  assert (forall props,
            (forall e, In e props -> In e full) ->
            forall f, In f (traverse dateParse (JObj props) p) ->
              reduce (split "." (path f)) obj = Some (value f)) as Hentries.
  { induction props as [|[k v] props IHp]; intros Hsub f Hf; [destruct Hf|].
    rewrite traverse_obj_cons in Hf. apply in_app_or in Hf as [Hf | Hf];
      [| apply IHp; [intros e He; apply Hsub; now right | exact Hf]].
    assert (In (k, v) full) as Hin by (apply Hsub; now left).
    destruct (regular_entries full k v Hreg Hin) as [Hk Hv].
    pose proof (located_child segs p k Hloc (plain_nodot k Hk) (proj1 Hk)) as Hloc'.
    pose proof (located_split _ _ _ Hloc') as Hsplit.
    assert (reduce (segs ++ [k]) obj = Some v) as Hred'.
    { rewrite reduce_app, Hred. simpl. now rewrite (step_key full k v Hk Hnd Hin). }
    pose proof (size_entry full k v Hin) as Hsz.
    assert (In f [mkField dateParse (childPath p k) k v] ->
            reduce (split "." (path f)) obj = Some (value f)) as Hleaf.
    { intros [<- | []]. simpl. now rewrite Hsplit. }
    destruct v as [| | b | q | s | items | props' | nat]; try exact (Hleaf Hf).
    - (* an array *)
      apply traverse_arr in Hf as (i & item & Hi & Hf).
      unfold ofItem in Hf. cbv zeta in Hf. rewrite childPath_indexed in Hf.
      assert (regularItem item) as Hitem.
      { simpl in Hv. rewrite List.Forall_forall in Hv. apply Hv.
        eapply nth_error_In. exact Hi. }
      pose proof (located_child segs p (indexed k i) Hloc (indexed_nodot k i Hk)
                    (indexed_nonempty k i)) as Hloc''.
      pose proof (located_split _ _ _ Hloc'') as Hsplit''.
      assert (reduce (segs ++ [indexed k i]) obj = Some item) as Hred''.
      { rewrite reduce_app, Hred. simpl.
        now rewrite (step_indexed full k items i item Hk Hnd Hin Hi). }
      pose proof (size_item items i item Hi) as Hsz'.
      assert (In f [mkField dateParse (childPath p (indexed k i)) (childPath p k) item] ->
              reduce (split "." (path f)) obj = Some (value f)) as Hleaf'.
      { intros [<- | []]. simpl. now rewrite Hsplit''. }
      destruct item as [| | b | q | s | items' | props' | nat]; try exact (Hleaf' Hf).
      + destruct Hf.
      + destruct Hitem.
      + apply (IH (JObj props') (segs ++ [indexed k i])%list (childPath p (indexed k i)));
          [lia | now eexists | exact Hitem | exact Hred'' | exact Hloc'' | exact Hf].
    - (* an object *)
      apply (IH (JObj props') (segs ++ [k])%list (childPath p k));
        [lia | now eexists | exact Hv | exact Hred' | exact Hloc' | exact Hf]. }
  apply Hentries. tauto.
Qed.

End Sound.

Lemma extractFields_resolve (dateParse : string -> bool) (props : list (string * jsval))
    (f : DetectedField) :
  regular (JObj props) -> In f (extractFields dateParse (JObj props)) ->
  extractValue (JObj props) (path f) = value f.
Proof.
  intros Hreg Hf. unfold extractValue.
  rewrite (traverse_resolves dateParse (JObj props) (S (size (JObj props)))
             (JObj props) [] "" (Nat.lt_succ_diag_r _)
             (ex_intro _ props eq_refl) Hreg eq_refl (or_introl (conj eq_refl eq_refl))
             f Hf).
  reflexivity.
Qed.

End PathProps.

Import FieldMapper Detector DetectorExt DetectorExtProps PathProps.

(** On a response made of objects with plain, distinct keys, whose arrays
    hold primitives and such objects, every path reported by [extractFields]
    leads [extractValue] back to the value that was detected there; so the
    source field of every mapping suggested by [detectStructure] resolves to
    the value of a detected field. *)
Theorem detected_paths_resolve :
  forall (dateParse : string -> bool) (props : list (string * JS.jsval)),
    regular (JS.JObj props) ->
    let response := JS.JObj props in
    (forall f, In f (extractFields dateParse response) ->
       extractValue response (path f) = value f) /\
    (forall endpoint expectedType m,
       In m (suggestedMappings
               (detectStructure dateParse endpoint response expectedType)) ->
       exists f, In f (extractFields dateParse response) /\
                 sourceField m = path f /\
                 extractValue response (sourceField m) = value f).
Proof.
  intros dateParse props Hreg response. split.
  - intros f Hf. now apply (extractFields_resolve dateParse).
  - intros endpoint expectedType m Hm.
    change (In m (generateMappings (extractFields dateParse response) expectedType)) in Hm.
    destruct (generateMappings_each _ _ m Hm) as (_ & _ & f & c & Hf & Hpath & _).
    exists f. split; [exact Hf|]. split; [now symmetry|].
    rewrite <- Hpath. now apply (extractFields_resolve dateParse).
Qed.

Lemma detected_paths_resolve_witness :
  List.Forall (fun f => extractValue nestedSample (path f) = value f)
    (extractFields (fun _ => false) nestedSample).
Proof.
  apply List.Forall_forall.
  apply (proj1 (detected_paths_resolve (fun _ => false)
           [("data", JS.JObj [("price", JS.JNum (18732 # 100)); ("note", JS.JNull)]);
            ("items", JS.JArr [JS.JObj [("symbol", JS.JStr "AAPL")]; JS.JStr "MSFT"])]
           ltac:(simpl; unfold plainKey; simpl;
                 repeat split; try discriminate;
                 repeat (constructor; [simpl; intuition discriminate|]); constructor))).
Defined.
